(** * mini-sh: lexer, word splitter, parser and expander

    A shallow embedding of [src/mini-sh.js].

    - Strings are lists of characters ([list ascii]); the program only ever
      compares characters against ASCII constants.  Indices into strings and
      token arrays are natural numbers, and [s !! i] is JavaScript's [s[i]],
      with [None] standing for [undefined].
    - A loop that only advances an index while a test holds on the character
      under it is the structural function [scanWhile]; so is the loop over a
      quoted region in the lexer ([scanQuoted]).  Every other [while] loop is
      run by the combinator [while] on an explicit amount of fuel, one call of
      its body per iteration; the result is [None] when the fuel runs out or
      when a field of [undefined] would be read, and the theorems below show
      that neither happens.
    - The [kind] tag of an AST node is the type or constructor of the value;
      the mutable cursors ([i], [idx]) and accumulators ([tokens], [parts],
      [words], [redirs], [commands]) are the state of the loops.
    - A context is a finite map from names to values; [ctx[name]] is the
      lookup in that map. *)

From Stdlib Require Import List Ascii String Arith NArith Bool Lia.
From stdpp Require Import base option list gmap strings.
Import ListNotations.

Local Open Scope nat_scope.
Local Open Scope list_scope.

(** ** Loops *)

Section While.
Context {St Res : Type}.

(** One iteration: [Some (inl s')] continues with the new state,
    [Some (inr r)] leaves the loop with result [r]. *)
Variable body : St -> option (St + Res).

Fixpoint while (fuel : nat) (s : St) : option Res :=
  match fuel with
  | 0 => None
  | S fuel' =>
      match body s with
      | None => None
      | Some (inl s') => while fuel' s'
      | Some (inr r) => Some r
      end
  end.
End While.

(** ** Characters and strings *)

Definition js (s : string) : list ascii := list_ascii_of_string s.

(** [s.slice(a, b)] for [0 <= a]. *)
Definition slice (s : list ascii) (a b : nat) : list ascii :=
  take (b - a) (drop a s).

Definition squote : ascii := "039".
Definition dquote : ascii := "034".
Definition backslash : ascii := "092".
Definition dollar : ascii := "036".

(** [o === c] for [o] a character or [undefined]. *)
Definition charIs (c : ascii) (o : option ascii) : bool :=
  match o with
  | Some x => Ascii.eqb x c
  | None => false
  end.

Definition isSpace (ch : ascii) : bool :=
  Ascii.eqb ch " " || Ascii.eqb ch "009" || Ascii.eqb ch "010" || Ascii.eqb ch "013".

Definition isDigit (ch : ascii) : bool :=
  Ascii.leb "0" ch && Ascii.leb ch "9".

Definition isVarStart (ch : ascii) : bool :=
  (Ascii.leb "A" ch && Ascii.leb ch "Z") ||
  (Ascii.leb "a" ch && Ascii.leb ch "z") ||
  Ascii.eqb ch "_".

Definition isVarChar (ch : ascii) : bool :=
  isVarStart ch || isDigit ch.

(** A predicate applied to [s[i]], which is false on [undefined]. *)
Definition at_ (p : ascii -> bool) (o : option ascii) : bool :=
  match o with
  | Some c => p c
  | None => false
  end.

(** [while (j < N && p(s[j])) j++] advances [j] by [scanWhile p (drop j s)]. *)
Fixpoint scanWhile (p : ascii -> bool) (rest : list ascii) : nat :=
  match rest with
  | c :: rest' => if p c then S (scanWhile p rest') else 0
  | [] => 0
  end.

(** The numbers that a run of decimal digits denotes in JS: the
    non-negative integers that a double holds, and [Infinity]. *)
Inductive JsNumber := Finite (n : N) | Infinity.
Coercion Finite : N >-> JsNumber.
Bind Scope N_scope with JsNumber.

(** The mathematical value of a run of decimal digits. *)
Definition decimalValue (s : list ascii) : N :=
  fold_left (fun acc c => (acc * 10 + (N_of_ascii c - 48))%N) s 0%N.

(** The double nearest to [n], a tie going to the even mantissa: [n] itself
    below 2^53; above, the 53 leading bits of [n] rounded on the bits that
    follow; [Infinity] when the rounded value reaches 2^1024. *)
Definition toDouble (n : N) : JsNumber :=
  if (n <? 2 ^ 53)%N then Finite n
  else
    let e := (N.log2 n - 52)%N in
    let q := N.shiftr n e in
    let r := N.land n (N.ones e) in
    let half := N.shiftl 1 (e - 1) in
    let q' := if (half <? r)%N || ((r =? half)%N && N.odd q)
              then (q + 1)%N else q in
    let v := N.shiftl q' e in
    if (2 ^ 1024 <=? v)%N then Infinity else Finite v.

(** [Number(s)] on a run of decimal digits: the double nearest to its
    value. *)
Definition Number (s : list ascii) : JsNumber := toDouble (decimalValue s).

Record Span := makeSpan { start : nat; end_ : nat }.

(** ** Lexer *)

Module TokenKind.
Inductive t := Word | Pipe | GT | GTGT | LT | AMP_GT | FD_GT | EOF.

Definition eqb (a b : t) : bool :=
  match a, b with
  | Word, Word | Pipe, Pipe | GT, GT | GTGT, GTGT | LT, LT
  | AMP_GT, AMP_GT | FD_GT, FD_GT | EOF, EOF => true
  | _, _ => false
  end.
End TokenKind.

(** The [meta] objects the lexer builds: [{fd, append}] and
    [{fd, dup: true, dupTarget}], where [dupTarget] is a number or [null]. *)
Inductive Meta :=
  | MetaAppend (fd : JsNumber) (append : bool)
  | MetaDup (fd : JsNumber) (dupTarget : option JsNumber).

Record Token := mkToken {
  kind : TokenKind.t;
  text : list ascii;
  tstart : nat;
  tend : nat;
  meta : option Meta
}.

Definition pushToken (input : list ascii) (tokens : list Token)
    (k : TokenKind.t) (s e : nat) (m : option Meta) : list Token :=
  tokens ++ [mkToken k (slice input s e) s e m].

(** The quoted-string loop of the word scanner, started after the opening
    quote [q]: the number of positions [i] advances. *)
Fixpoint scanQuoted (q : ascii) (rest : list ascii) : nat :=
  match rest with
  | [] => 0
  | cc :: rest' =>
      if Ascii.eqb cc backslash && Ascii.eqb q dquote then
        match rest' with
        | [] => 2
        | _ :: rest'' => S (S (scanQuoted q rest''))
        end
      else if Ascii.eqb cc q then 1
      else S (scanQuoted q rest')
  end.

(** One iteration of the word-scanning loop at index [i]. *)
Definition wordBody (input : list ascii) (i : nat) : option (nat + nat) :=
  match input !! i with
  | None => Some (inr i)
  | Some c =>
      if isSpace c then Some (inr i)
      else if Ascii.eqb c "|" || Ascii.eqb c "<" || Ascii.eqb c ">" then Some (inr i)
      else if Ascii.eqb c "&" && charIs ">" (input !! (i + 1)) then Some (inr i)
      else if Ascii.eqb c squote || Ascii.eqb c dquote then
        Some (inl (i + 1 + scanQuoted c (drop (i + 1) input)))
      else if Ascii.eqb c backslash then Some (inl (i + 2))
      else Some (inl (i + 1))
  end.

Definition scanWord (input : list ascii) (i : nat) : option nat :=
  while (wordBody input) (S (length input)) i.

(** The branch for a run of digits at [startFd]: [Some] when the run is
    followed by [>] (a token is pushed), [None] when the cursor is reset and
    control falls through to word scanning. *)
Definition lexFd (input : list ascii) (tokens : list Token) (startFd : nat)
    : option (nat * list Token) :=
  let i := startFd + scanWhile isDigit (drop startFd input) in
  if charIs ">" (input !! i) then
    let fdStr := slice input startFd i in
    let i := i + 1 in
    if charIs ">" (input !! i) then
      let i := i + 1 in
      Some (i, pushToken input tokens TokenKind.FD_GT startFd i
                 (Some (MetaAppend (Number fdStr) true)))
    else if charIs "&" (input !! i) then
      let i := i + 1 in
      let dupStart := i in
      let i := i + scanWhile isDigit (drop i input) in
      let dupStr := slice input dupStart i in
      Some (i, pushToken input tokens TokenKind.FD_GT startFd i
                 (Some (MetaDup (Number fdStr)
                          (match dupStr with
                           | [] => None
                           | _ => Some (Number dupStr)
                           end))))
    else
      Some (i, pushToken input tokens TokenKind.FD_GT startFd i
                 (Some (MetaAppend (Number fdStr) false)))
  else None.

(** One iteration of the main loop of [lex]. *)
Definition lexBody (input : list ascii) (st : nat * list Token)
    : option (nat * list Token + list Token) :=
  let '(i, tokens) := st in
  match input !! i with
  | None => Some (inr tokens)
  | Some ch =>
      if isSpace ch then Some (inl (i + 1, tokens))
      else if Ascii.eqb ch "|" then
        Some (inl (i + 1, pushToken input tokens TokenKind.Pipe i (i + 1) None))
      else if Ascii.eqb ch "&" && charIs ">" (input !! (i + 1)) then
        Some (inl (i + 2, pushToken input tokens TokenKind.AMP_GT i (i + 2) None))
      else
        match (if isDigit ch then lexFd input tokens i else None) with
        | Some st' => Some (inl st')
        | None =>
            if Ascii.eqb ch ">" then
              if charIs ">" (input !! (i + 1)) then
                Some (inl (i + 2, pushToken input tokens TokenKind.GTGT i (i + 2) None))
              else
                Some (inl (i + 1, pushToken input tokens TokenKind.GT i (i + 1) None))
            else if Ascii.eqb ch "<" then
              Some (inl (i + 1, pushToken input tokens TokenKind.LT i (i + 1) None))
            else
              match scanWord input i with
              | None => None
              | Some wend =>
                  Some (inl (wend, pushToken input tokens TokenKind.Word i wend None))
              end
        end
  end.

Definition lex (input : list ascii) : option (list Token) :=
  match while (lexBody input) (S (length input)) (0, []) with
  | None => None
  | Some tokens =>
      Some (pushToken input tokens TokenKind.EOF (length input) (length input) None)
  end.

(** ** Word splitter *)

Inductive Part :=
  | Text (value : list ascii) (span : Span)
  | Var (name : list ascii) (braced : bool) (span : Span).

Definition isText (p : Part) : bool :=
  match p with
  | Text _ _ => true
  | Var _ _ _ => false
  end.

Section Splitter.
Variable raw : list ascii.
Variable baseOffset : nat.

Definition pushText (parts : list Part) (s : list ascii) (a b : nat) : list Part :=
  match s with
  | [] => parts
  | _ => parts ++ [Text s (makeSpan (baseOffset + a) (baseOffset + b))]
  end.

Definition pushVar (parts : list Part) (name : list ascii) (braced : bool)
    (a b : nat) : list Part :=
  parts ++ [Var name braced (makeSpan (baseOffset + a) (baseOffset + b))].

Definition notChar (c : ascii) (x : ascii) : bool := negb (Ascii.eqb x c).

(** A variable reference at index [i] of [s], where [s[i]] is [$]: the
    parts after it and the index after it.  The three places that parse a
    variable (unquoted, inside double quotes, in [scanTextForVars]) run the
    same statements on [(s, i)] and differ in the offset added to spans. *)
Definition parseVar (s : list ascii) (off : nat) (parts : list Part) (i : nat)
    : nat * list Part :=
  if charIs "{" (s !! (i + 1)) then
    let j := i + 2 + scanWhile (notChar "}") (drop (i + 2) s) in
    (j + 1, pushVar parts (slice s (i + 2) j) true (off + i) (off + j + 1))
  else if at_ isVarStart (s !! (i + 1)) then
    let j := i + 2 + scanWhile isVarChar (drop (i + 2) s) in
    (j, pushVar parts (slice s (i + 1) j) false (off + i) (off + j))
  else
    (i + 1, pushText parts [dollar] (off + i) (off + i + 1)).

(** One iteration of the loop of [scanTextForVars(text, offset)]; the state
    is [(p, accStart, parts)]. *)
Definition scanVarsBody (text : list ascii) (offset : nat)
    (st : nat * nat * list Part)
    : option (nat * nat * list Part + nat * list Part) :=
  let '(p, accStart, parts) := st in
  match text !! p with
  | None => Some (inr (accStart, parts))
  | Some c =>
      if Ascii.eqb c dollar then
        let parts :=
          if accStart <? p
          then pushText parts (slice text accStart p) (offset + accStart) (offset + p)
          else parts in
        let '(p', parts) := parseVar text offset parts p in
        Some (inl (p', p', parts))
      else Some (inl (p + 1, accStart, parts))
  end.

Definition scanTextForVars (parts : list Part) (text : list ascii) (offset : nat)
    : option (list Part) :=
  match while (scanVarsBody text offset) (S (length text)) (0, 0, parts) with
  | None => None
  | Some (accStart, parts) =>
      Some (if accStart <? length text
            then pushText parts (drop accStart text)
                   (offset + accStart) (offset + length text)
            else parts)
  end.

(** The pending segment [raw.slice(segmentStart, i)] of a double-quoted
    region, scanned for variables when it is not empty. *)
Definition flushSegment (parts : list Part) (segmentStart i : nat)
    : option (list Part) :=
  if segmentStart <? i
  then scanTextForVars parts (slice raw segmentStart i) segmentStart
  else Some parts.

(** One iteration of the loop over a double-quoted region; the state is
    [(i, segmentStart, parts)], the result the index after the region and
    the parts. *)
Definition dquoteBody (st : nat * nat * list Part)
    : option (nat * nat * list Part + nat * list Part) :=
  let '(i, segmentStart, parts) := st in
  match raw !! i with
  | None => Some (inr (i, parts))
  | Some c =>
      if Ascii.eqb c backslash then
        let parts :=
          if segmentStart <? i
          then pushText parts (slice raw segmentStart i) segmentStart i
          else parts in
        let esc := raw !! (i + 1) in
        let parts :=
          if charIs "n" esc then pushText parts ["010"%char] i (i + 2)
          else if charIs "t" esc then pushText parts ["009"%char] i (i + 2)
          else pushText parts (match esc with Some e => [e] | None => [] end)
                 i (i + 2) in
        Some (inl (i + 2, i + 2, parts))
      else if Ascii.eqb c dquote then
        match flushSegment parts segmentStart i with
        | None => None
        | Some parts => Some (inr (i + 1, parts))
        end
      else if Ascii.eqb c dollar then
        match flushSegment parts segmentStart i with
        | None => None
        | Some parts =>
            let '(i', parts) := parseVar raw 0 parts i in
            Some (inl (i', i', parts))
        end
      else Some (inl (i + 1, segmentStart, parts))
  end.

Definition isSpecial (c : ascii) : bool :=
  Ascii.eqb c squote || Ascii.eqb c dquote || Ascii.eqb c backslash
  || Ascii.eqb c dollar.

(** One iteration of the main loop of [splitWordIntoParts]. *)
Definition splitBody (st : nat * list Part)
    : option (nat * list Part + list Part) :=
  let '(i, parts) := st in
  match raw !! i with
  | None => Some (inr parts)
  | Some ch =>
      if Ascii.eqb ch squote then
        let innerStart := i + 1 in
        let i := innerStart + scanWhile (notChar squote) (drop innerStart raw) in
        let inner := slice raw innerStart i in
        let parts := pushText parts inner innerStart (innerStart + length inner) in
        Some (inl (if charIs squote (raw !! i) then i + 1 else i, parts))
      else if Ascii.eqb ch dquote then
        match while dquoteBody (S (length raw)) (i + 1, i + 1, parts) with
        | None => None
        | Some st' => Some (inl st')
        end
      else if Ascii.eqb ch backslash then
        match raw !! (i + 1) with
        | Some c => Some (inl (i + 2, pushText parts [c] i (i + 2)))
        | None => Some (inl (i + 1, pushText parts [backslash] i (i + 1)))
        end
      else if Ascii.eqb ch dollar then
        Some (inl (parseVar raw 0 parts i))
      else
        let runStart := i in
        let i := i + scanWhile (fun c => negb (isSpecial c)) (drop i raw) in
        Some (inl (i, if runStart <? i
                      then pushText parts (slice raw runStart i) runStart i
                      else parts))
  end.

(** The merge pass: a Text part following a Text part is appended to it. *)
Definition mergeStep (merged : list Part) (part : Part) : list Part :=
  match last merged, part with
  | Some (Text v sp), Text v' sp' =>
      removelast merged ++ [Text (v ++ v') (makeSpan (start sp) (end_ sp'))]
  | _, _ => merged ++ [part]
  end.

Definition mergeParts (parts : list Part) : list Part :=
  fold_left mergeStep parts [].

Definition splitWordIntoParts : option (list Part) :=
  match while splitBody (S (length raw)) (0, []) with
  | None => None
  | Some parts => Some (mergeParts parts)
  end.
End Splitter.

(** ** Parser *)

Record Word := mkWord { parts : list Part; wspan : Span }.

(** A value that is a number, [null] or [undefined]. *)
Inductive OptNum := undefined | null | num (n : JsNumber).

Record Redirection := mkRedirection {
  fd : OptNum;
  op : list ascii;
  target : Word;
  dupTargetFd : OptNum;
  rspan : Span
}.

Record Command := mkCommand {
  words : list Word;
  redirections : list Redirection;
  cspan : Span
}.

Record Pipeline := mkPipeline { commands : list Command; pspan : Span }.

Definition makeWord (rawText : list ascii) (startOffset : nat) : option Word :=
  match splitWordIntoParts rawText startOffset with
  | None => None
  | Some parts =>
      Some (mkWord parts (makeSpan startOffset (startOffset + length rawText)))
  end.

Section Parser.
Variable tokens : list Token.

(** [tokens[idx + n] ?? tokens[tokens.length - 1]]; [None] is [undefined],
    whose fields cannot be read. *)
Definition peekTok (idx n : nat) : option Token :=
  match tokens !! (idx + n) with
  | Some t => Some t
  | None => last tokens
  end.

Definition ofDupTarget (dupTarget : option JsNumber) : OptNum :=
  match dupTarget with
  | Some n => num n
  | None => null
  end.

(** The redirection branch of [parseCommand] after [t = eatTok()], with
    [idx] already past [t]. *)
Definition parseRedirection (idx : nat) (ws : list Word) (redirs : list Redirection)
    (t : Token) (op : list ascii) (fd : OptNum) (dup : bool) (dupTarget : option JsNumber)
    : option (nat * list Word * list Redirection) :=
  match peekTok idx 0 with
  | None => None
  | Some next =>
      if negb (TokenKind.eqb (kind next) TokenKind.Word) then
        match makeWord [] (tend t) with
        | None => None
        | Some placeholder =>
            Some (idx, ws,
                  redirs ++ [mkRedirection fd op placeholder
                               (if dup then ofDupTarget dupTarget else undefined)
                               (makeSpan (tstart t) (tend t))])
        end
      else
        let targTok := next in
        match makeWord (text targTok) (tstart targTok) with
        | None => None
        | Some targetWord =>
            Some (idx + 1, ws,
                  redirs ++ [mkRedirection fd op targetWord
                               (if dup then ofDupTarget dupTarget else undefined)
                               (makeSpan (tstart t) (tend targTok))])
        end
  end.

(** One iteration of the loop of [parseCommand]; the state is
    [(idx, words, redirs)].  [eatTok()] returns the token [peekTok()] returns
    and adds one to [idx].  The eight token kinds are all the kinds there
    are, so the final "unknown token" statement of the loop is never reached. *)
Definition parseCommandBody (st : nat * list Word * list Redirection)
    : option (nat * list Word * list Redirection + nat * list Word * list Redirection) :=
  let '(idx, ws, redirs) := st in
  match peekTok idx 0 with
  | None => None
  | Some tk =>
      match kind tk with
      | TokenKind.EOF | TokenKind.Pipe => Some (inr st)
      | TokenKind.Word =>
          match makeWord (text tk) (tstart tk) with
          | None => None
          | Some w => Some (inl (idx + 1, ws ++ [w], redirs))
          end
      | TokenKind.AMP_GT =>
          inl <$> parseRedirection (idx + 1) ws redirs tk (js "clobber") undefined false None
      | TokenKind.GT =>
          inl <$> parseRedirection (idx + 1) ws redirs tk (js ">") undefined false None
      | TokenKind.GTGT =>
          inl <$> parseRedirection (idx + 1) ws redirs tk (js ">>") undefined false None
      | TokenKind.LT =>
          inl <$> parseRedirection (idx + 1) ws redirs tk (js "<") undefined false None
      | TokenKind.FD_GT =>
          match meta tk with
          | None => None
          | Some (MetaDup fd dupTarget) =>
              inl <$> parseRedirection (idx + 1) ws redirs tk (js "dup") (num fd) true dupTarget
          | Some (MetaAppend fd append) =>
              inl <$> parseRedirection (idx + 1) ws redirs tk
                        (if append then js ">>" else js ">") (num fd) false None
          end
      end
  end.

Definition parseCommand (idx : nat) : option (Command * nat) :=
  match peekTok idx 0 with
  | None => None
  | Some tk0 =>
      let cmdStart := tstart tk0 in
      match while parseCommandBody (S (length tokens)) (idx, [], []) with
      | None => None
      | Some (idx, ws, redirs) =>
          match peekTok idx 0 with
          | None => None
          | Some tk1 =>
              Some (mkCommand ws redirs (makeSpan cmdStart (tstart tk1)), idx)
          end
      end
  end.

(** One iteration of the top-level loop of [parse]; the state is
    [(idx, commands)]. *)
Definition parseBody (st : nat * list Command)
    : option (nat * list Command + nat * list Command) :=
  let '(idx, cmds) := st in
  match peekTok idx 0 with
  | None => None
  | Some tk =>
      if TokenKind.eqb (kind tk) TokenKind.EOF then Some (inr st)
      else
        match parseCommand idx with
        | None => None
        | Some (cmd, idx) =>
            let cmds := cmds ++ [cmd] in
            match peekTok idx 0 with
            | None => None
            | Some tk' =>
                if TokenKind.eqb (kind tk') TokenKind.Pipe
                then Some (inl (idx + 1, cmds))
                else Some (inr (idx, cmds))
            end
        end
  end.

Definition parseTokens : option Pipeline :=
  match while parseBody (S (length tokens)) (0, []) with
  | None => None
  | Some (idx, cmds) =>
      match peekTok idx 0 with
      | None => None
      | Some tk => Some (mkPipeline cmds (makeSpan 0 (tend tk)))
      end
  end.
End Parser.

Definition parse (input : list ascii) : option Pipeline :=
  match lex input with
  | None => None
  | Some tokens => parseTokens tokens
  end.

(** ** Expander *)

Section Expander.
(** Context values that are neither strings nor [null] nor [undefined]
    (numbers, booleans, functions, objects), with their conversion by
    [String(val)]. *)
Context {Other : Type}.
Variable otherToString : Other -> list ascii.

Inductive Value :=
  | Vundefined
  | Vnull
  | Vstring (s : list ascii)
  | Vother (o : Other).

(** A context: the object passed as [ctx], given as the chain of objects a
    property read goes through: the properties of the object itself first,
    then those of its prototype, of the prototype of its prototype, and so
    on. *)
Definition Ctx := list (gmap (list ascii) Value).

(** [ctx[name]]: the first object of the chain that has the name gives the
    value; a name that none of them has reads as [undefined]. *)
Fixpoint getProp (ctx : Ctx) (name : list ascii) : Value :=
  match ctx with
  | [] => Vundefined
  | obj :: protos =>
      match obj !! name with
      | Some v => v
      | None => getProp protos name
      end
  end.

(** [(val === undefined || val === null) ? '' : String(val)] *)
Definition valueText (val : Value) : list ascii :=
  match val with
  | Vundefined | Vnull => []
  | Vstring s => s
  | Vother o => otherToString o
  end.

Definition expandPart (ctx : Ctx) (out : list ascii) (p : Part)
    : list ascii :=
  match p with
  | Text value _ => out ++ value
  | Var name _ _ => out ++ valueText (getProp ctx name)
  end.

Definition expandWord (word : Word) (ctx : Ctx) : list ascii :=
  fold_left (expandPart ctx) (parts word) [].

Definition buildArgv (command : Command) (ctx : Ctx) : list (list ascii) :=
  map (fun w => expandWord w ctx) (words command).
End Expander.

Arguments Value : clear implicits.
Arguments Ctx : clear implicits.

(** ** The objects of the language that a context is made of

    An object literal inherits from [Object.prototype]; an object made by
    [Object.create(null)] inherits from nothing.  The properties of
    [Object.prototype] are functions of the language, and [__proto__] reads
    as [Object.prototype] itself; [String] of a function of the language is
    [function name() { [native code] }], of [Object.prototype]
    [[object Object]]. *)

Inductive JsObject := NativeFunction (name : list ascii) | ObjectPrototype.

Definition jsObjectText (o : JsObject) : list ascii :=
  match o with
  | NativeFunction name => js "function " ++ name ++ js "() { [native code] }"
  | ObjectPrototype => js "[object Object]"
  end.

Definition objectPrototype : gmap (list ascii) (Value JsObject) :=
  list_to_map
    [(js "constructor", Vother (NativeFunction (js "Object")));
     (js "__defineGetter__", Vother (NativeFunction (js "__defineGetter__")));
     (js "__defineSetter__", Vother (NativeFunction (js "__defineSetter__")));
     (js "hasOwnProperty", Vother (NativeFunction (js "hasOwnProperty")));
     (js "__lookupGetter__", Vother (NativeFunction (js "__lookupGetter__")));
     (js "__lookupSetter__", Vother (NativeFunction (js "__lookupSetter__")));
     (js "isPrototypeOf", Vother (NativeFunction (js "isPrototypeOf")));
     (js "propertyIsEnumerable",
      Vother (NativeFunction (js "propertyIsEnumerable")));
     (js "toString", Vother (NativeFunction (js "toString")));
     (js "valueOf", Vother (NativeFunction (js "valueOf")));
     (js "__proto__", Vother ObjectPrototype);
     (js "toLocaleString", Vother (NativeFunction (js "toLocaleString")))].

(** The object literal with the given properties; [objectLiteral ∅] is
    [{}]. *)
Definition objectLiteral (own : gmap (list ascii) (Value JsObject)) : Ctx JsObject :=
  [own; objectPrototype].

(** [Object.create(null)] with the given properties added. *)
Definition nullPrototypeObject (own : gmap (list ascii) (Value JsObject))
    : Ctx JsObject :=
  [own].

(** * Vocabulary of the properties *)

(** What the lexer guarantees of every token before the last one. *)
Definition tokenOk (t : Token) : Prop :=
  kind t <> TokenKind.EOF /\ (kind t = TokenKind.FD_GT -> is_Some (meta t)).

Definition lexInv (input : list ascii) (st : nat * list Token) : Prop :=
  Forall tokenOk st.2 /\
  (st.2 = [] -> forallb isSpace (take st.1 input) = true).

Definition lexPost (input : list ascii) (tokens : list Token) : Prop :=
  Forall tokenOk tokens /\ (tokens = [] -> forallb isSpace input = true).

Definition eofToken (input : list ascii) : Token :=
  mkToken TokenKind.EOF [] (length input) (length input) None.

Fixpoint noAdjacentText (ps : list Part) : bool :=
  match ps with
  | [] => true
  | p :: rest =>
      match rest with
      | [] => true
      | q :: _ => negb (isText p && isText q)
      end && noAdjacentText rest
  end.

Definition mayFollow (prev : option Part) (p : Part) : bool :=
  match prev with
  | Some q => negb (isText q && isText p)
  | None => true
  end.

Definition wordOk (w : Word) : Prop := noAdjacentText (parts w) = true.

Definition isPipe (t : Token) : bool := TokenKind.eqb (kind t) TokenKind.Pipe.

Definition pipes (l : list Token) : nat := length (filter (fun t => isPipe t = true) l).

(** The number of commands the top-level loop builds from the tokens before
    EOF: one per [|], and one more when the last token is not a [|]. *)
Definition expectedCommands (body : list Token) : nat :=
  match last body with
  | None => 0
  | Some t => if isPipe t then pipes body else S (pipes body)
  end.

Definition redirectionOk (r : Redirection) : Prop := wordOk (target r).

Definition commandOk (c : Command) : Prop :=
  Forall wordOk (words c) /\ Forall redirectionOk (redirections c).

Definition lexedBody (input : list ascii) (toks : list Token) : Prop :=
  lex input = Some (toks ++ [eofToken input]).

Definition noQuote (s : list ascii) : bool := forallb (notChar squote) s.

Definition quoted (s : list ascii) : list ascii := squote :: s ++ [squote].

(** The input has a character that is not whitespace. *)
Definition hasVisibleChar (input : list ascii) : bool :=
  existsb (fun c => negb (isSpace c)) input.

(** Where a character of the input stands: outside quotes, between single
    quotes or between double quotes. *)
Inductive QuoteState := Unquoted | InSingle | InDouble.

(** The top-level [|] characters of a text, read off its characters: a [|]
    is top-level when it stands outside quotes and is not escaped by a
    backslash.  A single quote opens a region that the next single quote
    closes; a double quote opens a region that the next double quote closes,
    a backslash inside it taking the character after it along; outside
    quotes a backslash escapes the character after it.  [n] counts the
    top-level [|] met so far, and [bar] tells whether the last character
    outside quotes that is not whitespace was a top-level [|]. *)
Fixpoint topLevelScan (q : QuoteState) (n : nat) (bar : bool) (s : list ascii)
    : nat * bool :=
  match s with
  | [] => (n, bar)
  | c :: rest =>
      match q with
      | Unquoted =>
          if Ascii.eqb c "|" then topLevelScan Unquoted (S n) true rest
          else if Ascii.eqb c squote then topLevelScan InSingle n false rest
          else if Ascii.eqb c dquote then topLevelScan InDouble n false rest
          else if Ascii.eqb c backslash then
            match rest with
            | [] => (n, false)
            | _ :: rest' => topLevelScan Unquoted n false rest'
            end
          else if isSpace c then topLevelScan Unquoted n bar rest
          else topLevelScan Unquoted n false rest
      | InSingle =>
          if Ascii.eqb c squote then topLevelScan Unquoted n false rest
          else topLevelScan InSingle n false rest
      | InDouble =>
          if Ascii.eqb c backslash then
            match rest with
            | [] => (n, false)
            | _ :: rest' => topLevelScan InDouble n false rest'
            end
          else if Ascii.eqb c dquote then topLevelScan Unquoted n false rest
          else topLevelScan InDouble n false rest
      end
  end.

(** The number of top-level [|] characters of the input. *)
Definition topLevelBars (input : list ascii) : nat :=
  (topLevelScan Unquoted 0 false input).1.

(** The input ends, whitespace apart, with a top-level [|]. *)
Definition endsWithTopLevelBar (input : list ascii) : bool :=
  (topLevelScan Unquoted 0 false input).2.

(** The last of the tokens is a Pipe. *)
Definition lastIsPipe (tokens : list Token) : bool :=
  match last tokens with
  | Some t => isPipe t
  | None => false
  end.

(** A character outside quotes that is neither whitespace nor [|], a quote
    or a backslash. *)
Definition ordinaryChar (c : ascii) : bool :=
  negb (isSpace c || Ascii.eqb c "|" || Ascii.eqb c squote || Ascii.eqb c dquote
        || Ascii.eqb c backslash).

Definition ordinaryBetween (input : list ascii) (a b : nat) : Prop :=
  forall k, a <= k < b -> exists c, input !! k = Some c /\ ordinaryChar c = true.

(** The lexer has counted the top-level [|] before its cursor. *)
Definition scanInv (input : list ascii) (st : nat * list Token) : Prop :=
  topLevelScan Unquoted (pipes st.2) (lastIsPipe st.2) (drop st.1 input)
  = topLevelScan Unquoted 0 false input.

(** The Pipe tokens the lexer returns for the input. *)
Definition pipeTokens (input : list ascii) : nat :=
  match lex input with
  | Some toks => pipes toks
  | None => 0
  end.

(** The last token before EOF is a Pipe. *)
Definition lastTokenIsPipe (input : list ascii) : bool :=
  match lex input with
  | Some toks =>
      match last (removelast toks) with
      | Some t => isPipe t
      | None => false
      end
  | None => false
  end.

(** The properties a context has itself, without those it inherits. *)
Definition ownProp {Other : Type} (ctx : Ctx Other) (name : list ascii)
    : option (Value Other) :=
  match ctx with
  | obj :: _ => obj !! name
  | [] => None
  end.

(** What one part contributes to the expansion of its word, in the words
    of the specification: a TextPart its value, a VarPart the string form of
    the context's value for its name, or the empty string when the name is
    absent from the context or its value is null or undefined. *)
Definition partContribution {Other : Type} (toStr : Other -> list ascii)
    (ctx : Ctx Other) (p : Part) : list ascii :=
  match p with
  | Text value _ => value
  | Var name _ _ =>
      match ownProp ctx name with
      | None | Some Vundefined | Some Vnull => []
      | Some (Vstring s) => s
      | Some (Vother o) => toStr o
      end
  end.

(** What one part adds to the output of [expandWord]: for a VarPart the
    string form of what [ctx[name]] reads. *)
Definition partText {Other : Type} (toStr : Other -> list ascii)
    (ctx : Ctx Other) (p : Part) : list ascii :=
  match p with
  | Text value _ => value
  | Var name _ _ => valueText toStr (getProp ctx name)
  end.

(** The first word of the first command of [parse(input)]. *)
Definition word_of (input : list ascii) : option Word :=
  match parse input with
  | Some p =>
      match commands p with
      | cmd :: _ => head (words cmd)
      | [] => None
      end
  | None => None
  end.

Definition varNames (w : Word) : list (list ascii) :=
  flat_map (fun p => match p with
                     | Var name _ _ => [name]
                     | Text _ _ => []
                     end) (parts w).

(** No name the word refers to is one the context only inherits. *)
Definition noInheritedName {Other : Type} (ctx : Ctx Other) (word : Word) : Prop :=
  forall name, In name (varNames word) ->
    ownProp ctx name = None -> getProp ctx name = Vundefined.

Definition isRedirectionKind (k : TokenKind.t) : bool :=
  match k with
  | TokenKind.GT | TokenKind.GTGT | TokenKind.LT
  | TokenKind.AMP_GT | TokenKind.FD_GT => true
  | _ => false
  end.

(** Invariants of the parser's loops on the tokens [body] before EOF. *)

Definition noPipeBetween (body : list Token) (a b : nat) : Prop :=
  forall k t, a <= k < b -> body !! k = Some t -> isPipe t = false.

Definition commandInv (body : list Token) (idx0 : nat)
    (st : nat * list Word * list Redirection) : Prop :=
  idx0 <= st.1.1 <= length body /\
  noPipeBetween body idx0 st.1.1 /\
  Forall wordOk st.1.2 /\ Forall redirectionOk st.2.

(** Where the loop of [parseCommand] stops: at the end of the tokens or at
    a [|]. *)
Definition atCommandEnd (body : list Token) (idx : nat) : Prop :=
  idx = length body \/ exists t, body !! idx = Some t /\ isPipe t = true.

Definition pipelineInv (body : list Token) (st : nat * list Command) : Prop :=
  st.1 <= length body /\
  length st.2 = pipes (take st.1 body) /\
  (st.1 = 0 \/ exists t, body !! (st.1 - 1) = Some t /\ isPipe t = true) /\
  Forall commandOk st.2.

Definition pipelinePost (body : list Token) (r : nat * list Command) : Prop :=
  length body <= r.1 /\
  length r.2 = expectedCommands body /\ Forall commandOk r.2.

(** The [|] characters of a string. *)
Definition bars (s : list ascii) : nat := count_occ Ascii.ascii_dec s "|"%char.

Definition plainChar (c : ascii) : bool :=
  negb (Ascii.eqb c squote || Ascii.eqb c dquote || Ascii.eqb c backslash).

(** The input has no quote and no backslash. *)
Definition plainInput (input : list ascii) : bool := forallb plainChar input.

(** No [|] character at the indices from [a] to [b - 1]. *)
Definition noBarBetween (input : list ascii) (a b : nat) : Prop :=
  forall k c, a <= k < b -> input !! k = Some c -> Ascii.eqb c "|" = false.

(** * Vocabulary of the further properties *)

(** A name of the form [[A-Za-z_][A-Za-z0-9_]*]. *)
Definition validName (n : list ascii) : bool :=
  match n with
  | [] => false
  | c :: rest => isVarStart c && forallb isVarChar rest
  end.

Definition textNonEmpty (p : Part) : bool :=
  match p with
  | Text [] _ => false
  | _ => true
  end.

Definition unbracedNameOk (p : Part) : bool :=
  match p with
  | Var n false _ => validName n
  | _ => true
  end.

Definition partOk (p : Part) : Prop :=
  textNonEmpty p = true /\ unbracedNameOk p = true.

(** A token records the piece of the input it spans, and that piece is not
    empty. *)
Definition tokenSpanOk (input : list ascii) (t : Token) : Prop :=
  tstart t < tend t /\ tstart t < length input /\
  text t = slice input (tstart t) (tend t).

(** Tokens come in the order of the input and do not overlap. *)
Definition tokensOrdered (toks : list Token) : Prop :=
  forall a b ta tb,
    toks !! a = Some ta -> toks !! b = Some tb -> a < b -> tend ta <= tstart tb.

(** Every character before index [i] that is not whitespace is inside the
    span of a token. *)
Definition coveredUpTo (input : list ascii) (toks : list Token) (i : nat) : Prop :=
  forall k c, k < i -> input !! k = Some c -> isSpace c = false ->
    exists t, In t toks /\ tstart t <= k < tend t.

Definition lexSpanInv (input : list ascii) (st : nat * list Token) : Prop :=
  Forall (fun t => tokenSpanOk input t /\ tend t <= st.1) st.2 /\
  tokensOrdered st.2 /\ coveredUpTo input st.2 st.1.

(** A character the lexer takes as an ordinary character of a word wherever
    it stands: not whitespace, not [|], [<], [>] or [&], not a quote and not
    a backslash. *)
Definition lexChar (c : ascii) : bool :=
  negb (isSpace c || Ascii.eqb c "|" || Ascii.eqb c "<" || Ascii.eqb c ">"
        || Ascii.eqb c "&" || Ascii.eqb c squote || Ascii.eqb c dquote
        || Ascii.eqb c backslash).

(** A word of such characters. *)
Definition lexWord (w : list ascii) : bool :=
  match w with
  | [] => false
  | _ => forallb lexChar w
  end.

(** A word that needs no quoting: such characters, and no [$]. *)
Definition plainWord (w : list ascii) : bool :=
  lexWord w && forallb (fun c => negb (Ascii.eqb c dollar)) w.

(** Words and pipes written one after the other with one space between
    them, and the tokens this text has. *)
Inductive Item := IWord (w : list ascii) | IPipe.

Definition itemText (x : Item) : list ascii :=
  match x with
  | IWord w => w
  | IPipe => ["|"%char]
  end.

Definition itemOk (x : Item) : bool :=
  match x with
  | IWord w => lexWord w
  | IPipe => true
  end.

Fixpoint renderItems (items : list Item) : list ascii :=
  match items with
  | [] => []
  | x :: rest =>
      match rest with
      | [] => itemText x
      | _ => itemText x ++ " "%char :: renderItems rest
      end
  end.

Definition itemToken (i : nat) (x : Item) : Token :=
  match x with
  | IWord w => mkToken TokenKind.Word w i (i + length w) None
  | IPipe => mkToken TokenKind.Pipe ["|"%char] i (i + 1) None
  end.

Fixpoint itemTokens (i : nat) (items : list Item) : list Token :=
  match items with
  | [] => []
  | x :: rest => itemToken i x :: itemTokens (i + length (itemText x) + 1) rest
  end.

(** The text of a pipeline given as the argument vectors of its commands:
    the words of a command separated by a space, the commands by [ | ]. *)
Fixpoint pipelineItems (cmds : list (list (list ascii))) : list Item :=
  match cmds with
  | [] => []
  | c :: rest =>
      match rest with
      | [] => map IWord c
      | _ => map IWord c ++ IPipe :: pipelineItems rest
      end
  end.

Definition renderPipeline (cmds : list (list (list ascii))) : list ascii :=
  renderItems (pipelineItems cmds).

(** After a word comes the end of the input or a space. *)
Definition endsWord (tail : list ascii) : Prop :=
  tail = [] \/ exists tail', tail = " "%char :: tail'.

(** The word the parser makes of a Word token. *)
Definition madeFrom (w : Word) (t : Token) : Prop :=
  makeWord (text t) (tstart t) = Some w.

Definition isWordToken (t : Token) : Prop := kind t = TokenKind.Word.

(** Tokens that are runs of Word tokens separated by Pipe tokens and ended by
    an EOF token, with the runs; the last run is not empty. *)
Inductive Segments : list Token -> list (list Token) -> Prop :=
  | Segments_last (s : list Token) (e : Token) :
      Forall isWordToken s -> s <> [] -> kind e = TokenKind.EOF ->
      Segments (s ++ [e]) [s]
  | Segments_pipe (s : list Token) (p : Token) (l : list Token)
      (segs : list (list Token)) :
      Forall isWordToken s -> kind p = TokenKind.Pipe -> Segments l segs ->
      Segments (s ++ p :: l) (s :: segs).

(** A command made of the tokens of a run, with no redirection. *)
Definition commandOf (c : Command) (s : list Token) : Prop :=
  Forall2 madeFrom (words c) s /\ redirections c = [].

(** The last command of a pipeline has a word. *)
Definition lastNonEmpty (cmds : list (list (list ascii))) : bool :=
  match last cmds with
  | Some [] => false
  | _ => true
  end.

Definition tokenOfWord (t : Token) (w : list ascii) : Prop :=
  kind t = TokenKind.Word /\ text t = w.

(** A character that can begin a Word token in the main loop of the lexer. *)
Definition startsWord (c : ascii) : bool :=
  negb (isSpace c || Ascii.eqb c "|" || Ascii.eqb c "&" || isDigit c
        || Ascii.eqb c ">" || Ascii.eqb c "<").

(** Every character written after a backslash. *)
Definition escapeAll (s : list ascii) : list ascii :=
  flat_map (fun c => [backslash; c]) s.

(** What a list of parts expands to. *)
Definition expandParts {Other : Type} (toStr : Other -> list ascii)
    (ctx : Ctx Other) (ps : list Part) : list ascii :=
  fold_left (expandPart toStr ctx) ps [].

(** The character after a [$] makes it a variable reference. *)
Definition startsVar (o : option ascii) : bool :=
  charIs "{" o || at_ isVarStart o.

(** No double quote, backslash or [$]: the characters a double-quoted region
    takes as they are. *)
Definition dquotePlain (s : list ascii) : bool :=
  forallb (fun c => negb (Ascii.eqb c dquote || Ascii.eqb c backslash
                          || Ascii.eqb c dollar)) s.

(** A non-empty run of decimal digits. *)
Definition digitString (ds : list ascii) : bool :=
  match ds with
  | [] => false
  | _ => forallb isDigit ds
  end.

(** A word of zero length: the placeholder target of a redirection whose
    target is missing. *)
Definition isPlaceholder (w : Word) : bool :=
  Nat.eqb (start (wspan w)) (end_ (wspan w)).

(** The tokens a redirection, a command and a list of commands are made of:
    one for each word, one for each redirection operator and one more for
    each target that is not a placeholder. *)
Definition redirectionTokens (r : Redirection) : nat :=
  if isPlaceholder (target r) then 1 else 2.

Definition commandTokens (c : Command) : nat :=
  length (words c) + list_sum (map redirectionTokens (redirections c)).

Definition commandsTokens (cs : list Command) : nat :=
  list_sum (map commandTokens cs).

Definition commandCostInv (idx0 : nat) (st : nat * list Word * list Redirection)
    : Prop :=
  length st.1.2 + list_sum (map redirectionTokens st.2) + idx0 = st.1.1.

Definition pipelineCostInv (body : list Token) (st : nat * list Command) : Prop :=
  commandsTokens st.2 + pipes (take st.1 body) = st.1.

(** A character that a double-quoted region does not take as it is. *)
Definition dquoteSpecial (c : ascii) : bool :=
  Ascii.eqb c dquote || Ascii.eqb c backslash || Ascii.eqb c dollar.

(** A text between double quotes, with a backslash before each double quote,
    backslash and [$] of the text. *)
Definition dquoteEscape (c : ascii) : list ascii :=
  if dquoteSpecial c then [backslash; c] else [c].

Definition dquoteQuote (s : list ascii) : list ascii :=
  dquote :: flat_map dquoteEscape s ++ [dquote].

(** Characters that need no quoting (possibly none). *)
Definition plainChars (w : list ascii) : bool :=
  forallb (fun c => lexChar c && negb (Ascii.eqb c dollar)) w.

(** A text without [$]: [scanTextForVars] keeps it as one literal. *)
Definition noDollar (s : list ascii) : bool :=
  forallb (fun c => negb (Ascii.eqb c dollar)) s.

(** The redirection operators without a descriptor, as they are written and
    as [parseCommand] names them. *)
Definition redirOperators : list (list ascii * list ascii) :=
  [(js ">", js ">"); (js ">>", js ">>"); (js "<", js "<"); (js "&>", js "clobber")].

(** One span lies within another. *)
Definition within (inner outer : Span) : Prop :=
  start outer <= start inner /\ end_ inner <= end_ outer.

(** The spans of a command: its own span lies in the input, the spans of its
    words and of the targets of its redirections lie in its span, and a
    redirection starts in the command, at or before its target. *)
Definition commandSpansOk (N : nat) (c : Command) : Prop :=
  start (cspan c) <= end_ (cspan c) <= N /\
  Forall (fun w => within (wspan w) (cspan c)) (words c) /\
  Forall (fun r => start (cspan c) <= start (rspan r) <= start (wspan (target r)) /\
                   within (wspan (target r)) (cspan c)) (redirections c).

(** A command ends before the next one starts. *)
Definition commandsOrdered (cs : list Command) : Prop :=
  forall a b ca cb,
    cs !! a = Some ca -> cs !! b = Some cb -> a < b ->
    end_ (cspan ca) < start (cspan cb).

(** What the parser uses of the span of a token in an input of length [N]:
    the token starts in the input, its text is not longer than its span and
    ends in the input; a token that is not a Word ends in the input. *)
Definition tokenFits (N : nat) (t : Token) : Prop :=
  tstart t < tend t /\ tstart t < N /\
  tstart t + length (text t) <= tend t /\ tstart t + length (text t) <= N /\
  (kind t <> TokenKind.Word -> tend t <= N).

Definition operatorEndOk (N : nat) (t : Token) : Prop :=
  kind t <> TokenKind.Word -> tend t <= N.

(** The start of the token [peekTok] returns at [idx]; [N] is the start of
    the EOF token. *)
Definition startAt (body : list Token) (N idx : nat) : nat :=
  match body !! idx with
  | Some t => tstart t
  | None => N
  end.

Definition commandSpanInv (body : list Token) (N lo : nat)
    (st : nat * list Word * list Redirection) : Prop :=
  lo <= startAt body N st.1.1 /\
  Forall (fun w => lo <= start (wspan w) /\
                   end_ (wspan w) <= startAt body N st.1.1) st.1.2 /\
  Forall (fun r => lo <= start (rspan r) <= start (wspan (target r)) /\
                   end_ (wspan (target r)) <= startAt body N st.1.1) st.2.

Definition pipelineSpanInv (body : list Token) (N : nat) (st : nat * list Command)
    : Prop :=
  Forall (commandSpansOk N) st.2 /\ commandsOrdered st.2 /\
  Forall (fun c => end_ (cspan c) < startAt body N st.1) st.2.

(** The states the loop over a double-quoted region goes through from a
    given state. *)
Inductive dquoteReach (raw : list ascii) (base : nat)
    : nat * nat * list Part -> nat * nat * list Part -> Prop :=
  | dquoteReach_start (st : nat * nat * list Part) : dquoteReach raw base st st
  | dquoteReach_step (st st' st'' : nat * nat * list Part) :
      dquoteReach raw base st st' ->
      dquoteBody raw base st' = Some (inl st'') ->
      dquoteReach raw base st st''.

(** The pending segment of the loop has no double quote, backslash or [$]. *)
Definition segmentInv (raw : list ascii) (st : nat * nat * list Part) : Prop :=
  st.1.2 <= st.1.1 /\ (st.1.1 <= length raw \/ st.1.2 = st.1.1) /\
  dquotePlain (slice raw st.1.2 st.1.1) = true.

(** What a backslash and a character stand for inside double quotes: a
    newline for [n], a tab for [t], the character itself otherwise. *)
Definition escapeValue (c : ascii) : ascii :=
  if Ascii.eqb c "n" then "010"%char
  else if Ascii.eqb c "t" then "009"%char
  else c.

(** A double-quoted template: characters, written with a backslash when
    they are a double quote, a backslash or a [$]; escapes, a backslash and
    any character; and references [${n}]. *)
Inductive Piece := Lit (c : ascii) | Esc (c : ascii) | Ref (n : list ascii).

Definition renderPiece (p : Piece) : list ascii :=
  match p with
  | Lit c => dquoteEscape c
  | Esc c => [backslash; c]
  | Ref n => dollar :: "{"%char :: n ++ ["}"%char]
  end.

Definition template (pieces : list Piece) : list ascii :=
  dquote :: flat_map renderPiece pieces ++ [dquote].

(** A name that can stand between the braces inside double quotes: no [}],
    no double quote and no backslash. *)
Definition bracedName (n : list ascii) : bool :=
  forallb (fun c => notChar "}" c
                    && negb (Ascii.eqb c dquote || Ascii.eqb c backslash)) n.

Definition pieceOk (p : Piece) : bool :=
  match p with
  | Lit _ | Esc _ => true
  | Ref n => bracedName n
  end.

(** What a piece stands for in a context. *)
Definition pieceValue {Other : Type} (toStr : Other -> list ascii)
    (ctx : Ctx Other) (p : Piece) : list ascii :=
  match p with
  | Lit c => [c]
  | Esc c => [escapeValue c]
  | Ref n => valueText toStr (getProp ctx n)
  end.

(** The text of the operators that have a token kind of their own. *)
Definition kindText (k : TokenKind.t) : option (list ascii) :=
  match k with
  | TokenKind.Pipe => Some (js "|")
  | TokenKind.GT => Some (js ">")
  | TokenKind.GTGT => Some (js ">>")
  | TokenKind.LT => Some (js "<")
  | TokenKind.AMP_GT => Some (js "&>")
  | _ => None
  end.

(** A token before the last: it is not an EOF token, an operator token has
    the text of its operator, and the tokens with metadata are the FD_GT
    tokens. *)
Definition tokenTextOk (t : Token) : Prop :=
  kind t <> TokenKind.EOF /\
  (forall o, kindText (kind t) = Some o -> text t = o) /\
  (is_Some (meta t) <-> kind t = TokenKind.FD_GT).

(** * parse-flags: command-line flags

    A shallow embedding of [src/parse-flags.js].  The arguments are strings.
    The result object is a finite map from keys to values, a value being a
    boolean, a number or a string, or an array of these; a key is in the map
    exactly when it is an own property of the object.  [Number] is a
    parameter ([toNumber]): the parser stores the numbers and never computes
    with them.  The one name whose assignment makes no own property is
    [__proto__], whose setter ignores a value that is not an object;
    [assign] leaves the object as it is for that key. *)

(** [s.startsWith(prefix)] *)
Fixpoint startsWith (prefix s : list ascii) : bool :=
  match prefix, s with
  | [], _ => true
  | a :: prefix', b :: s' => Ascii.eqb b a && startsWith prefix' s'
  | _ :: _, [] => false
  end.

(** [s.indexOf(c)], with [None] for [-1]. *)
Fixpoint indexOf (c : ascii) (s : list ascii) : option nat :=
  match s with
  | [] => None
  | x :: s' => if Ascii.eqb x c then Some 0 else S <$> indexOf c s'
  end.

Section Flags.
Context {Num : Type}.
Variable toNumber : list ascii -> Num.

Inductive Scalar := Sbool (b : bool) | Snum (n : Num) | Sstr (s : list ascii).

Inductive FlagValue := Single (v : Scalar) | Array (vs : list Scalar).

Definition isFlag (s : list ascii) : bool := startsWith (js "-") s.

Definition assign (obj : gmap (list ascii) FlagValue) (key : list ascii)
    (value : Scalar) : gmap (list ascii) FlagValue :=
  match obj !! key with
  | Some (Array vs) => <[key := Array (vs ++ [value])]> obj
  | Some (Single v) => <[key := Array [v; value]]> obj
  | None =>
      if bool_decide (key = js "__proto__") then obj
      else <[key := Single value]> obj
  end.

(** The text after an optional [-]. *)
Definition unsigned (value : list ascii) : list ascii :=
  match value with
  | "-"%char :: rest => rest
  | _ => value
  end.

(** [/^-?\d+$/.test(value)] *)
Definition isInteger (value : list ascii) : bool := digitString (unsigned value).

(** [/^-?\d+\.\d+$/.test(value)] *)
Definition isDecimal (value : list ascii) : bool :=
  match indexOf "." (unsigned value) with
  | Some k =>
      digitString (take k (unsigned value))
      && digitString (drop (k + 1) (unsigned value))
  | None => false
  end.

Definition coerce (value : list ascii) : Scalar :=
  if bool_decide (value = js "true") then Sbool true
  else if bool_decide (value = js "false") then Sbool false
  else if isInteger value then Snum (toNumber value)
  else if isDecimal value then Snum (toNumber value)
  else Sstr value.

(** A flag that takes the next argument as its value when there is one and
    it is not a flag, and is [true] otherwise; the first component is the
    number of arguments used. *)
Definition assignNext (result : gmap (list ascii) FlagValue) (key : list ascii)
    (next : option (list ascii)) : nat * gmap (list ascii) FlagValue :=
  match next with
  | Some nx =>
      if negb (isFlag nx) then (2, assign result key (coerce nx))
      else (1, assign result key (Sbool true))
  | None => (1, assign result key (Sbool true))
  end.

(** One iteration of the loop of [parseFlags] on [token = argv[i]] and
    [next = argv[i + 1]]: the number of arguments used and the new result;
    [None] when [result.positional] has no [push]. *)
Definition flagsStep (token : list ascii) (next : option (list ascii))
    (result : gmap (list ascii) FlagValue)
    : option (nat * gmap (list ascii) FlagValue) :=
  if startsWith (js "--") token then
    match indexOf "=" token with
    | Some eq =>
        Some (1, assign result (slice token 2 eq) (coerce (drop (eq + 1) token)))
    | None => Some (assignNext result (drop 2 token) next)
    end
  else if startsWith (js "-") token && (1 <? length token) then
    let shorts := map (fun c => [c]) (drop 1 token) in
    match shorts with
    | [key] => Some (assignNext result key next)
    | _ => Some (1, fold_left (fun r k => assign r k (Sbool true)) shorts result)
    end
  else
    match result !! js "positional" with
    | Some (Array vs) =>
        Some (1, <[js "positional" := Array (vs ++ [coerce token])]> result)
    | _ => None
    end.

Definition flagsBody (argv : list (list ascii))
    (st : nat * gmap (list ascii) FlagValue)
    : option (nat * gmap (list ascii) FlagValue + gmap (list ascii) FlagValue) :=
  let '(i, result) := st in
  match argv !! i with
  | None => Some (inr result)
  | Some token =>
      match flagsStep token (argv !! (i + 1)) result with
      | None => None
      | Some (n, result) => Some (inl (i + n, result))
      end
  end.

Definition parseFlags (argv : list (list ascii))
    : option (gmap (list ascii) FlagValue) :=
  while (flagsBody argv) (S (length argv)) (0, {[ js "positional" := Array [] ]}).

(** The loop of [parseFlags] as a recursion on the arguments that remain. *)
Fixpoint flagsFrom (argv : list (list ascii)) (result : gmap (list ascii) FlagValue)
    : option (gmap (list ascii) FlagValue) :=
  match argv with
  | [] => Some result
  | token :: rest =>
      match flagsStep token (head rest) result with
      | None => None
      | Some (n, result') =>
          if n =? 2 then
            match rest with
            | _ :: rest' => flagsFrom rest' result'
            | [] => Some result'
            end
          else flagsFrom rest result'
      end
  end.

(** [result.positional] is an array. *)
Definition hasPositional (result : gmap (list ascii) FlagValue) : Prop :=
  exists vs, result !! js "positional" = Some (Array vs).

(** [--key=value] and [-c]. *)
Definition longFlag (key value : list ascii) : list ascii :=
  js "--" ++ key ++ "="%char :: value.

Definition shortFlag (c : ascii) : list ascii := ["-"%char; c].

(** An argument that goes to [positional]: one that does not start with
    [-], or the argument [-] itself. *)
Definition isPositional (t : list ascii) : bool :=
  negb (isFlag t) || (length t =? 1).

(** The first of the arguments is a flag. *)
Definition startsWithFlag (l : list (list ascii)) : Prop :=
  exists a, head l = Some a /\ isFlag a = true.
End Flags.

Arguments Scalar : clear implicits.
Arguments FlagValue : clear implicits.

(** What [parseCommand] records of a redirection operator token: the
    operator's name, its descriptor and the descriptor it duplicates. *)
Definition recordedOperator (t : Token) : option (list ascii * OptNum * OptNum) :=
  match kind t with
  | TokenKind.AMP_GT => Some (js "clobber", undefined, undefined)
  | TokenKind.GT => Some (js ">", undefined, undefined)
  | TokenKind.GTGT => Some (js ">>", undefined, undefined)
  | TokenKind.LT => Some (js "<", undefined, undefined)
  | TokenKind.FD_GT =>
      match meta t with
      | Some (MetaDup f d) => Some (js "dup", num f, ofDupTarget d)
      | Some (MetaAppend f a) =>
          Some (if a then js ">>" else js ">", num f, undefined)
      | None => None
      end
  | _ => None
  end.

(** The redirection of an operator token whose target is missing: the
    operator is recorded as for any redirection, the target is a Word with
    no part and of zero length at the end of the operator, and the span is
    the operator's. *)
Definition placeholderFor (t : Token) (r : Redirection) : Prop :=
  recordedOperator t = Some (op r, fd r, dupTargetFd r) /\
  target r = mkWord [] (makeSpan (tend t) (tend t)) /\
  rspan r = makeSpan (tstart t) (tend t).

(** The token after index [k] is not a Word. *)
Definition missingTarget (toks : list Token) (k : nat) : Prop :=
  forall next, toks !! (k + 1) = Some next -> kind next <> TokenKind.Word.

(** The operators with a missing target among the tokens from [lo] to
    [hi - 1] are recorded in [rs]. *)
Definition placeholdersIn (body : list Token) (lo hi : nat)
    (rs : list Redirection) : Prop :=
  forall k t, lo <= k < hi -> body !! k = Some t ->
    isRedirectionKind (kind t) = true -> missingTarget body k ->
    exists r, In r rs /\ placeholderFor t r.

Definition placeholdersInCommands (body : list Token) (hi : nat)
    (cmds : list Command) : Prop :=
  forall k t, k < hi -> body !! k = Some t ->
    isRedirectionKind (kind t) = true -> missingTarget body k ->
    exists c r, In c cmds /\ In r (redirections c) /\ placeholderFor t r.

(** * Properties *)

(** ** Loops: total correctness from an invariant and a measure *)

Section WhileTotal.
Context {St Res : Type}.
Variable body : St -> option (St + Res).
Variable Inv : St -> Prop.
Variable Post : Res -> Prop.
Variable measure : St -> nat.

Hypothesis body_ok : forall s, Inv s ->
  match body s with
  | None => False
  | Some (inl s') => Inv s' /\ measure s' < measure s
  | Some (inr r) => Post r
  end.

Lemma while_total : forall fuel s,
  Inv s -> measure s < fuel -> exists r, while body fuel s = Some r /\ Post r.
Proof.
  induction fuel as [|fuel IH]; intros s Hs Hm; [lia|].
  simpl. pose proof (body_ok s Hs) as Hb.
  destruct (body s) as [[s'|r]|]; [|eauto|contradiction].
  destruct Hb as [Hs' Hlt]. apply IH; [assumption|lia].
Qed.
End WhileTotal.

(** ** The lexer always returns *)

Lemma wordBody_ok (input : list ascii) (i0 i : nat) :
  i0 <= i ->
  match wordBody input i with
  | None => False
  | Some (inl i') => i0 <= i' /\ length input - i' < length input - i
  | Some (inr w) => i0 <= w
  end.
Proof.
  intros Hi. unfold wordBody.
  destruct (input !! i) as [c|] eqn:Hc; [|assumption].
  apply lookup_lt_Some in Hc.
  repeat (match goal with |- context [if ?b then _ else _] => destruct b end;
          try assumption; try (split; lia)).
Qed.

Lemma wordLoop_total (input : list ascii) (fuel i0 : nat) :
  length input - i0 < fuel ->
  exists w, while (wordBody input) fuel i0 = Some w /\ i0 <= w.
Proof.
  intros Hf.
  apply (while_total (wordBody input) (fun i => i0 <= i) (fun w => i0 <= w)
           (fun i => length input - i)); [|lia|assumption].
  intros s Hs. apply wordBody_ok, Hs.
Qed.

(** When the first iteration does not leave the loop, the word is not empty. *)
Lemma scanWord_progress (input : list ascii) (i i1 : nat) :
  wordBody input i = Some (inl i1) ->
  exists w, scanWord input i = Some w /\ i < w.
Proof.
  intros Hb. pose proof (wordBody_ok input i i (le_n i)) as Hok.
  rewrite Hb in Hok. destruct Hok as [Hle Hlt].
  unfold scanWord. simpl. rewrite Hb.
  destruct (wordLoop_total input (length input) i1) as (w & Hw & Hiw); [lia|].
  exists w. split; [assumption|lia].
Qed.

Lemma lexFd_ok (input : list ascii) (tokens : list Token) (i i' : nat)
    (tokens' : list Token) :
  lexFd input tokens i = Some (i', tokens') ->
  i < i' /\ exists t, tokens' = tokens ++ [t] /\ tokenOk t.
Proof.
  unfold lexFd, pushToken.
  repeat (match goal with |- context [if ?b then _ else _] => destruct b end);
    intros H; inversion H; subst; clear H;
    (split; [lia|]); eexists; (split; [reflexivity|]);
    (split; [discriminate|intros _; eexists; reflexivity]).
Qed.

Lemma lexInv_push (input : list ascii) (tokens : list Token) (t : Token) (i : nat) :
  Forall tokenOk tokens -> tokenOk t -> lexInv input (i, tokens ++ [t]).
Proof.
  intros Hall Ht. split; simpl.
  - apply Forall_app. split; [assumption|]. constructor; [assumption|constructor].
  - intros Hnil. destruct tokens; discriminate.
Qed.

Lemma plain_tokenOk (k : TokenKind.t) (s : list ascii) (a b : nat) :
  k <> TokenKind.EOF -> k <> TokenKind.FD_GT -> tokenOk (mkToken k s a b None).
Proof. intros H1 H2. split; simpl; [assumption|contradiction]. Qed.

Lemma lexBody_ok (input : list ascii) (st : nat * list Token) :
  lexInv input st ->
  match lexBody input st with
  | None => False
  | Some (inl st') => lexInv input st' /\ length input - st'.1 < length input - st.1
  | Some (inr tokens) => lexPost input tokens
  end.
Proof.
  destruct st as [i tokens]. intros [Hall Hsp]. simpl in Hall, Hsp.
  unfold lexBody.
  destruct (input !! i) as [ch|] eqn:Hch.
  2:{ split; [assumption|]. intros Hnil.
      apply lookup_ge_None in Hch. rewrite take_ge in Hsp by lia. auto. }
  pose proof (lookup_lt_Some _ _ _ Hch) as Hlt.
  destruct (isSpace ch) eqn:Hspace.
  { split; [split; simpl; [assumption|]|simpl; lia].
    intros Hnil. replace (i + 1) with (S i) by lia.
    rewrite (take_S_r _ _ _ Hch), forallb_app, Hsp by assumption.
    simpl. rewrite Hspace. reflexivity. }
  destruct (Ascii.eqb ch "|") eqn:Hpipe.
  { split; [|simpl; lia]. apply lexInv_push; [assumption|].
    apply plain_tokenOk; discriminate. }
  destruct (Ascii.eqb ch "&" && charIs ">" (input !! (i + 1))) eqn:Hamp.
  { split; [|simpl; lia]. apply lexInv_push; [assumption|].
    apply plain_tokenOk; discriminate. }
  destruct (if isDigit ch then lexFd input tokens i else None)
    as [[i' tokens']|] eqn:Hfd.
  { destruct (isDigit ch); [|discriminate].
    apply lexFd_ok in Hfd. destruct Hfd as (Hi & t & -> & Ht).
    split; [|simpl; lia]. apply lexInv_push; assumption. }
  destruct (Ascii.eqb ch ">") eqn:Hgt.
  { destruct (charIs ">" (input !! (i + 1)));
      (split; [|simpl; lia]); (apply lexInv_push; [assumption|]);
      apply plain_tokenOk; discriminate. }
  destruct (Ascii.eqb ch "<") eqn:Hlt'.
  { split; [|simpl; lia]. apply lexInv_push; [assumption|].
    apply plain_tokenOk; discriminate. }
  assert (exists i1, wordBody input i = Some (inl i1)) as [i1 Hi1].
  { unfold wordBody. rewrite Hch, Hspace.
    rewrite Hpipe, Hlt', Hgt, Hamp. simpl.
    repeat (match goal with |- context [if ?b then _ else _] => destruct b end);
      eexists; reflexivity. }
  destruct (scanWord_progress input i i1 Hi1) as (w & -> & Hw).
  split; [|simpl; lia]. apply lexInv_push; [assumption|].
  apply plain_tokenOk; discriminate.
Qed.

Lemma lex_shape (input : list ascii) :
  exists toks,
    lex input = Some (toks ++ [eofToken input]) /\
    Forall tokenOk toks /\
    (toks = [] -> forallb isSpace input = true).
Proof.
  destruct (while_total (lexBody input) (lexInv input) (lexPost input)
              (fun st => length input - st.1) (lexBody_ok input)
              (S (length input)) (0, []))
    as (toks & Hw & Hall & Hsp).
  - split; [constructor|reflexivity].
  - simpl. lia.
  - exists toks. unfold lex. rewrite Hw. unfold pushToken, slice, eofToken.
    rewrite Nat.sub_diag, take_0. auto.
Qed.

Lemma lex_blank (input : list ascii) :
  forallb isSpace input = true -> lex input = Some [eofToken input].
Proof.
  intros Hsp.
  destruct (while_total (lexBody input) (fun st => st.2 = [])
              (fun toks => toks = []) (fun st => length input - st.1))
    with (fuel := S (length input)) (s := (0, @nil Token)) as (toks & Hw & ->).
  - intros [i tokens] Hnil. simpl in Hnil. subst tokens. unfold lexBody.
    destruct (input !! i) as [ch|] eqn:Hch; [|reflexivity].
    rewrite forallb_forall in Hsp.
    rewrite (Hsp ch) by (apply list_elem_of_In; eapply list_elem_of_lookup_2, Hch).
    apply lookup_lt_Some in Hch. simpl. split; [reflexivity|lia].
  - reflexivity.
  - simpl. lia.
  - unfold lex. rewrite Hw. unfold pushToken, slice, eofToken.
    rewrite Nat.sub_diag, take_0. reflexivity.
Qed.

(** ** The word splitter always returns *)

Lemma pushText_snoc (base : nat) (parts : list Part) (s : list ascii) (a b : nat) :
  pushText base parts s a b = parts \/
  exists sp, pushText base parts s a b = parts ++ [Text s sp].
Proof. destruct s; simpl; eauto. Qed.

Lemma parseVar_progress (base : nat) (s : list ascii) (off : nat)
    (parts : list Part) (i : nat) :
  i < (parseVar base s off parts i).1.
Proof.
  unfold parseVar.
  repeat (match goal with |- context [if ?b then _ else _] => destruct b end);
    simpl; lia.
Qed.

Lemma scanTextForVars_total (base : nat) (parts : list Part) (text : list ascii)
    (offset : nat) :
  is_Some (scanTextForVars base parts text offset).
Proof.
  unfold scanTextForVars.
  destruct (while_total (scanVarsBody base text offset) (fun _ => True)
              (fun _ => True) (fun st => length text - st.1.1))
    with (fuel := S (length text)) (s := (0, 0, parts)) as ([acc ps] & -> & _).
  - intros [[p accStart] ps] _. unfold scanVarsBody.
    destruct (text !! p) as [c|] eqn:Hc; [|exact I].
    apply lookup_lt_Some in Hc.
    destruct (Ascii.eqb c dollar); [|simpl; split; [exact I|lia]].
    match goal with |- context [parseVar ?b ?s ?o ?q ?i] =>
      pose proof (parseVar_progress b s o q i) as Hp;
      destruct (parseVar b s o q i) as [p' ps'] end.
    simpl in *. split; [exact I|lia].
  - exact I.
  - simpl. lia.
  - eexists. reflexivity.
Qed.

Lemma flushSegment_total (raw : list ascii) (base : nat) (parts : list Part)
    (segmentStart i : nat) :
  is_Some (flushSegment raw base parts segmentStart i).
Proof.
  unfold flushSegment. destruct (segmentStart <? i).
  - apply scanTextForVars_total.
  - eexists. reflexivity.
Qed.

Lemma dquoteBody_ok (raw : list ascii) (base i0 : nat) (st : nat * nat * list Part) :
  i0 <= st.1.1 ->
  match dquoteBody raw base st with
  | None => False
  | Some (inl st') => i0 <= st'.1.1 /\ length raw - st'.1.1 < length raw - st.1.1
  | Some (inr r) => i0 <= r.1
  end.
Proof.
  destruct st as [[i seg] ps]. simpl. intros Hi. unfold dquoteBody.
  destruct (raw !! i) as [c|] eqn:Hc; [|assumption].
  apply lookup_lt_Some in Hc.
  destruct (Ascii.eqb c backslash); [simpl; lia|].
  destruct (Ascii.eqb c dquote).
  { destruct (flushSegment_total raw base ps seg i) as [ps' ->]. simpl. lia. }
  destruct (Ascii.eqb c dollar); [|simpl; lia].
  destruct (flushSegment_total raw base ps seg i) as [ps' ->].
  match goal with |- context [parseVar ?b ?s ?o ?q ?i] =>
    pose proof (parseVar_progress b s o q i) as Hp;
    destruct (parseVar b s o q i) as [p' ps''] end.
  simpl in *. lia.
Qed.

Lemma dquoteLoop_total (raw : list ascii) (base : nat) (i : nat) (parts : list Part) :
  exists r, while (dquoteBody raw base) (S (length raw)) (i, i, parts) = Some r
            /\ i <= r.1.
Proof.
  apply (while_total (dquoteBody raw base) (fun st => i <= st.1.1)
           (fun r => i <= r.1) (fun st => length raw - st.1.1)).
  - intros st Hst. apply dquoteBody_ok, Hst.
  - reflexivity.
  - simpl. lia.
Qed.

Lemma scanWhile_head (p : ascii -> bool) (s : list ascii) (i : nat) (c : ascii) :
  s !! i = Some c -> p c = true -> 0 < scanWhile p (drop i s).
Proof.
  intros Hc Hp. rewrite (drop_S _ _ _ Hc). simpl. rewrite Hp. lia.
Qed.

Lemma splitBody_ok (raw : list ascii) (base : nat) (st : nat * list Part) :
  match splitBody raw base st with
  | None => False
  | Some (inl st') => length raw - st'.1 < length raw - st.1
  | Some (inr _) => True
  end.
Proof.
  destruct st as [i ps]. unfold splitBody.
  destruct (raw !! i) as [ch|] eqn:Hch; [|exact I].
  pose proof (lookup_lt_Some _ _ _ Hch) as Hlt.
  destruct (Ascii.eqb ch squote) eqn:Hsq.
  { destruct (charIs squote _); simpl; lia. }
  destruct (Ascii.eqb ch dquote) eqn:Hdq.
  { destruct (dquoteLoop_total raw base (i + 1) ps) as ([i' ps'] & -> & Hi').
    simpl in *. lia. }
  destruct (Ascii.eqb ch backslash) eqn:Hbs.
  { destruct (raw !! (i + 1)); simpl; lia. }
  destruct (Ascii.eqb ch dollar) eqn:Hdl.
  { pose proof (parseVar_progress base raw 0 ps i). cbn -[parseVar]. lia. }
  assert (0 < scanWhile (fun c => negb (isSpecial c)) (drop i raw)).
  { eapply scanWhile_head; [exact Hch|]. unfold isSpecial.
    rewrite Hsq, Hdq, Hbs, Hdl. reflexivity. }
  simpl. lia.
Qed.

Lemma splitWordIntoParts_total (raw : list ascii) (base : nat) :
  exists parts,
    while (splitBody raw base) (S (length raw)) (0, []) = Some parts /\
    splitWordIntoParts raw base = Some (mergeParts parts).
Proof.
  destruct (while_total (splitBody raw base) (fun _ => True) (fun _ => True)
              (fun st => length raw - st.1))
    with (fuel := S (length raw)) (s := (0, @nil Part)) as (ps & Hw & _).
  - intros st _. pose proof (splitBody_ok raw base st) as H.
    destruct (splitBody raw base st) as [[st'|r]|]; auto.
  - exact I.
  - simpl. lia.
  - exists ps. split; [assumption|]. unfold splitWordIntoParts. rewrite Hw.
    reflexivity.
Qed.

Lemma makeWord_total (rawText : list ascii) (startOffset : nat) :
  exists parts,
    splitWordIntoParts rawText startOffset = Some parts /\
    makeWord rawText startOffset =
      Some (mkWord parts (makeSpan startOffset (startOffset + length rawText))).
Proof.
  destruct (splitWordIntoParts_total rawText startOffset) as (ps & _ & Hs).
  exists (mergeParts ps). unfold makeWord. rewrite Hs. auto.
Qed.

(** ** The merge pass leaves no two adjacent Text parts *)

Lemma noAdjacentText_snoc (l : list Part) (x : Part) :
  noAdjacentText (l ++ [x]) = noAdjacentText l && mayFollow (last l) x.
Proof.
  induction l as [|a l IH]; [reflexivity|].
  destruct l as [|b l].
  - simpl. destruct (isText a && isText x); reflexivity.
  - change (noAdjacentText ((a :: b :: l) ++ [x]))
      with (negb (isText a && isText b) && noAdjacentText ((b :: l) ++ [x])).
    rewrite IH.
    change (noAdjacentText (a :: b :: l))
      with (negb (isText a && isText b) && noAdjacentText (b :: l)).
    change (last (a :: b :: l)) with (last (b :: l)).
    rewrite andb_assoc. reflexivity.
Qed.

Lemma mergeStep_noAdjacentText (merged : list Part) (part : Part) :
  noAdjacentText merged = true -> noAdjacentText (mergeStep merged part) = true.
Proof.
  intros Hm. unfold mergeStep.
  destruct (last merged) as [q|] eqn:Hlast.
  - apply last_Some in Hlast. destruct Hlast as [l' ->].
    rewrite noAdjacentText_snoc in Hm. apply andb_prop in Hm as [Hl' Hq].
    destruct q as [v sp|n b sp], part as [v' sp'|n' b' sp'];
      try (rewrite noAdjacentText_snoc, last_snoc, noAdjacentText_snoc, Hl', Hq;
           reflexivity).
    rewrite removelast_last, noAdjacentText_snoc, Hl'. exact Hq.
  - rewrite noAdjacentText_snoc, Hm, Hlast. reflexivity.
Qed.

Lemma mergeParts_noAdjacentText (parts : list Part) :
  noAdjacentText (mergeParts parts) = true.
Proof.
  unfold mergeParts.
  assert (forall acc, noAdjacentText acc = true ->
                      noAdjacentText (fold_left mergeStep parts acc) = true) as H.
  { induction parts as [|p parts IH]; intros acc Hacc; [assumption|].
    simpl. apply IH, mergeStep_noAdjacentText, Hacc. }
  apply H. reflexivity.
Qed.

Lemma makeWord_ok (rawText : list ascii) (startOffset : nat) :
  exists w, makeWord rawText startOffset = Some w /\ wordOk w.
Proof.
  destruct (splitWordIntoParts_total rawText startOffset) as (ps & _ & Hs).
  unfold makeWord. rewrite Hs. eexists. split; [reflexivity|].
  apply mergeParts_noAdjacentText.
Qed.

(** ** The parser on a token stream that ends with its only EOF token *)

Lemma pipes_app (l1 l2 : list Token) : pipes (l1 ++ l2) = pipes l1 + pipes l2.
Proof. unfold pipes. rewrite filter_app, length_app. reflexivity. Qed.

Lemma pipes_none (l : list Token) :
  (forall k t, l !! k = Some t -> isPipe t = false) -> pipes l = 0.
Proof.
  induction l as [|a l IH]; intros H; [reflexivity|].
  unfold pipes. rewrite filter_cons.
  pose proof (H 0 a eq_refl) as Ha.
  destruct (decide (isPipe a = true)) as [Hp|Hp]; [congruence|].
  apply IH. intros k t Hk. apply (H (S k)). exact Hk.
Qed.

Section ParserProps.
Variables (body : list Token) (e : Token).
Hypothesis He : kind e = TokenKind.EOF.
Hypothesis Hbody : Forall tokenOk body.

Let tokens := body ++ [e].

Lemma peekTok_body (idx : nat) (t : Token) :
  body !! idx = Some t -> peekTok tokens idx 0 = Some t /\ tokenOk t.
Proof.
  intros Ht. unfold peekTok, tokens. rewrite Nat.add_0_r.
  rewrite lookup_app_l by (eapply lookup_lt_Some, Ht). rewrite Ht.
  split; [reflexivity|]. eapply Forall_lookup_1; eassumption.
Qed.

Lemma peekTok_end (idx : nat) :
  length body <= idx -> peekTok tokens idx 0 = Some e.
Proof.
  intros Hle. unfold peekTok, tokens. rewrite Nat.add_0_r.
  destruct ((body ++ [e]) !! idx) as [t|] eqn:Ht.
  - pose proof (lookup_lt_Some _ _ _ Ht) as Hlt.
    rewrite length_app in Hlt. simpl in Hlt.
    assert (idx = length body + 0) as -> by lia.
    rewrite lookup_app_r, Nat.add_comm, Nat.add_sub in Ht by lia.
    simpl in Ht. congruence.
  - apply last_snoc.
Qed.

Lemma peekTok_cases (idx : nat) :
  (exists t, body !! idx = Some t /\ idx < length body /\
             peekTok tokens idx 0 = Some t /\ tokenOk t) \/
  (length body <= idx /\ peekTok tokens idx 0 = Some e).
Proof.
  destruct (body !! idx) as [t|] eqn:Ht.
  - left. exists t. pose proof (lookup_lt_Some _ _ _ Ht).
    destruct (peekTok_body idx t Ht). auto.
  - right. apply lookup_ge_None in Ht. split; [assumption|].
    apply peekTok_end, Ht.
Qed.

Lemma pipes_take_noPipe (a b : nat) :
  a <= b -> noPipeBetween body a b -> pipes (take b body) = pipes (take a body).
Proof.
  intros Hab Hno.
  replace b with (a + (b - a)) by lia.
  rewrite <- take_take_drop, pipes_app.
  rewrite (pipes_none (take (b - a) (drop a body))); [lia|].
  intros k t Hk. apply lookup_take_Some in Hk as [Hk Hlt].
  rewrite lookup_drop in Hk. apply (Hno (a + k)); [lia|exact Hk].
Qed.

Lemma pipes_take_pipe (idx : nat) (t : Token) :
  body !! idx = Some t -> isPipe t = true ->
  pipes (take (idx + 1) body) = S (pipes (take idx body)).
Proof.
  intros Ht Hp. replace (idx + 1) with (S idx) by lia.
  rewrite (take_S_r _ _ _ Ht), pipes_app. unfold pipes at 2.
  rewrite filter_cons. destruct (decide (isPipe t = true)); [|contradiction].
  simpl. lia.
Qed.

Lemma noPipeBetween_step (idx0 idx : nat) (t : Token) :
  noPipeBetween body idx0 idx -> body !! idx = Some t -> isPipe t = false ->
  noPipeBetween body idx0 (idx + 1).
Proof.
  intros Hno Ht Hp k t' Hk Hk'.
  destruct (decide (k = idx)) as [->|Hne]; [congruence|].
  apply (Hno k t'); [lia|assumption].
Qed.

Lemma parseRedirection_ok (idx0 idx : nat) (ws : list Word)
    (redirs : list Redirection) (t : Token) (o : list ascii) (f : OptNum)
    (dup : bool) (dupTarget : option JsNumber) :
  commandInv body idx0 (idx, ws, redirs) ->
  body !! idx = Some t -> isPipe t = false -> kind t <> TokenKind.EOF ->
  match inl <$> parseRedirection tokens (idx + 1) ws redirs t o f dup dupTarget
        : option (_ + nat * list Word * list Redirection) with
  | None => False
  | Some (inl st') =>
      commandInv body idx0 st' /\ length tokens - st'.1.1 < length tokens - idx
  | Some (inr r) => commandInv body idx0 r /\ atCommandEnd body r.1.1
  end.
Proof.
  intros (Hidx & Hno & Hws & Hrs) Ht Hp Hk. simpl in Hidx, Hno, Hws, Hrs.
  pose proof (lookup_lt_Some _ _ _ Ht) as Hlt.
  assert (length tokens = S (length body)) as Hlen.
  { unfold tokens. rewrite length_app. simpl. lia. }
  pose proof (noPipeBetween_step idx0 idx t Hno Ht Hp) as Hno1.
  unfold parseRedirection.
  destruct (peekTok_cases (idx + 1))
    as [(next & Hnext & Hnlt & -> & Hnok)|(Hge & ->)].
  - destruct (TokenKind.eqb (kind next) TokenKind.Word) eqn:Hw; cbn [negb].
    + destruct (makeWord_ok (text next) (tstart next)) as (w & -> & Hwok).
      simpl. split; [|lia]. repeat split; simpl; try lia; try assumption.
      * replace (idx + 1 + 1) with ((idx + 1) + 1) by lia.
        apply (noPipeBetween_step idx0 (idx + 1) next Hno1 Hnext).
        unfold isPipe. destruct (kind next); try discriminate; reflexivity.
      * apply Forall_app. split; [assumption|].
        constructor; [exact Hwok|constructor].
    + destruct (makeWord_ok [] (tend t)) as (w & -> & Hwok).
      simpl. split; [|lia]. repeat split; simpl; try lia; try assumption.
      apply Forall_app. split; [assumption|].
      constructor; [exact Hwok|constructor].
  - rewrite He. cbn [TokenKind.eqb negb].
    destruct (makeWord_ok [] (tend t)) as (w & -> & Hwok).
    simpl. split; [|lia]. repeat split; simpl; try lia; try assumption.
    apply Forall_app. split; [assumption|].
    constructor; [exact Hwok|constructor].
Qed.

Lemma parseCommandBody_ok (idx0 : nat) (st : nat * list Word * list Redirection) :
  commandInv body idx0 st ->
  match parseCommandBody tokens st with
  | None => False
  | Some (inl st') =>
      commandInv body idx0 st' /\ length tokens - st'.1.1 < length tokens - st.1.1
  | Some (inr r) => commandInv body idx0 r /\ atCommandEnd body r.1.1
  end.
Proof.
  destruct st as [[idx ws] redirs]. intros Hinv.
  pose proof Hinv as (Hidx & Hno & Hws & Hrs). simpl in Hidx, Hno, Hws, Hrs.
  assert (length tokens = S (length body)) as Hlen.
  { unfold tokens. rewrite length_app. simpl. lia. }
  unfold parseCommandBody.
  destruct (peekTok_cases idx) as [(t & Ht & Hlt & -> & Hne & Hmeta)|(Hge & ->)].
  2:{ rewrite He. split; [assumption|]. left. simpl. lia. }
  destruct (kind t) eqn:Hk; try contradiction.
  - destruct (makeWord_ok (text t) (tstart t)) as (w & -> & Hwok).
    simpl. split; [|lia]. repeat split; simpl; try lia; try assumption.
    + apply (noPipeBetween_step idx0 idx t Hno Ht). unfold isPipe.
      rewrite Hk. reflexivity.
    + apply Forall_app. split; [assumption|].
      constructor; [exact Hwok|constructor].
  - split; [assumption|]. right. exists t. split; [exact Ht|].
    unfold isPipe. rewrite Hk. reflexivity.
  - apply parseRedirection_ok; try assumption; unfold isPipe; rewrite Hk;
      [reflexivity|discriminate].
  - apply parseRedirection_ok; try assumption; unfold isPipe; rewrite Hk;
      [reflexivity|discriminate].
  - apply parseRedirection_ok; try assumption; unfold isPipe; rewrite Hk;
      [reflexivity|discriminate].
  - apply parseRedirection_ok; try assumption; unfold isPipe; rewrite Hk;
      [reflexivity|discriminate].
  - destruct (Hmeta eq_refl) as [m ->].
    destruct m; apply parseRedirection_ok; try assumption; unfold isPipe;
      rewrite Hk; solve [reflexivity|discriminate].
Qed.

Lemma parseCommand_ok (idx : nat) :
  idx <= length body ->
  exists cmd idx',
    parseCommand tokens idx = Some (cmd, idx') /\
    idx <= idx' <= length body /\ noPipeBetween body idx idx' /\
    atCommandEnd body idx' /\ commandOk cmd.
Proof.
  intros Hidx. unfold parseCommand.
  assert (exists tk0, peekTok tokens idx 0 = Some tk0) as [tk0 ->].
  { destruct (peekTok_cases idx) as [(t & _ & _ & -> & _)|(_ & ->)]; eauto. }
  assert (length tokens = S (length body)) as Hlen.
  { unfold tokens. rewrite length_app. simpl. lia. }
  destruct (while_total (parseCommandBody tokens) (commandInv body idx)
              (fun r => commandInv body idx r /\ atCommandEnd body r.1.1)
              (fun st => length tokens - st.1.1) (parseCommandBody_ok idx)
              (S (length tokens)) (idx, [], []))
    as ([[idx' ws] redirs] & -> & (Hb & Hno & Hws & Hrs) & Hend).
  - repeat split; simpl; try lia; try constructor. intros k t Hk. lia.
  - simpl. lia.
  - simpl in *.
    assert (exists tk1, peekTok tokens idx' 0 = Some tk1) as [tk1 ->].
    { destruct (peekTok_cases idx') as [(t & _ & _ & -> & _)|(_ & ->)]; eauto. }
    do 2 eexists. split; [reflexivity|]. repeat split; simpl; auto; lia.
Qed.

Lemma parseBody_ok (st : nat * list Command) :
  pipelineInv body st ->
  match parseBody tokens st with
  | None => False
  | Some (inl st') =>
      pipelineInv body st' /\ length tokens - st'.1 < length tokens - st.1
  | Some (inr r) => pipelinePost body r
  end.
Proof.
  destruct st as [idx cmds]. intros (Hidx & Hlen & Hprev & Hcmds).
  simpl in Hidx, Hlen, Hprev, Hcmds.
  assert (length tokens = S (length body)) as Htl.
  { unfold tokens. rewrite length_app. simpl. lia. }
  unfold parseBody.
  destruct (peekTok_cases idx) as [(t & Ht & Hlt & -> & Hne & _)|(Hge & ->)].
  - replace (TokenKind.eqb (kind t) TokenKind.EOF) with false
      by (destruct (kind t); try reflexivity; contradiction).
    destruct (parseCommand_ok idx Hidx)
      as (cmd & idx' & -> & Hb & Hno & Hend & Hcmd).
    pose proof (pipes_take_noPipe idx idx' (proj1 Hb) Hno) as Hpipes.
    destruct (peekTok_cases idx')
      as [(t' & Ht' & Hlt' & -> & _)|(Hge' & ->)].
    + fold (isPipe t').
      destruct (isPipe t') eqn:Hp.
      * split; [|simpl; lia]. repeat split; simpl.
        -- lia.
        -- rewrite length_app, (pipes_take_pipe idx' t' Ht' Hp). simpl. lia.
        -- right. exists t'. rewrite Nat.add_sub. auto.
        -- apply Forall_app. split; [assumption|].
           constructor; [exact Hcmd|constructor].
      * destruct Hend as [Hend|(t'' & Ht'' & Hp'')]; [lia|congruence].
    + rewrite He. cbn [TokenKind.eqb].
      assert (idx' = length body) as -> by lia.
      repeat split; simpl.
      * lia.
      * rewrite length_app. simpl. rewrite Hlen, <- Hpipes, take_ge by lia.
        unfold expectedCommands. rewrite last_lookup.
        destruct (body !! pred (length body)) as [tl|] eqn:Htl'.
        2:{ apply lookup_ge_None in Htl'. lia. }
        rewrite (Hno (pred (length body)) tl) by (lia || assumption). lia.
      * apply Forall_app. split; [assumption|].
        constructor; [exact Hcmd|constructor].
  - rewrite He. cbn [TokenKind.eqb].
    repeat split; simpl; try assumption.
    rewrite Hlen, take_ge by lia.
    unfold expectedCommands. rewrite last_lookup.
    destruct Hprev as [->|(t & Ht & Hp)].
    + assert (length body = 0) as Hz by lia.
      rewrite Hz. destruct body; [reflexivity|discriminate].
    + assert (idx = length body) as -> by (apply lookup_lt_Some in Ht; lia).
      replace (pred (length body)) with (length body - 1) by lia.
      rewrite Ht, Hp. reflexivity.
Qed.

Lemma parseTokens_ok :
  exists cmds,
    parseTokens tokens = Some (mkPipeline cmds (makeSpan 0 (tend e))) /\
    length cmds = expectedCommands body /\ Forall commandOk cmds.
Proof.
  assert (length tokens = S (length body)) as Htl.
  { unfold tokens. rewrite length_app. simpl. lia. }
  unfold parseTokens.
  destruct (while_total (parseBody tokens) (pipelineInv body) (pipelinePost body)
              (fun st => length tokens - st.1) parseBody_ok
              (S (length tokens)) (0, []))
    as ([idx cmds] & -> & Hge & Hlen & Hcmds).
  - repeat split; simpl; try lia; auto.
  - simpl. lia.
  - simpl in *. rewrite (peekTok_end idx Hge). eauto.
Qed.
End ParserProps.

(** ** [parse] always returns *)

Lemma parse_ok (input : list ascii) :
  exists toks cmds,
    lexedBody input toks /\ Forall tokenOk toks /\
    (toks = [] <-> forallb isSpace input = true) /\
    parse input = Some (mkPipeline cmds (makeSpan 0 (length input))) /\
    length cmds = expectedCommands toks /\ Forall commandOk cmds.
Proof.
  destruct (lex_shape input) as (toks & Hlex & Hall & Hsp).
  destruct (parseTokens_ok toks (eofToken input) eq_refl Hall)
    as (cmds & Hparse & Hlen & Hok).
  exists toks, cmds. unfold parse, lexedBody. rewrite Hlex.
  repeat split; try assumption.
  intros Hblank. rewrite (lex_blank input Hblank) in Hlex.
  injection Hlex as Hlex. destruct toks as [|t [|t' toks]]; try reflexivity;
    discriminate.
Qed.

(** ** Single-quoted input *)

Lemma while_continue {St Res : Type} (body : St -> option (St + Res))
    (fuel : nat) (s s' : St) :
  body s = Some (inl s') -> while body (S fuel) s = while body fuel s'.
Proof. intros H. simpl. rewrite H. reflexivity. Qed.

Lemma while_exit {St Res : Type} (body : St -> option (St + Res))
    (fuel : nat) (s : St) (r : Res) :
  body s = Some (inr r) -> while body (S fuel) s = Some r.
Proof. intros H. simpl. rewrite H. reflexivity. Qed.

Lemma scanQuoted_squote (s : list ascii) :
  noQuote s = true -> scanQuoted squote (s ++ [squote]) = S (length s).
Proof.
  induction s as [|c s IH]; intros Hs; [reflexivity|].
  simpl in Hs. apply andb_prop in Hs as [Hc Hs].
  unfold notChar in Hc. apply negb_true_iff in Hc.
  change (scanQuoted squote ((c :: s) ++ [squote]))
    with (if Ascii.eqb c backslash && Ascii.eqb squote dquote
          then match s ++ [squote] with
               | [] => 2
               | _ :: rest'' => S (S (scanQuoted squote rest''))
               end
          else if Ascii.eqb c squote then 1
               else S (scanQuoted squote (s ++ [squote]))).
  rewrite Hc, andb_false_r, IH by assumption. reflexivity.
Qed.

Lemma scanWhile_noQuote (s : list ascii) (rest : list ascii) :
  noQuote s = true ->
  scanWhile (notChar squote) (s ++ squote :: rest) = length s.
Proof.
  induction s as [|c s IH]; intros Hs; [reflexivity|].
  simpl in Hs. apply andb_prop in Hs as [Hc Hs].
  simpl. rewrite Hc, IH by assumption. reflexivity.
Qed.

Lemma quoted_length (s : list ascii) : length (quoted s) = S (S (length s)).
Proof. unfold quoted. simpl. rewrite length_app. simpl. lia. Qed.

Lemma quoted_lookup_end (s : list ascii) : quoted s !! S (length s) = Some squote.
Proof.
  unfold quoted. simpl. rewrite lookup_app_r by lia.
  rewrite Nat.sub_diag. reflexivity.
Qed.

Lemma quoted_lookup_past (s : list ascii) : quoted s !! S (S (length s)) = None.
Proof. apply lookup_ge_None. rewrite quoted_length. lia. Qed.

Lemma wordBody_squote (input : list ascii) (i : nat) :
  input !! i = Some squote ->
  wordBody input i = Some (inl (i + 1 + scanQuoted squote (drop (i + 1) input))).
Proof. intros H. unfold wordBody. rewrite H. reflexivity. Qed.

Lemma scanWord_quoted (s : list ascii) :
  noQuote s = true -> scanWord (quoted s) 0 = Some (S (S (length s))).
Proof.
  intros Hs. unfold scanWord. rewrite quoted_length.
  rewrite (while_continue _ _ 0 (S (S (length s)))).
  - apply while_exit. unfold wordBody. rewrite quoted_lookup_past. reflexivity.
  - rewrite wordBody_squote by reflexivity.
    change (drop (0 + 1) (quoted s)) with (s ++ [squote]).
    rewrite (scanQuoted_squote s Hs). reflexivity.
Qed.

Lemma slice_all (s : list ascii) : slice s 0 (length s) = s.
Proof. unfold slice. rewrite Nat.sub_0_r, drop_0. apply take_ge. lia. Qed.

Lemma lex_quoted (s : list ascii) :
  noQuote s = true ->
  lex (quoted s) =
    Some [mkToken TokenKind.Word (quoted s) 0 (length (quoted s)) None;
          eofToken (quoted s)].
Proof.
  intros Hs. unfold lex.
  rewrite (while_continue (lexBody (quoted s)) _ (0, [])
             (length (quoted s),
              [mkToken TokenKind.Word (quoted s) 0 (length (quoted s)) None])).
  - rewrite quoted_length at 1.
    rewrite (while_exit _ _ _
               [mkToken TokenKind.Word (quoted s) 0 (length (quoted s)) None]).
    + unfold pushToken, eofToken, slice. rewrite Nat.sub_diag, take_0. reflexivity.
    + unfold lexBody. rewrite quoted_length, quoted_lookup_past. reflexivity.
  - transitivity (match scanWord (quoted s) 0 with
                    | None => None
                    | Some wend =>
                        Some (inl (wend, pushToken (quoted s) [] TokenKind.Word
                                           0 wend None))
                    end : option (nat * list Token + list Token)); [reflexivity|].
    rewrite (scanWord_quoted s Hs), <- quoted_length.
    unfold pushToken. rewrite slice_all. reflexivity.
Qed.

Lemma split_quoted (s : list ascii) (base : nat) :
  noQuote s = true ->
  splitWordIntoParts (quoted s) base =
    Some (match s with
          | [] => []
          | _ => [Text s (makeSpan (base + 1) (base + (1 + length s)))]
          end).
Proof.
  intros Hs. unfold splitWordIntoParts.
  assert (splitBody (quoted s) base (0, []) =
          Some (inl (S (S (length s)),
                     pushText base [] s 1 (1 + length s)))) as Hstep.
  { transitivity
      (let i := 1 + scanWhile (notChar squote) (s ++ [squote]) in
       let inner := slice (quoted s) 1 i in
       Some (inl (if charIs squote (quoted s !! i) then i + 1 else i,
                  pushText base [] inner 1 (1 + length inner)))
       : option (nat * list Part + list Part)); [reflexivity|].
    rewrite (scanWhile_noQuote s [] Hs). cbv zeta.
    change (1 + length s) with (S (length s)).
    rewrite quoted_lookup_end. change (charIs squote (Some squote)) with true.
    cbv iota.
    assert (slice (quoted s) 1 (S (length s)) = s) as ->.
    { unfold slice, quoted.
      change (drop 1 (squote :: s ++ [squote])) with (s ++ [squote]).
      replace (S (length s) - 1) with (length s) by lia.
      apply take_app_length. }
    replace (S (length s) + 1) with (S (S (length s))) by lia. reflexivity. }
  rewrite quoted_length.
  rewrite (while_continue _ _ _ _ Hstep).
  rewrite (while_exit _ _ _ (pushText base [] s 1 (1 + length s))).
  - destruct s; reflexivity.
  - unfold splitBody. rewrite quoted_lookup_past. reflexivity.
Qed.

Lemma parseTokens_single_word (txt : list ascii) (a b : nat) (eof : Token) (w : Word) :
  kind eof = TokenKind.EOF ->
  makeWord txt a = Some w ->
  parseTokens [mkToken TokenKind.Word txt a b None; eof] =
    Some (mkPipeline [mkCommand [w] [] (makeSpan a (tstart eof))]
            (makeSpan 0 (tend eof))).
Proof.
  intros He Hw. unfold parseTokens.
  assert (parseCommand [mkToken TokenKind.Word txt a b None; eof] 0 =
          Some (mkCommand [w] [] (makeSpan a (tstart eof)), 1)) as Hcmd.
  { unfold parseCommand. cbn [peekTok lookup list_lookup Nat.add tstart length].
    rewrite (while_continue _ _ _ (1, [w], [])).
    - rewrite (while_exit _ _ _ (1, [w], [])); [reflexivity|].
      unfold parseCommandBody. cbn [peekTok lookup list_lookup Nat.add].
      rewrite He. reflexivity.
    - unfold parseCommandBody. cbn [peekTok lookup list_lookup Nat.add kind text tstart].
      rewrite Hw. reflexivity. }
  cbn [length].
  rewrite (while_exit _ _ _ (1, [mkCommand [w] [] (makeSpan a (tstart eof))])).
  - cbn [peekTok lookup list_lookup Nat.add]. reflexivity.
  - unfold parseBody. cbn [peekTok lookup list_lookup Nat.add kind TokenKind.eqb].
    rewrite Hcmd. cbn [peekTok lookup list_lookup Nat.add app]. rewrite He.
    reflexivity.
Qed.

(** ** Statements about [parse] *)

Lemma hasVisibleChar_blank (input : list ascii) :
  hasVisibleChar input = negb (forallb isSpace input).
Proof.
  unfold hasVisibleChar. induction input as [|c input IH]; [reflexivity|].
  simpl. rewrite IH. destruct (isSpace c); reflexivity.
Qed.

Lemma pipes_last (l : list Token) (t : Token) :
  last l = Some t -> isPipe t = true -> 1 <= pipes l.
Proof.
  intros Hl Hp. apply last_Some in Hl as [l' ->].
  rewrite pipes_app. unfold pipes at 2. rewrite filter_cons.
  destruct (decide (isPipe t = true)); [simpl; lia|contradiction].
Qed.

Lemma parse_count (input : list ascii) :
  exists p,
    parse input = Some p /\
    pspan p = makeSpan 0 (length input) /\
    Forall commandOk (commands p) /\
    (hasVisibleChar input = false -> commands p = []) /\
    (hasVisibleChar input = true ->
     1 <= length (commands p) /\
     length (commands p) =
       if lastTokenIsPipe input then pipeTokens input
       else pipeTokens input + 1).
Proof.
  destruct (parse_ok input) as (toks & cmds & Hlex & Hall & Hblank & -> & Hlen & Hok).
  eexists. split; [reflexivity|]. simpl.
  split; [reflexivity|]. split; [assumption|].
  rewrite hasVisibleChar_blank. unfold pipeTokens, lastTokenIsPipe.
  red in Hlex. rewrite Hlex, removelast_last, pipes_app.
  change (pipes [eofToken input]) with 0. rewrite Nat.add_0_r.
  unfold expectedCommands in Hlen. split.
  - intros Hb. apply negb_false_iff in Hb. apply Hblank in Hb. subst toks.
    destruct cmds; [reflexivity|discriminate].
  - intros Hb. apply negb_true_iff in Hb.
    destruct (last toks) as [t|] eqn:Hlast.
    + destruct (isPipe t) eqn:Hp.
      * pose proof (pipes_last toks t Hlast Hp). lia.
      * lia.
    + apply last_None in Hlast. apply Hblank in Hlast. congruence.
Qed.

(** C2, as stated, fails on the empty input: the Pipeline has no command. *)
Lemma parse_empty_no_command :
  exists p, parse (js "") = Some p /\ ~ (1 <= length (commands p)).
Proof.
  eexists. split; [vm_compute; reflexivity|]. simpl. lia.
Qed.

(** C2 (amended): for every input, [parse] returns a Pipeline; it has at
    least one command when the input has a non-whitespace character, and no
    command when the input is empty or all whitespace. *)
Theorem parse_commands_nonempty (input : list ascii) :
  exists p,
    parse input = Some p /\
    if hasVisibleChar input then 1 <= length (commands p)
    else commands p = [].
Proof.
  destruct (parse_count input) as (p & Hp & _ & _ & Hb & Hc).
  exists p. split; [assumption|].
  destruct (hasVisibleChar input); [apply Hc|apply Hb]; reflexivity.
Qed.

(** ** Top-level pipes of an input without quotes or escapes

    When the input has no quote and no backslash, every [|] character is a
    top-level pipe: the Pipe tokens of the lexer are as many as the [|]
    characters. *)

Lemma charIs_true (c : ascii) (o : option ascii) :
  charIs c o = true -> o = Some c.
Proof.
  destruct o as [x|]; [|discriminate]. simpl. intros H.
  apply Ascii.eqb_eq in H. congruence.
Qed.

Lemma scanWhile_run (p : ascii -> bool) (l : list ascii) (k : nat) (c : ascii) :
  k < scanWhile p l -> l !! k = Some c -> p c = true.
Proof.
  revert k. induction l as [|a l IH]; intros k Hk Hc; [simpl in Hk; lia|].
  simpl in Hk. destruct (p a) eqn:Hpa; [|lia].
  destruct k as [|k]; [simpl in Hc; congruence|].
  apply (IH k); [lia|exact Hc].
Qed.

Lemma noBarBetween_trans (input : list ascii) (a b c : nat) :
  noBarBetween input a b -> noBarBetween input b c -> noBarBetween input a c.
Proof.
  intros H1 H2 k x Hk Hx. destruct (le_lt_dec b k).
  - apply (H2 k x); [lia|assumption].
  - apply (H1 k x); [lia|assumption].
Qed.

Lemma noBarBetween_one (input : list ascii) (a : nat) (c : ascii) :
  input !! a = Some c -> Ascii.eqb c "|" = false -> noBarBetween input a (a + 1).
Proof.
  intros Ha Hc k x Hk Hx. assert (k = a) as -> by lia. congruence.
Qed.

Lemma noBarBetween_nil (input : list ascii) (a : nat) : noBarBetween input a a.
Proof. intros k x Hk. lia. Qed.

Lemma noBarBetween_digits (input : list ascii) (a : nat) :
  noBarBetween input a (a + scanWhile isDigit (drop a input)).
Proof.
  intros k x Hk Hx.
  assert (isDigit x = true) as Hd.
  { apply (scanWhile_run isDigit (drop a input) (k - a)); [lia|].
    rewrite lookup_drop. replace (a + (k - a)) with k by lia. exact Hx. }
  destruct (Ascii.eqb x "|") eqn:Hb; [|reflexivity].
  apply Ascii.eqb_eq in Hb. subst x. discriminate.
Qed.

Lemma bars_take (input : list ascii) (a b : nat) :
  a <= b -> noBarBetween input a b -> bars (take b input) = bars (take a input).
Proof.
  intros Hab Hno. replace b with (a + (b - a)) by lia.
  rewrite <- take_take_drop. unfold bars. rewrite count_occ_app.
  assert (count_occ Ascii.ascii_dec (take (b - a) (drop a input)) "|"%char = 0) as ->;
    [|lia].
  apply count_occ_not_In. intros Hin.
  apply list_elem_of_In, list_elem_of_lookup in Hin as [k Hk].
  apply lookup_take_Some in Hk as [Hk Hlt]. rewrite lookup_drop in Hk.
  pose proof (Hno (a + k) "|"%char ltac:(lia) Hk). discriminate.
Qed.

Lemma bars_take_bar (input : list ascii) (i : nat) :
  input !! i = Some "|"%char -> bars (take (i + 1) input) = S (bars (take i input)).
Proof.
  intros Hi. replace (i + 1) with (S i) by lia.
  rewrite (take_S_r _ _ _ Hi). unfold bars. rewrite count_occ_app. simpl. lia.
Qed.

Lemma pipes_push (input : list ascii) (tokens : list Token) (k : TokenKind.t)
    (a b : nat) (m : option Meta) :
  pipes (pushToken input tokens k a b m) =
    pipes tokens + if TokenKind.eqb k TokenKind.Pipe then 1 else 0.
Proof.
  unfold pushToken. rewrite pipes_app. f_equal. unfold pipes.
  rewrite filter_cons. unfold isPipe. simpl.
  destruct (TokenKind.eqb k TokenKind.Pipe); reflexivity.
Qed.

Lemma wordBody_noBar (input : list ascii) (i0 i : nat) :
  plainInput input = true ->
  i0 <= i /\ noBarBetween input i0 i ->
  match wordBody input i with
  | None => False
  | Some (inl i') =>
      (i0 <= i' /\ noBarBetween input i0 i') /\
      length input - i' < length input - i
  | Some (inr w) => i0 <= w /\ noBarBetween input i0 w
  end.
Proof.
  intros Hplain [Hi Hno]. unfold wordBody.
  destruct (input !! i) as [c|] eqn:Hc; [|auto].
  pose proof (lookup_lt_Some _ _ _ Hc) as Hlt.
  assert (plainChar c = true) as Hpc.
  { unfold plainInput in Hplain. rewrite forallb_forall in Hplain.
    apply Hplain, list_elem_of_In. eapply list_elem_of_lookup_2, Hc. }
  unfold plainChar in Hpc. apply negb_true_iff in Hpc.
  apply orb_false_elim in Hpc as [Hpc Hbs].
  apply orb_false_elim in Hpc as [Hsq Hdq].
  destruct (isSpace c); [auto|].
  destruct (Ascii.eqb c "|") eqn:Hbar; [cbn [orb]; auto|].
  destruct (Ascii.eqb c "<"); [cbn [orb]; auto|].
  destruct (Ascii.eqb c ">"); [cbn [orb]; auto|]. cbn [orb].
  destruct (Ascii.eqb c "&" && charIs ">" (input !! (i + 1))); [auto|].
  rewrite Hsq, Hdq, Hbs. cbn [orb].
  split; [split; [lia|]|lia].
  eapply noBarBetween_trans; [exact Hno|].
  eapply noBarBetween_one; eassumption.
Qed.

Lemma scanWord_noBar (input : list ascii) (i w : nat) :
  plainInput input = true ->
  scanWord input i = Some w -> i <= w /\ noBarBetween input i w.
Proof.
  intros Hplain Hw.
  destruct (while_total (wordBody input)
              (fun j => i <= j /\ noBarBetween input i j)
              (fun r => i <= r /\ noBarBetween input i r)
              (fun j => length input - j))
    with (fuel := S (length input)) (s := i) as (r & Hr & Hpost).
  - intros j Hj. apply wordBody_noBar; assumption.
  - split; [lia|apply noBarBetween_nil].
  - lia.
  - unfold scanWord in Hw. congruence.
Qed.

Lemma lexFd_noBar (input : list ascii) (tokens : list Token) (i i' : nat)
    (tokens' : list Token) :
  lexFd input tokens i = Some (i', tokens') ->
  i <= i' /\ noBarBetween input i i' /\ pipes tokens' = pipes tokens.
Proof.
  unfold lexFd.
  pose proof (noBarBetween_digits input i) as Hd.
  set (i1 := i + scanWhile isDigit (drop i input)) in *.
  destruct (charIs ">" (input !! i1)) eqn:H1; [|discriminate].
  apply charIs_true in H1.
  pose proof (noBarBetween_trans _ _ _ _ Hd
                (noBarBetween_one input i1 ">" H1 eq_refl)) as Hd1.
  destruct (charIs ">" (input !! (i1 + 1))) eqn:H2.
  { apply charIs_true in H2. intros H. injection H as <- <-.
    rewrite pipes_push. simpl. split; [lia|]. split; [|lia].
    eapply noBarBetween_trans; [exact Hd1|].
    eapply noBarBetween_one; [exact H2|reflexivity]. }
  destruct (charIs "&" (input !! (i1 + 1))) eqn:H3.
  { apply charIs_true in H3. intros H. injection H as <- <-.
    rewrite pipes_push. simpl. split; [lia|]. split; [|lia].
    eapply noBarBetween_trans; [exact Hd1|].
    eapply noBarBetween_trans; [eapply noBarBetween_one; [exact H3|reflexivity]|].
    apply noBarBetween_digits. }
  intros H. injection H as <- <-. rewrite pipes_push. simpl.
  split; [lia|]. split; [exact Hd1|lia].
Qed.

Lemma lexBody_bars (input : list ascii) (st : nat * list Token) :
  plainInput input = true ->
  pipes st.2 = bars (take st.1 input) ->
  match lexBody input st with
  | None => True
  | Some (inl st') => pipes st'.2 = bars (take st'.1 input)
  | Some (inr tokens) => pipes tokens = bars input
  end.
Proof.
  destruct st as [i tokens]. simpl. intros Hplain Hinv. unfold lexBody.
  destruct (input !! i) as [ch|] eqn:Hch.
  2:{ apply lookup_ge_None in Hch. rewrite take_ge in Hinv by lia. exact Hinv. }
  assert (forall i', Ascii.eqb ch "|" = false -> i <= i' ->
            noBarBetween input (i + 1) i' ->
            bars (take i' input) = bars (take i input)) as Hskip.
  { intros i' Hb Hle Hno. apply bars_take; [assumption|].
    eapply noBarBetween_trans; [|exact Hno].
    eapply noBarBetween_one; eassumption. }
  destruct (isSpace ch) eqn:Hspace.
  { simpl. rewrite Hinv. symmetry. apply Hskip; [|lia|apply noBarBetween_nil].
    destruct (Ascii.eqb ch "|") eqn:Hb; [|reflexivity].
    apply Ascii.eqb_eq in Hb. subst ch. discriminate. }
  destruct (Ascii.eqb ch "|") eqn:Hpipe.
  { apply Ascii.eqb_eq in Hpipe. subst ch. simpl.
    rewrite pipes_push, (bars_take_bar input i Hch), Hinv. simpl. lia. }
  destruct (Ascii.eqb ch "&" && charIs ">" (input !! (i + 1))) eqn:Hamp.
  { apply andb_prop in Hamp as [_ Hgt]. apply charIs_true in Hgt. simpl.
    rewrite pipes_push, Hinv. simpl. rewrite Nat.add_0_r. symmetry.
    apply Hskip; [reflexivity|lia|].
    replace (i + 2) with (i + 1 + 1) by lia.
    eapply noBarBetween_one; [exact Hgt|reflexivity]. }
  destruct (if isDigit ch then lexFd input tokens i else None)
    as [[i' tokens']|] eqn:Hfd.
  { destruct (isDigit ch); [|discriminate].
    apply lexFd_noBar in Hfd as (Hle & Hno & Hp). simpl.
    rewrite Hp, Hinv. symmetry. apply bars_take; assumption. }
  destruct (Ascii.eqb ch ">") eqn:Hgt.
  { destruct (charIs ">" (input !! (i + 1))) eqn:Hgt2; simpl;
      rewrite pipes_push, Hinv; simpl; rewrite Nat.add_0_r; symmetry;
      (apply Hskip; [reflexivity|lia|]).
    - apply charIs_true in Hgt2. replace (i + 2) with (i + 1 + 1) by lia.
      eapply noBarBetween_one; [exact Hgt2|reflexivity].
    - apply noBarBetween_nil. }
  destruct (Ascii.eqb ch "<") eqn:Hlt.
  { simpl. rewrite pipes_push, Hinv. simpl. rewrite Nat.add_0_r. symmetry.
    apply Hskip; [reflexivity|lia|apply noBarBetween_nil]. }
  destruct (scanWord input i) as [w|] eqn:Hw; [|exact I].
  apply (scanWord_noBar input i w Hplain) in Hw as [Hle Hno]. simpl.
  rewrite pipes_push, Hinv. simpl. rewrite Nat.add_0_r. symmetry.
  apply bars_take; assumption.
Qed.

(** For an input with no quote and no backslash, the top-level pipes are
    all the [|] characters of the input. *)
Lemma pipeTokens_plain (input : list ascii) :
  plainInput input = true -> pipeTokens input = bars input.
Proof.
  intros Hplain. unfold pipeTokens, lex.
  destruct (while_total (lexBody input)
              (fun st => lexInv input st /\ pipes st.2 = bars (take st.1 input))
              (fun toks => pipes toks = bars input)
              (fun st => length input - st.1))
    with (fuel := S (length input)) (s := (0, @nil Token)) as (toks & -> & Hp).
  - intros st [Hinv Hb]. pose proof (lexBody_ok input st Hinv) as Hok.
    pose proof (lexBody_bars input st Hplain Hb) as Hbars.
    destruct (lexBody input st) as [[st'|r]|]; [|assumption|contradiction].
    destruct Hok as [Hinv' Hm]. auto.
  - split; [split; [constructor|reflexivity]|reflexivity].
  - simpl. lia.
  - rewrite pipes_push. simpl. lia.
Qed.

(** The count of C1 read on the characters of such an input. *)
Lemma parse_commands_count_plain (input : list ascii) :
  plainInput input = true ->
  hasVisibleChar input = true ->
  lastTokenIsPipe input = false ->
  exists p, parse input = Some p /\ length (commands p) = bars input + 1.
Proof.
  intros Hplain Hv He. destruct (parse_count input) as (p & Hp & _ & _ & _ & Hc).
  exists p. split; [assumption|].
  destruct (Hc Hv) as [_ Hlen]. rewrite He, (pipeTokens_plain input Hplain) in Hlen.
  exact Hlen.
Qed.

(** ** Redirections *)

(** C3, as stated, fails: the redirection of ["a > out.txt"] has no [fd]
    (it is [undefined]), not [fd = 1]. *)
Lemma parse_gt_fd_is_not_1 :
  ~ (exists p cmd r,
       parse (js "a > out.txt") = Some p /\ commands p = [cmd] /\
       redirections cmd = [r] /\ op r = js ">" /\ fd r = num 1 /\
       expandWord jsObjectText (target r) (objectLiteral ∅) = js "out.txt").
Proof.
  intros (p & cmd & r & Hp & Hc & Hr & _ & Hfd & _).
  vm_compute in Hp. injection Hp as <-. simpl in Hc. injection Hc as <-.
  simpl in Hr. injection Hr as <-. discriminate.
Qed.

(** C3 (amended): parsing ["a > out.txt"] yields one Command whose only
    Redirection has [op = '>'], no [fd] ([undefined]: the lexer saw no
    numeric prefix, and the default descriptor of [>] is not stored), no
    [dupTargetFd], and a target word that expands to ["out.txt"] in every
    context. *)
Theorem parse_gt_redirection :
  exists p cmd r,
    parse (js "a > out.txt") = Some p /\ commands p = [cmd] /\
    redirections cmd = [r] /\ op r = js ">" /\ fd r = undefined /\
    dupTargetFd r = undefined /\
    forall (Other : Type) (toStr : Other -> list ascii)
           (ctx : Ctx Other),
      expandWord toStr (target r) ctx = js "out.txt".
Proof.
  do 3 eexists. split; [vm_compute; reflexivity|].
  repeat (split; [reflexivity|]). intros Other toStr ctx. reflexivity.
Qed.

(** C4: parsing ["cat f 2>&1"] yields exactly one Command with exactly one
    Redirection, which has [op = 'dup'], [fd = 2] and [dupTargetFd = 1]. *)
Theorem parse_dup_redirection :
  exists p cmd r,
    parse (js "cat f 2>&1") = Some p /\ commands p = [cmd] /\
    redirections cmd = [r] /\ op r = js "dup" /\ fd r = num 2 /\
    dupTargetFd r = num 1.
Proof.
  do 3 eexists. split; [vm_compute; reflexivity|].
  repeat split; reflexivity.
Qed.

(** ** Expansion *)

Lemma expandPart_contribution {Other : Type} (toStr : Other -> list ascii)
    (ctx : Ctx Other) (out : list ascii) (p : Part) :
  expandPart toStr ctx out p = out ++ partText toStr ctx p.
Proof. destruct p as [v sp|n b sp]; reflexivity. Qed.

Lemma fold_expandPart {Other : Type} (toStr : Other -> list ascii)
    (ctx : Ctx Other) (ps : list Part) (out : list ascii) :
  fold_left (expandPart toStr ctx) ps out =
    out ++ concat (map (partText toStr ctx) ps).
Proof.
  revert out. induction ps as [|p ps IH]; intros out.
  - simpl. rewrite app_nil_r. reflexivity.
  - simpl. rewrite IH, expandPart_contribution, <- app_assoc. reflexivity.
Qed.

(** C5: a name the context only inherits.  The specification and the
    comment at the head of [expandWord] ("missing vars resolve to empty
    string") say that a name absent from the context contributes the empty
    string.  The name [constructor] is absent from [{}], and
    [$constructor] expands there to the text of the function [Object],
    which [{}] inherits: [expandWord] reads [ctx[p.name]] and does not ask
    whether the property is the context's own.  In an object without a
    prototype the same word expands to the empty string. *)
Theorem expandWord_inherited_property :
  exists w,
    word_of (js "$constructor") = Some w /\
    ownProp (objectLiteral ∅) (js "constructor") = None /\
    concat (map (partContribution jsObjectText (objectLiteral ∅)) (parts w)) = [] /\
    expandWord jsObjectText w (objectLiteral ∅)
      = js "function Object() { [native code] }" /\
    expandWord jsObjectText w (nullPrototypeObject ∅) = [].
Proof.
  eexists. split; [vm_compute; reflexivity|].
  repeat split; vm_compute; reflexivity.
Qed.

(** The examples of the specification: [$HOME] expands to ["/h"] in
    [{HOME: "/h"}] and [$MISSING] to the empty string in [{}]. *)
Example expandWord_home_missing :
  (exists w, word_of (js "$HOME") = Some w /\
             expandWord jsObjectText w
               (objectLiteral {[ js "HOME" := Vstring (js "/h") ]}) = js "/h") /\
  (exists w, word_of (js "$MISSING") = Some w /\
             expandWord jsObjectText w (objectLiteral ∅) = js "").
Proof. split; eexists; split; vm_compute; reflexivity. Qed.

(** X29: where no name of the word is one the context only inherits,
    [expandWord] is the concatenation, in part order, of the parts'
    contributions as the specification words them: a TextPart its value, a
    VarPart the string form of the context's own value for its name, and
    the empty string when the name is absent or its value is null or
    undefined. *)
Theorem expandWord_own_properties {Other : Type} (toStr : Other -> list ascii)
    (word : Word) (ctx : Ctx Other) :
  noInheritedName ctx word ->
  expandWord toStr word ctx =
    concat (map (partContribution toStr ctx) (parts word)).
Proof.
  intros Hown. unfold expandWord. rewrite fold_expandPart. cbn [app].
  f_equal. apply map_ext_in. intros [v sp|n b sp] Hin; [reflexivity|].
  assert (In n (varNames word)) as Hn.
  { unfold varNames. apply in_flat_map. exists (Var n b sp).
    split; [exact Hin|left; reflexivity]. }
  specialize (Hown n Hn). cbn [partText partContribution].
  destruct ctx as [|obj protos]; [reflexivity|].
  cbn [ownProp getProp] in *.
  destruct (obj !! n) as [[| |s|o]|]; try reflexivity.
  rewrite Hown; reflexivity.
Qed.

Lemma expandWord_own_properties_witness :
  let word := mkWord [Var (js "HOME") false (makeSpan 0 5);
                      Text (js "/") (makeSpan 5 6);
                      Var (js "MISSING") false (makeSpan 6 14)] (makeSpan 0 14) in
  let ctx : Ctx JsObject := objectLiteral {[ js "HOME" := Vstring (js "/h") ]} in
  noInheritedName ctx word /\
  expandWord jsObjectText word ctx =
    concat (map (partContribution jsObjectText ctx) (parts word)).
Proof.
  intros word ctx.
  assert (noInheritedName ctx word) as H.
  { intros name [<-|[<-|[]]] Hown.
    - vm_compute in Hown. discriminate.
    - vm_compute. reflexivity. }
  split; [exact H|]. apply (expandWord_own_properties jsObjectText word ctx H).
Defined.



(** ** Quoting *)

(** C6: a single-quoted input ['s'] parses to one command with one word, and
    in every context that word expands to exactly the text [s] between the
    quotes: nothing in [s] is read as an escape or a variable. *)
Theorem single_quoted_expands_to_interior {Other : Type}
    (toStr : Other -> list ascii) (s : list ascii)
    (ctx : Ctx Other) :
  noQuote s = true ->
  exists p cmd w,
    parse (quoted s) = Some p /\ commands p = [cmd] /\
    words cmd = [w] /\ redirections cmd = [] /\
    expandWord toStr w ctx = s.
Proof.
  intros Hs.
  assert (exists w, makeWord (quoted s) 0 = Some w /\ expandWord toStr w ctx = s)
    as (w & Hw & Hexp).
  { unfold makeWord. rewrite (split_quoted s 0 Hs). eexists.
    split; [reflexivity|]. destruct s; reflexivity. }
  exists (mkPipeline
            [mkCommand [w] [] (makeSpan 0 (tstart (eofToken (quoted s))))]
            (makeSpan 0 (tend (eofToken (quoted s))))).
  do 2 eexists. split; [|repeat split; [reflexivity..|exact Hexp]].
  unfold parse. rewrite (lex_quoted s Hs).
  apply parseTokens_single_word; [reflexivity|exact Hw].
Qed.

Lemma single_quoted_expands_to_interior_witness :
  noQuote (js "$X") = true /\
  exists p cmd w,
    parse (quoted (js "$X")) = Some p /\ commands p = [cmd] /\
    words cmd = [w] /\ redirections cmd = [] /\
    expandWord jsObjectText w
      (objectLiteral {[ js "X" := Vstring (js "y") ]}) = js "$X".
Proof.
  split; [reflexivity|].
  apply (single_quoted_expands_to_interior
           jsObjectText (js "$X")
           (objectLiteral {[ js "X" := Vstring (js "y") ]})).
  reflexivity.
Defined.

(** C7: the parts [splitWordIntoParts] returns never have two adjacent
    TextParts, so neither has any word or redirection target of a parsed
    Pipeline; adjacent literal pieces (here a run, an escape and a quoted
    region) come out as one TextPart. *)
Theorem no_adjacent_text_parts :
  (forall (raw : list ascii) (baseOffset : nat),
     exists ps, splitWordIntoParts raw baseOffset = Some ps /\
                noAdjacentText ps = true) /\
  (forall input : list ascii,
     exists p, parse input = Some p /\
       Forall (fun c =>
                 Forall (fun w => noAdjacentText (parts w) = true) (words c) /\
                 Forall (fun r => noAdjacentText (parts (target r)) = true)
                   (redirections c))
         (commands p)) /\
  splitWordIntoParts (js "a\b'c'$d") 0 =
    Some [Text (js "abc") (makeSpan 0 5); Var (js "d") false (makeSpan 6 8)].
Proof.
  split; [|split].
  - intros raw base.
    destruct (splitWordIntoParts_total raw base) as (ps & _ & Hs).
    exists (mergeParts ps). split; [exact Hs|apply mergeParts_noAdjacentText].
  - intros input. destruct (parse_count input) as (p & Hp & _ & Hok & _).
    exists p. split; [exact Hp|exact Hok].
  - vm_compute. reflexivity.
Qed.

(** ** Missing redirection target *)

Lemma lex_token_meta (input : list ascii) (toks : list Token) (idx : nat) (t : Token) :
  lex input = Some toks -> toks !! idx = Some t ->
  kind t = TokenKind.FD_GT -> is_Some (meta t).
Proof.
  intros Hlex Ht Hk. destruct (lex_shape input) as (body & Hb & Hall & _).
  rewrite Hlex in Hb. injection Hb as ->.
  apply lookup_app_Some in Ht as [Ht|[_ Ht]].
  - apply (Forall_lookup_1 _ _ _ _ Hall Ht), Hk.
  - destruct (idx - length body); [|discriminate].
    injection Ht as <-. discriminate.
Qed.

Lemma makeWord_empty (startOffset : nat) :
  makeWord [] startOffset = Some (mkWord [] (makeSpan startOffset startOffset)).
Proof. unfold makeWord. simpl. rewrite Nat.add_0_r. reflexivity. Qed.

(** The placeholder in a whole parse: ["a > | b"] has two commands, the first
    with the redirection on an empty target, the second with the word [b]. *)
Example parse_missing_target :
  exists p c1 c2 r w,
    parse (js "a > | b") = Some p /\ commands p = [c1; c2] /\
    redirections c1 = [r] /\ op r = js ">" /\
    target r = mkWord [] (makeSpan 3 3) /\
    words c2 = [w] /\ parts w = [Text (js "b") (makeSpan 6 7)].
Proof.
  do 5 eexists. split; [vm_compute; reflexivity|]. repeat split; reflexivity.
Qed.

(** ** Termination *)

(** C9: for every input, [lex] returns a token sequence that ends with an
    EndOfInput token of span [len, len] and has no other EndOfInput token,
    and [parse] returns; an unterminated quote is taken to the end of the
    input as part of one Word token. *)
Theorem lex_parse_terminate :
  (forall input : list ascii,
     (exists toks,
        lex input =
          Some (toks ++ [mkToken TokenKind.EOF [] (length input) (length input) None]) /\
        Forall (fun t => kind t <> TokenKind.EOF) toks) /\
     exists p, parse input = Some p) /\
  lex (squote :: js "a b|c") =
    Some [mkToken TokenKind.Word (squote :: js "a b|c") 0 6 None;
          mkToken TokenKind.EOF [] 6 6 None] /\
  lex (js "x" ++ dquote :: js "a b|c") =
    Some [mkToken TokenKind.Word (js "x" ++ dquote :: js "a b|c") 0 7 None;
          mkToken TokenKind.EOF [] 7 7 None].
Proof.
  split; [|split; vm_compute; reflexivity].
  intros input. split.
  - destruct (lex_shape input) as (toks & Hlex & Hall & _).
    exists toks. split; [exact Hlex|].
    eapply Forall_impl; [exact Hall|]. intros t [Hne _]. exact Hne.
  - destruct (parse_count input) as (p & Hp & _). eauto.
Qed.

(** ** Sample inputs

    The embedding run on inputs of the self-test of [mini-sh.js]. *)

Example sample_pipeline_argv :
  (fun p => map (fun c => buildArgv jsObjectText c (objectLiteral ∅)) (commands p))
    <$> parse (js "a | b | c")
  = Some [[js "a"]; [js "b"]; [js "c"]].
Proof. vm_compute. reflexivity. Qed.

Example sample_braced_variable :
  (fun w => expandWord jsObjectText w
              (objectLiteral {[ js "USER" := Vstring (js "bob") ]}))
    <$> word_of (js "${USER}!")
  = Some (js "bob!").
Proof. vm_compute. reflexivity. Qed.

Example sample_literal_dollar :
  splitWordIntoParts (dquote :: js "literal $ notvar" ++ [dquote]) 0
  = Some [Text (js "literal $ notvar") (makeSpan 1 17)].
Proof. vm_compute. reflexivity. Qed.

Example sample_redirections :
  (fun p => map (fun c => (buildArgv jsObjectText c (objectLiteral ∅),
                           map (fun r => (fd r, op r, dupTargetFd r))
                             (redirections c)))
              (commands p))
    <$> parse (js "cat input.txt 2>&1 | grep error &> combined.log")
  = Some [([js "cat"; js "input.txt"], [(num 2, js "dup", num 1)]);
          ([js "grep"; js "error"], [(undefined, js "clobber", undefined)])].
Proof. vm_compute. reflexivity. Qed.

(** * Further properties *)

(** ** The merge pass does not change what a word expands to *)

Lemma expandParts_snoc {Other : Type} (toStr : Other -> list ascii)
    (ctx : Ctx Other) (l : list Part) (x : Part) :
  fold_left (expandPart toStr ctx) (l ++ [x]) [] =
    fold_left (expandPart toStr ctx) l [] ++ partText toStr ctx x.
Proof.
  rewrite fold_left_app. simpl. apply expandPart_contribution.
Qed.

Lemma mergeStep_expand {Other : Type} (toStr : Other -> list ascii)
    (ctx : Ctx Other) (merged : list Part) (part : Part) :
  fold_left (expandPart toStr ctx) (mergeStep merged part) [] =
    fold_left (expandPart toStr ctx) merged [] ++ partText toStr ctx part.
Proof.
  unfold mergeStep. destruct (last merged) as [q|] eqn:Hlast.
  - apply last_Some in Hlast as [l' ->].
    destruct q as [v sp|n b sp], part as [v' sp'|n' b' sp'];
      try apply expandParts_snoc.
    rewrite removelast_last, !expandParts_snoc. simpl.
    rewrite <- app_assoc. reflexivity.
  - apply expandParts_snoc.
Qed.

Lemma mergeLoop_expand {Other : Type} (toStr : Other -> list ascii)
    (ctx : Ctx Other) (ps acc : list Part) :
  fold_left (expandPart toStr ctx) (fold_left mergeStep ps acc) [] =
    fold_left (expandPart toStr ctx) (acc ++ ps) [].
Proof.
  revert acc. induction ps as [|p ps IH]; intros acc.
  - rewrite app_nil_r. reflexivity.
  - simpl. rewrite IH, !fold_left_app, mergeStep_expand. simpl.
    rewrite expandPart_contribution. reflexivity.
Qed.

(** X1: merging adjacent Text parts changes no expansion: in every context a
    word expands to the same string with the merged parts as with the parts
    as they were pushed. *)
Theorem merge_preserves_expansion {Other : Type} (toStr : Other -> list ascii)
    (ctx : Ctx Other) (ps : list Part) (sp : Span) :
  expandWord toStr (mkWord (mergeParts ps) sp) ctx =
    expandWord toStr (mkWord ps sp) ctx.
Proof. unfold expandWord, mergeParts. simpl. apply mergeLoop_expand. Qed.

(** ** What the parts of a word are never *)

Lemma pushText_partOk (base : nat) (ps : list Part) (s : list ascii) (a b : nat) :
  Forall partOk ps -> Forall partOk (pushText base ps s a b).
Proof.
  intros H. destruct s as [|c s]; [exact H|].
  apply Forall_app. split; [exact H|]. repeat constructor.
Qed.

Lemma pushVar_partOk (base : nat) (ps : list Part) (n : list ascii) (braced : bool)
    (a b : nat) :
  Forall partOk ps -> (braced = false -> validName n = true) ->
  Forall partOk (pushVar base ps n braced a b).
Proof.
  intros H Hn. apply Forall_app. split; [exact H|].
  constructor; [|constructor]. split; [reflexivity|].
  simpl. destruct braced; [reflexivity|auto].
Qed.

Lemma scanWhile_take (p : ascii -> bool) (l : list ascii) :
  forallb p (take (scanWhile p l) l) = true.
Proof.
  induction l as [|c l IH]; [reflexivity|].
  simpl. destruct (p c) eqn:Hc; [|reflexivity]. simpl. rewrite Hc. exact IH.
Qed.

Lemma unbraced_name_valid (s : list ascii) (i : nat) :
  at_ isVarStart (s !! (i + 1)) = true ->
  validName (slice s (i + 1) (i + 2 + scanWhile isVarChar (drop (i + 2) s))) = true.
Proof.
  destruct (s !! (i + 1)) as [c|] eqn:Hc; [|discriminate]. simpl. intros Hv.
  unfold slice. rewrite (drop_S _ _ _ Hc).
  replace (S (i + 1)) with (i + 2) by lia.
  replace (i + 2 + scanWhile isVarChar (drop (i + 2) s) - (i + 1))
    with (S (scanWhile isVarChar (drop (i + 2) s))) by lia.
  simpl. rewrite Hv. apply scanWhile_take.
Qed.

Lemma parseVar_partOk (base : nat) (s : list ascii) (off : nat) (ps : list Part)
    (i : nat) :
  Forall partOk ps -> Forall partOk (parseVar base s off ps i).2.
Proof.
  intros H. unfold parseVar.
  destruct (charIs "{" (s !! (i + 1))).
  - apply pushVar_partOk; [exact H|discriminate].
  - destruct (at_ isVarStart (s !! (i + 1))) eqn:Hv.
    + apply pushVar_partOk; [exact H|]. intros _. apply unbraced_name_valid, Hv.
    + apply pushText_partOk, H.
Qed.

Lemma scanTextForVars_partOk (base : nat) (ps : list Part) (text : list ascii)
    (offset : nat) (ps' : list Part) :
  Forall partOk ps -> scanTextForVars base ps text offset = Some ps' ->
  Forall partOk ps'.
Proof.
  intros H. unfold scanTextForVars.
  destruct (while_total (scanVarsBody base text offset)
              (fun st => Forall partOk st.2) (fun r => Forall partOk r.2)
              (fun st => length text - st.1.1))
    with (fuel := S (length text)) (s := (0, 0, ps)) as ([acc qs] & -> & Hqs).
  - intros [[p accStart] qs] Hqs. simpl in Hqs. unfold scanVarsBody.
    destruct (text !! p) as [c|] eqn:Hc; [|exact Hqs].
    apply lookup_lt_Some in Hc.
    destruct (Ascii.eqb c dollar); [|simpl; split; [exact Hqs|lia]].
    match goal with |- context [parseVar ?b ?s ?o ?q ?i] =>
      pose proof (parseVar_progress b s o q i) as Hp;
      assert (Forall partOk (parseVar b s o q i).2) as Hok
        by (apply parseVar_partOk; destruct (accStart <? p);
            [apply pushText_partOk|]; exact Hqs);
      destruct (parseVar b s o q i) as [p' ps''] end.
    simpl in *. split; [exact Hok|lia].
  - exact H.
  - simpl. lia.
  - intros Heq. injection Heq as <-. simpl in Hqs.
    destruct (acc <? length text); [apply pushText_partOk|]; exact Hqs.
Qed.

Lemma flushSegment_partOk (raw : list ascii) (base : nat) (ps : list Part)
    (seg i : nat) (ps' : list Part) :
  Forall partOk ps -> flushSegment raw base ps seg i = Some ps' ->
  Forall partOk ps'.
Proof.
  intros H. unfold flushSegment. destruct (seg <? i).
  - apply scanTextForVars_partOk, H.
  - intros Heq. injection Heq as <-. exact H.
Qed.

Lemma dquoteBody_partOk (raw : list ascii) (base : nat) (st : nat * nat * list Part) :
  Forall partOk st.2 ->
  match dquoteBody raw base st with
  | None => True
  | Some (inl st') => Forall partOk st'.2
  | Some (inr r) => Forall partOk r.2
  end.
Proof.
  destruct st as [[i seg] ps]. intros H. cbn [snd] in H. unfold dquoteBody.
  destruct (raw !! i) as [c|]; [|exact H].
  destruct (Ascii.eqb c backslash).
  { cbn -[pushText Nat.ltb].
    assert (Forall partOk
              (if seg <? i then pushText base ps (slice raw seg i) seg i else ps))
      as H1 by (destruct (seg <? i); [apply pushText_partOk|]; exact H).
    destruct (charIs "n" (raw !! (i + 1))); [apply pushText_partOk, H1|].
    destruct (charIs "t" (raw !! (i + 1))); apply pushText_partOk, H1. }
  destruct (Ascii.eqb c dquote).
  { destruct (flushSegment raw base ps seg i) as [ps'|] eqn:Hf; [|exact I].
    simpl. eapply flushSegment_partOk; eassumption. }
  destruct (Ascii.eqb c dollar); [|exact H].
  destruct (flushSegment raw base ps seg i) as [ps'|] eqn:Hf; [|exact I].
  pose proof (flushSegment_partOk raw base ps seg i ps' H Hf) as H1.
  pose proof (parseVar_partOk base raw 0 ps' i H1) as H2.
  destruct (parseVar base raw 0 ps' i) as [i' ps'']. exact H2.
Qed.

Lemma dquoteLoop_partOk (raw : list ascii) (base : nat) (i : nat) (ps : list Part)
    (r : nat * list Part) :
  Forall partOk ps ->
  while (dquoteBody raw base) (S (length raw)) (i, i, ps) = Some r ->
  Forall partOk r.2.
Proof.
  intros H Hw.
  destruct (while_total (dquoteBody raw base)
              (fun st => i <= st.1.1 /\ Forall partOk st.2)
              (fun r => Forall partOk r.2) (fun st => length raw - st.1.1))
    with (fuel := S (length raw)) (s := (i, i, ps)) as (r' & Hr' & Hok).
  - intros st [Hi Hst]. pose proof (dquoteBody_ok raw base i st Hi) as H1.
    pose proof (dquoteBody_partOk raw base st Hst) as H2.
    destruct (dquoteBody raw base st) as [[st'|r']|]; [|exact H2|contradiction].
    destruct H1 as [H1 H1']. auto.
  - simpl. auto.
  - simpl. lia.
  - congruence.
Qed.

Lemma splitBody_partOk (raw : list ascii) (base : nat) (st : nat * list Part) :
  Forall partOk st.2 ->
  match splitBody raw base st with
  | None => True
  | Some (inl st') => Forall partOk st'.2
  | Some (inr r) => Forall partOk r
  end.
Proof.
  destruct st as [i ps]. intros H. cbn [snd] in H. unfold splitBody.
  destruct (raw !! i) as [ch|]; [|exact H].
  destruct (Ascii.eqb ch squote); [apply pushText_partOk, H|].
  destruct (Ascii.eqb ch dquote).
  { destruct (while (dquoteBody raw base) (S (length raw)) (i + 1, i + 1, ps))
      as [r|] eqn:Hw; [|exact I].
    eapply dquoteLoop_partOk; eassumption. }
  destruct (Ascii.eqb ch backslash).
  { destruct (raw !! (i + 1)); apply pushText_partOk, H. }
  destruct (Ascii.eqb ch dollar); [apply parseVar_partOk, H|].
  cbn -[pushText Nat.ltb].
  match goal with |- context [if ?b then _ else _] => destruct b end;
    [apply pushText_partOk|]; exact H.
Qed.

Lemma mergeStep_partOk (merged : list Part) (part : Part) :
  Forall partOk merged -> partOk part -> Forall partOk (mergeStep merged part).
Proof.
  intros Hm Hp. unfold mergeStep.
  assert (Forall partOk (merged ++ [part])) as Hsnoc.
  { apply Forall_app. split; [exact Hm|]. constructor; [exact Hp|constructor]. }
  destruct (last merged) as [q|] eqn:Hlast; [|exact Hsnoc].
  destruct q as [v sp|n b sp]; [|exact Hsnoc].
  destruct part as [v' sp'|n' b' sp']; [|exact Hsnoc].
  apply last_Some in Hlast as [l' ->]. rewrite removelast_last.
  apply Forall_app in Hm as [Hl' Hq]. apply Forall_app. split; [exact Hl'|].
  constructor; [|constructor]. inversion Hq as [|? ? [Hv _] _]; subst.
  split; [|reflexivity]. destruct v; [discriminate|reflexivity].
Qed.

Lemma mergeParts_partOk (ps : list Part) :
  Forall partOk ps -> Forall partOk (mergeParts ps).
Proof.
  unfold mergeParts.
  assert (forall acc, Forall partOk acc -> Forall partOk ps ->
                      Forall partOk (fold_left mergeStep ps acc)) as H.
  { induction ps as [|p ps IH]; intros acc Hacc Hps; [exact Hacc|].
    inversion Hps; subst. simpl. apply IH; [|assumption].
    apply mergeStep_partOk; assumption. }
  intros Hps. apply H; [constructor|exact Hps].
Qed.

Lemma splitWordIntoParts_partOk (raw : list ascii) (base : nat) :
  exists ps, splitWordIntoParts raw base = Some ps /\ Forall partOk ps.
Proof.
  destruct (while_total (splitBody raw base) (fun st => Forall partOk st.2)
              (fun r => Forall partOk r) (fun st => length raw - st.1))
    with (fuel := S (length raw)) (s := (0, @nil Part)) as (ps & Hw & Hok).
  - intros st Hst. pose proof (splitBody_ok raw base st) as H1.
    pose proof (splitBody_partOk raw base st Hst) as H2.
    destruct (splitBody raw base st) as [[st'|r]|]; auto.
  - constructor.
  - simpl. lia.
  - exists (mergeParts ps). unfold splitWordIntoParts. rewrite Hw.
    split; [reflexivity|]. apply mergeParts_partOk, Hok.
Qed.

(** X2: [splitWordIntoParts] never returns a Text part with an empty value. *)
Theorem text_parts_nonempty (raw : list ascii) (baseOffset : nat) :
  exists ps,
    splitWordIntoParts raw baseOffset = Some ps /\
    forall v sp, In (Text v sp) ps -> v <> [].
Proof.
  destruct (splitWordIntoParts_partOk raw baseOffset) as (ps & Hs & Hok).
  exists ps. split; [exact Hs|]. intros v sp Hin.
  rewrite Forall_forall in Hok.
  destruct (Hok (Text v sp)) as [Hv _]; [apply list_elem_of_In, Hin|].
  destruct v; [discriminate|discriminate].
Qed.

(** X3: the name of every unbraced Var part ([$name]) that
    [splitWordIntoParts] returns is not empty, starts with a letter or [_]
    and goes on with letters, digits and [_]. *)
Theorem unbraced_names_valid (raw : list ascii) (baseOffset : nat) :
  exists ps,
    splitWordIntoParts raw baseOffset = Some ps /\
    forall n sp, In (Var n false sp) ps -> validName n = true.
Proof.
  destruct (splitWordIntoParts_partOk raw baseOffset) as (ps & Hs & Hok).
  exists ps. split; [exact Hs|]. intros n sp Hin.
  rewrite Forall_forall in Hok.
  destruct (Hok (Var n false sp)) as [_ Hn]; [apply list_elem_of_In, Hin|].
  exact Hn.
Qed.

(** ** The spans of the tokens *)

(** What one iteration of the lexer's loop does: it skips one whitespace
    character, or pushes one token that starts at the cursor and ends at the
    new cursor. *)
Lemma lexBody_shape (input : list ascii) (i : nat) (tokens : list Token)
    (i' : nat) (tokens' : list Token) :
  lexBody input (i, tokens) = Some (inl (i', tokens')) ->
  exists ch, input !! i = Some ch /\
    ((isSpace ch = true /\ i' = i + 1 /\ tokens' = tokens) \/
     (isSpace ch = false /\ i < i' /\
      exists k m, k <> TokenKind.EOF /\
                  tokens' = pushToken input tokens k i i' m)).
Proof.
  unfold lexBody. destruct (input !! i) as [ch|] eqn:Hch; [|discriminate].
  intros H. exists ch. split; [reflexivity|].
  destruct (isSpace ch) eqn:Hspace.
  { injection H as <- <-. left. auto. }
  right. split; [reflexivity|].
  destruct (Ascii.eqb ch "|") eqn:Hpipe.
  { injection H as <- <-. split; [lia|]. do 2 eexists.
    split; [|reflexivity]. discriminate. }
  destruct (Ascii.eqb ch "&" && charIs ">" (input !! (i + 1))) eqn:Hamp.
  { injection H as <- <-. split; [lia|]. do 2 eexists.
    split; [|reflexivity]. discriminate. }
  destruct (if isDigit ch then lexFd input tokens i else None)
    as [[j toks]|] eqn:Hfd.
  { injection H as <- <-. destruct (isDigit ch); [|discriminate].
    revert Hfd. unfold lexFd.
    repeat (match goal with |- context [if ?b then _ else _] => destruct b end);
      intros Hfd; inversion Hfd; subst; clear Hfd;
      (split; [lia|]); do 2 eexists; (split; [|reflexivity]); discriminate. }
  destruct (Ascii.eqb ch ">") eqn:Hgt.
  { destruct (charIs ">" (input !! (i + 1))); injection H as <- <-;
      (split; [lia|]); do 2 eexists; (split; [|reflexivity]); discriminate. }
  destruct (Ascii.eqb ch "<") eqn:Hlt.
  { injection H as <- <-. split; [lia|]. do 2 eexists.
    split; [|reflexivity]. discriminate. }
  assert (exists i1, wordBody input i = Some (inl i1)) as [i1 Hi1].
  { unfold wordBody. rewrite Hch, Hspace, Hpipe, Hlt, Hgt, Hamp. simpl.
    repeat (match goal with |- context [if ?b then _ else _] => destruct b end);
      eexists; reflexivity. }
  destruct (scanWord_progress input i i1 Hi1) as (w & Hw & Hiw).
  rewrite Hw in H. injection H as <- <-. split; [exact Hiw|].
  do 2 eexists. split; [|reflexivity]. discriminate.
Qed.

Lemma lexSpanInv_step (input : list ascii) (st : nat * list Token) :
  lexSpanInv input st ->
  match lexBody input st with
  | Some (inl st') => lexSpanInv input st'
  | Some (inr toks) =>
      Forall (tokenSpanOk input) toks /\ tokensOrdered toks /\
      coveredUpTo input toks (length input)
  | None => True
  end.
Proof.
  destruct st as [i tokens]. intros (Hall & Hord & Hcov). simpl in Hall, Hord, Hcov.
  destruct (lexBody input (i, tokens)) as [[[i' tokens']|toks]|] eqn:Hb; [| |exact I].
  - apply lexBody_shape in Hb.
    destruct Hb as (ch & Hch & [(Hsp & -> & ->)|(Hsp & Hlt & k & m & Hk & ->)]).
    + repeat split; simpl.
      * eapply Forall_impl; [exact Hall|]. simpl. intros t [H1 H2].
        split; [exact H1|lia].
      * exact Hord.
      * intros j c Hj Hc Hns. destruct (decide (j = i)) as [->|Hne].
        -- congruence.
        -- apply (Hcov j c); [lia|assumption..].
    + pose proof (lookup_lt_Some _ _ _ Hch) as Hi.
      unfold pushToken. repeat split; simpl.
      * apply Forall_app. split.
        -- eapply Forall_impl; [exact Hall|]. simpl. intros t [H1 H2].
           split; [exact H1|lia].
        -- constructor; [|constructor]. simpl. repeat split; auto.
      * intros a b ta tb Ha Hb Hab.
        pose proof (lookup_lt_Some _ _ _ Hb) as Hbl.
        rewrite length_app in Hbl. simpl in Hbl.
        rewrite lookup_app_l in Ha by lia.
        destruct (decide (b < length tokens)) as [Hb'|Hb'].
        -- rewrite lookup_app_l in Hb by lia. eapply Hord; eassumption.
        -- rewrite lookup_app_r in Hb by lia.
           replace (b - length tokens) with 0 in Hb by lia.
           injection Hb as <-. simpl.
           rewrite Forall_forall in Hall.
           destruct (Hall ta) as [_ Hta];
             [eapply list_elem_of_lookup_2, Ha|simpl in Hta; exact Hta].
      * intros j c Hj Hc Hns. destruct (decide (j < i)) as [Hji|Hji].
        -- destruct (Hcov j c Hji Hc Hns) as (t & Hin & Ht).
           exists t. split; [apply in_or_app; left; exact Hin|exact Ht].
        -- eexists. split; [apply in_or_app; right; left; reflexivity|].
           simpl. lia.
  - unfold lexBody in Hb. destruct (input !! i) as [ch|] eqn:Hch.
    + repeat (match type of Hb with
              | context [if ?b then _ else _] => destruct b
              | context [match ?o with Some _ => _ | None => _ end] => destruct o
              | context [let '(_, _) := ?p in _] => destruct p
              end; try discriminate).
    + injection Hb as <-. apply lookup_ge_None in Hch.
      repeat split.
      * eapply Forall_impl; [exact Hall|]. simpl. intros t [H1 _]. exact H1.
      * exact Hord.
      * intros j c Hj. apply Hcov. lia.
Qed.

Lemma lex_spans (input : list ascii) :
  exists toks,
    lex input = Some (toks ++ [eofToken input]) /\
    Forall (tokenSpanOk input) toks /\ tokensOrdered toks /\
    coveredUpTo input toks (length input).
Proof.
  destruct (while_total (lexBody input)
              (fun st => lexInv input st /\ lexSpanInv input st)
              (fun toks => Forall (tokenSpanOk input) toks /\ tokensOrdered toks /\
                           coveredUpTo input toks (length input))
              (fun st => length input - st.1))
    with (fuel := S (length input)) (s := (0, @nil Token)) as (toks & Hw & Hpost).
  - intros st [Hinv Hsp]. pose proof (lexBody_ok input st Hinv) as Hok.
    pose proof (lexSpanInv_step input st Hsp) as Hstep.
    destruct (lexBody input st) as [[st'|r]|]; [|exact Hstep|contradiction].
    destruct Hok as [Hinv' Hm]. auto.
  - split; [split; [constructor|reflexivity]|].
    repeat split; simpl.
    + constructor.
    + intros a b ta tb Ha. discriminate.
    + intros k c Hk. lia.
  - simpl. lia.
  - exists toks. split; [|exact Hpost]. unfold lex. rewrite Hw.
    unfold pushToken, slice, eofToken. rewrite Nat.sub_diag, take_0. reflexivity.
Qed.

(** X4: every token of [lex] before EndOfInput spans a non-empty piece of the
    input that starts inside it, its [text] is that piece
    ([input.slice(start, end)]), and the tokens follow one another in the
    input without overlap. *)
Theorem lex_tokens_ordered (input : list ascii) :
  exists toks,
    lex input = Some (toks ++ [eofToken input]) /\
    Forall (fun t => tstart t < tend t /\ tstart t < length input /\
                     text t = slice input (tstart t) (tend t)) toks /\
    forall a b ta tb,
      toks !! a = Some ta -> toks !! b = Some tb -> a < b ->
      tend ta <= tstart tb.
Proof.
  destruct (lex_spans input) as (toks & Hlex & Hall & Hord & _).
  exists toks. auto.
Qed.

(** X5: the lexer drops nothing but whitespace: every character of the input
    that is not a space, tab, newline or carriage return lies inside the span
    of a token. *)
Theorem lex_covers_input (input : list ascii) :
  exists toks,
    lex input = Some (toks ++ [eofToken input]) /\
    forall k c, input !! k = Some c -> isSpace c = false ->
      exists t, In t toks /\ tstart t <= k < tend t.
Proof.
  destruct (lex_spans input) as (toks & Hlex & _ & _ & Hcov).
  exists toks. split; [exact Hlex|]. intros k c Hc Hns.
  apply (Hcov k c); [eapply lookup_lt_Some, Hc|assumption..].
Qed.

(** ** Lexing words separated by spaces *)

Lemma lexChar_inv (c : ascii) :
  lexChar c = true ->
  isSpace c = false /\ Ascii.eqb c "|" = false /\ Ascii.eqb c "<" = false /\
  Ascii.eqb c ">" = false /\ Ascii.eqb c "&" = false /\
  Ascii.eqb c squote = false /\ Ascii.eqb c dquote = false /\
  Ascii.eqb c backslash = false.
Proof.
  unfold lexChar. intros H. apply negb_true_iff in H.
  do 7 (apply orb_false_elim in H as [H ?]). repeat split; assumption.
Qed.

Lemma lookup_in_drop (input : list ascii) (i k : nat) (l : list ascii) :
  drop i input = l -> input !! (i + k) = l !! k.
Proof. intros <-. rewrite lookup_drop. reflexivity. Qed.

Lemma endsWord_lookup (tail : list ascii) :
  endsWord tail -> tail !! 0 = None \/ tail !! 0 = Some " "%char.
Proof. intros [->|[tail' ->]]; auto. Qed.

Lemma wordBody_lexChar (input : list ascii) (j : nat) (c : ascii) :
  input !! j = Some c -> lexChar c = true ->
  wordBody input j = Some (inl (j + 1)).
Proof.
  intros Hc Hl. apply lexChar_inv in Hl as (H1 & H2 & H3 & H4 & H5 & H6 & H7 & H8).
  unfold wordBody. rewrite Hc, H1, H2, H3, H4, H5, H6, H7, H8. reflexivity.
Qed.

Lemma wordBody_end (input : list ascii) (j : nat) :
  input !! j = None \/ input !! j = Some " "%char ->
  wordBody input j = Some (inr j).
Proof. unfold wordBody. intros [->| ->]; reflexivity. Qed.

Lemma scanWord_lexWord (input : list ascii) (i : nat) (w tail : list ascii) :
  drop i input = w ++ tail -> forallb lexChar w = true -> endsWord tail ->
  scanWord input i = Some (i + length w).
Proof.
  intros Hd Hw Ht. unfold scanWord.
  destruct (while_total (wordBody input)
              (fun j => i <= j <= i + length w) (fun r => r = i + length w)
              (fun j => length input - j))
    with (fuel := S (length input)) (s := i) as (r & Hr & ->); [| lia | lia | exact Hr].
  intros j Hj. destruct (decide (j < i + length w)) as [Hlt|Hge].
  - assert (exists c, input !! j = Some c /\ lexChar c = true) as (c & Hc & Hl).
    { replace j with (i + (j - i)) by lia.
      rewrite (lookup_in_drop input i (j - i) _ Hd), lookup_app_l by lia.
      destruct (w !! (j - i)) as [c|] eqn:Hc.
      - exists c. split; [reflexivity|]. rewrite forallb_forall in Hw.
        apply Hw, list_elem_of_In. eapply list_elem_of_lookup_2, Hc.
      - apply lookup_ge_None in Hc. lia. }
    rewrite (wordBody_lexChar input j c Hc Hl).
    apply lookup_lt_Some in Hc. lia.
  - assert (j = i + length w) as -> by lia.
    rewrite wordBody_end; [reflexivity|].
    rewrite (lookup_in_drop input i (length w) _ Hd), lookup_app_r by lia.
    rewrite Nat.sub_diag. apply endsWord_lookup, Ht.
Qed.

(** A run of digits inside a word is not followed by [>]. *)
Lemma digits_not_redirection (w tail : list ascii) :
  forallb lexChar w = true -> endsWord tail ->
  charIs ">" ((w ++ tail) !! scanWhile isDigit (w ++ tail)) = false.
Proof.
  intros Hw Ht. induction w as [|c w IH].
  - simpl. destruct Ht as [->|[tail' ->]]; reflexivity.
  - simpl in Hw. apply andb_prop in Hw as [Hc Hw]. simpl.
    destruct (isDigit c).
    + simpl. apply IH, Hw.
    + simpl. apply lexChar_inv in Hc as (_ & _ & _ & Hgt & _). exact Hgt.
Qed.

Lemma lexFd_lexWord (input : list ascii) (tokens : list Token) (i : nat)
    (w tail : list ascii) :
  drop i input = w ++ tail -> forallb lexChar w = true -> endsWord tail ->
  lexFd input tokens i = None.
Proof.
  intros Hd Hw Ht. unfold lexFd.
  rewrite (lookup_in_drop input i _ _ Hd), Hd.
  rewrite (digits_not_redirection w tail Hw Ht). reflexivity.
Qed.

Lemma slice_in_drop (input : list ascii) (i : nat) (w tail : list ascii) :
  drop i input = w ++ tail -> slice input i (i + length w) = w.
Proof.
  intros Hd. unfold slice. rewrite Hd.
  replace (i + length w - i) with (length w) by lia. apply take_app_length.
Qed.

Lemma lexBody_word (input : list ascii) (tokens : list Token) (i : nat)
    (w tail : list ascii) :
  drop i input = w ++ tail -> lexWord w = true -> endsWord tail ->
  lexBody input (i, tokens) =
    Some (inl (i + length w, tokens ++ [itemToken i (IWord w)])).
Proof.
  intros Hd Hw Ht. destruct w as [|c w]; [discriminate|].
  unfold lexWord in Hw.
  pose proof (scanWord_lexWord input i (c :: w) tail Hd Hw Ht) as Hscan.
  pose proof (lexFd_lexWord input tokens i (c :: w) tail Hd Hw Ht) as Hfd.
  pose proof (slice_in_drop input i (c :: w) tail Hd) as Hsl.
  assert (input !! i = Some c) as Hc.
  { replace i with (i + 0) by lia. rewrite (lookup_in_drop input i 0 _ Hd).
    reflexivity. }
  simpl in Hw. apply andb_prop in Hw as [Hl _].
  apply lexChar_inv in Hl as (H1 & H2 & H3 & H4 & H5 & _).
  unfold lexBody. rewrite Hc, H1, H2, H5, Hfd, H4, H3, Hscan.
  cbn [andb]. destruct (isDigit c); unfold pushToken; rewrite Hsl; reflexivity.
Qed.

Lemma lexBody_pipe (input : list ascii) (tokens : list Token) (i : nat)
    (tail : list ascii) :
  drop i input = "|"%char :: tail ->
  lexBody input (i, tokens) =
    Some (inl (i + 1, tokens ++ [itemToken i IPipe])).
Proof.
  intros Hd.
  assert (input !! i = Some "|"%char) as Hc.
  { replace i with (i + 0) by lia. rewrite (lookup_in_drop input i 0 _ Hd).
    reflexivity. }
  unfold lexBody. rewrite Hc.
  transitivity (Some (inl (i + 1, pushToken input tokens TokenKind.Pipe i (i + 1) None))
                : option (nat * list Token + list Token)); [reflexivity|].
  pose proof (slice_in_drop input i ["|"%char] tail Hd) as Hsl.
  cbn [length] in Hsl. unfold pushToken. rewrite Hsl. reflexivity.
Qed.

Lemma lexBody_space (input : list ascii) (tokens : list Token) (i : nat)
    (tail : list ascii) :
  drop i input = " "%char :: tail ->
  lexBody input (i, tokens) = Some (inl (i + 1, tokens)).
Proof.
  intros Hd.
  assert (input !! i = Some " "%char) as Hc.
  { replace i with (i + 0) by lia. rewrite (lookup_in_drop input i 0 _ Hd).
    reflexivity. }
  unfold lexBody. rewrite Hc. reflexivity.
Qed.

Lemma lexBody_item (input : list ascii) (tokens : list Token) (i : nat)
    (x : Item) (tail : list ascii) :
  drop i input = itemText x ++ tail -> itemOk x = true -> endsWord tail ->
  lexBody input (i, tokens) =
    Some (inl (i + length (itemText x), tokens ++ [itemToken i x])).
Proof.
  destruct x as [w|]; simpl; intros Hd Hok Ht.
  - apply (lexBody_word input tokens i w tail); assumption.
  - apply (lexBody_pipe input tokens i tail Hd).
Qed.

Lemma drop_further (input : list ascii) (i k : nat) (l tail : list ascii) :
  drop i input = l ++ tail -> k = length l -> drop (i + k) input = tail.
Proof.
  intros Hd ->. rewrite <- drop_drop, Hd. apply drop_app_length.
Qed.

Lemma itemText_length (x : Item) : itemOk x = true -> 0 < length (itemText x).
Proof. destruct x as [[|c w]|]; simpl; intros H; try discriminate; lia. Qed.

Lemma lex_items (items : list Item) :
  forall (input : list ascii) (i : nat) (toks : list Token) (fuel : nat),
    drop i input = renderItems items ->
    forallb itemOk items = true ->
    length (renderItems items) < fuel ->
    while (lexBody input) fuel (i, toks) = Some (toks ++ itemTokens i items).
Proof.
  induction items as [|x rest IH]; intros input i toks fuel Hd Hok Hf.
  - destruct fuel as [|fuel]; [lia|]. apply while_exit. unfold lexBody.
    assert (input !! i = None) as ->.
    { replace i with (i + 0) by lia. rewrite (lookup_in_drop input i 0 _ Hd).
      reflexivity. }
    simpl. rewrite app_nil_r. reflexivity.
  - simpl in Hok. apply andb_prop in Hok as [Hx Hrest].
    pose proof (itemText_length x Hx) as Hlen.
    destruct rest as [|y rest'].
    + simpl in Hd, Hf.
      destruct fuel as [|fuel]; [lia|].
      rewrite (while_continue _ _ _ _
                 (lexBody_item input toks i x []
                    ltac:(rewrite app_nil_r; exact Hd) Hx (or_introl eq_refl))).
      destruct fuel as [|fuel]; [lia|]. apply while_exit. unfold lexBody.
      assert (input !! (i + length (itemText x)) = None) as ->.
      { rewrite (lookup_in_drop input i _ _ Hd). apply lookup_ge_None. lia. }
      reflexivity.
    + change (renderItems (x :: y :: rest'))
        with (itemText x ++ " "%char :: renderItems (y :: rest')) in Hd, Hf.
      rewrite length_app in Hf. cbn [length] in Hf.
      destruct fuel as [|fuel]; [lia|].
      rewrite (while_continue _ _ _ _
                 (lexBody_item input toks i x _ Hd Hx
                    (or_intror (ex_intro _ _ eq_refl)))).
      pose proof (drop_further input i _ _ _ Hd eq_refl) as Hd1.
      destruct fuel as [|fuel]; [lia|].
      rewrite (while_continue _ _ _ _ (lexBody_space input _ _ _ Hd1)).
      pose proof (drop_further input _ 1 [" "%char] _ Hd1 eq_refl) as Hd2.
      rewrite (IH input _ _ fuel Hd2 Hrest ltac:(lia)).
      rewrite <- app_assoc. reflexivity.
Qed.

Lemma lex_renderItems (items : list Item) :
  forallb itemOk items = true ->
  lex (renderItems items) =
    Some (itemTokens 0 items ++ [eofToken (renderItems items)]).
Proof.
  intros Hok. unfold lex.
  rewrite (lex_items items (renderItems items) 0 [] _ eq_refl Hok
             (Nat.lt_succ_diag_r _)).
  unfold pushToken, eofToken, slice. rewrite Nat.sub_diag, take_0. reflexivity.
Qed.

(** ** Parsing runs of Word tokens separated by pipes *)

Lemma lookup_in_drop_gen {A : Type} (l : list A) (i k : nat) (r : list A) :
  drop i l = r -> l !! (i + k) = r !! k.
Proof. intros <-. rewrite lookup_drop. reflexivity. Qed.

Lemma peekTok_in_drop (T : list Token) (idx : nat) (t : Token) (r : list Token) :
  drop idx T = t :: r -> peekTok T idx 0 = Some t.
Proof.
  intros Hd. unfold peekTok. rewrite (lookup_in_drop_gen T idx 0 _ Hd). reflexivity.
Qed.

Lemma drop_length_eq {A : Type} (l : list A) (i : nat) (r : list A) :
  drop i l = r -> r <> [] -> length l = i + length r.
Proof.
  intros <- Hne. rewrite length_drop.
  destruct (decide (i <= length l)); [lia|].
  rewrite drop_ge in Hne by lia. contradiction.
Qed.

Lemma drop_further_gen {A : Type} (input : list A) (i k : nat) (l tail : list A) :
  drop i input = l ++ tail -> k = length l -> drop (i + k) input = tail.
Proof.
  intros Hd ->. rewrite <- drop_drop, Hd. apply drop_app_length.
Qed.

Lemma parseCommand_segment (T : list Token) (idx : nat) (s : list Token)
    (tk : Token) (rest : list Token) :
  drop idx T = s ++ tk :: rest ->
  Forall isWordToken s ->
  kind tk = TokenKind.Pipe \/ kind tk = TokenKind.EOF ->
  exists c, parseCommand T idx = Some (c, idx + length s) /\ commandOf c s.
Proof.
  intros Hd Hs Htk.
  assert (length T = idx + length (s ++ tk :: rest)) as Hlen
    by (apply drop_length_eq; [exact Hd|destruct s; discriminate]).
  rewrite length_app in Hlen. cbn [length] in Hlen.
  assert (forall k, peekTok T (idx + k) 0 = (s ++ tk :: rest) !! k \/
                    length s < k) as Hpeek.
  { intros k. destruct (decide (k <= length s)); [left|right; lia].
    unfold peekTok. rewrite Nat.add_0_r, (lookup_in_drop_gen T idx k _ Hd).
    destruct ((s ++ tk :: rest) !! k) eqn:E; [reflexivity|].
    apply lookup_ge_None in E. rewrite length_app in E. simpl in E. lia. }
  unfold parseCommand.
  destruct (Hpeek 0) as [H0|H0]; [|lia]. rewrite Nat.add_0_r in H0. rewrite H0.
  destruct ((s ++ tk :: rest) !! 0) as [tk0|] eqn:E0.
  2:{ apply lookup_ge_None in E0. rewrite length_app in E0. simpl in E0. lia. }
  destruct (while_total (parseCommandBody T)
              (fun st => exists k, st.1.1 = idx + k /\ k <= length s /\
                                   st.2 = [] /\ Forall2 madeFrom st.1.2 (take k s))
              (fun r => r.1.1 = idx + length s /\ r.2 = [] /\
                        Forall2 madeFrom r.1.2 s)
              (fun st => length T - st.1.1))
    with (fuel := S (length T)) (s := (idx, @nil Word, @nil Redirection))
    as ([[j ws] rs] & -> & Hj & Hrs & Hws).
  - intros [[j ws] rs] (k & Hj & Hk & Hrs & Hws). simpl in Hj, Hrs, Hws. subst j rs.
    unfold parseCommandBody.
    destruct (Hpeek k) as [Hp|Hp]; [|lia]. rewrite Hp.
    destruct (decide (k < length s)) as [Hlt|Hge].
    + rewrite lookup_app_l by lia.
      destruct (s !! k) as [t|] eqn:Ht; [|apply lookup_ge_None in Ht; lia].
      assert (kind t = TokenKind.Word) as ->.
      { rewrite Forall_forall in Hs. apply Hs. eapply list_elem_of_lookup_2, Ht. }
      destruct (makeWord_total (text t) (tstart t)) as (ps & _ & Hmw).
      rewrite Hmw. simpl. split; [|lia].
      exists (S k). repeat split; try lia.
      rewrite (take_S_r _ _ _ Ht). apply Forall2_app; [exact Hws|].
      constructor; [exact Hmw|constructor].
    + assert (k = length s) as -> by lia.
      rewrite lookup_app_r, Nat.sub_diag by lia. simpl.
      rewrite take_ge in Hws by lia.
      destruct Htk as [-> | ->]; simpl; auto.
  - exists 0. simpl. repeat split; try lia. constructor.
  - simpl. lia.
  - simpl in Hj, Hrs, Hws. subst j rs.
    destruct (Hpeek (length s)) as [Hp|Hp]; [|lia]. rewrite Hp.
    rewrite lookup_app_r, Nat.sub_diag by lia. simpl.
    eexists. split; [reflexivity|]. split; [exact Hws|reflexivity].
Qed.

Lemma parseBody_segment_pipe (T : list Token) (idx : nat) (s : list Token)
    (p : Token) (rest : list Token) (acc : list Command) :
  drop idx T = s ++ p :: rest -> Forall isWordToken s -> kind p = TokenKind.Pipe ->
  exists c, parseBody T (idx, acc) = Some (inl (idx + length s + 1, acc ++ [c]))
            /\ commandOf c s.
Proof.
  intros Hd Hs Hp.
  destruct (parseCommand_segment T idx s p rest Hd Hs (or_introl Hp))
    as (c & Hc & Hof).
  exists c. split; [|exact Hof]. unfold parseBody.
  assert (exists t, peekTok T idx 0 = Some t /\ kind t <> TokenKind.EOF)
    as (t & -> & Ht).
  { destruct s as [|t s'].
    - exists p. split; [eapply peekTok_in_drop, Hd|congruence].
    - exists t. split; [eapply peekTok_in_drop, Hd|].
      inversion Hs; subst. unfold isWordToken in *. congruence. }
  replace (TokenKind.eqb (kind t) TokenKind.EOF) with false
    by (destruct (kind t); try reflexivity; contradiction).
  rewrite Hc.
  pose proof (drop_further_gen T idx (length s) s (p :: rest) Hd eq_refl) as Hd'.
  rewrite (peekTok_in_drop T _ p rest Hd'), Hp. reflexivity.
Qed.

Lemma parseBody_segment_last (T : list Token) (idx : nat) (s : list Token)
    (e : Token) (acc : list Command) :
  drop idx T = s ++ [e] -> Forall isWordToken s -> s <> [] ->
  kind e = TokenKind.EOF ->
  exists c, parseBody T (idx, acc) = Some (inr (idx + length s, acc ++ [c]))
            /\ commandOf c s.
Proof.
  intros Hd Hs Hne He.
  destruct (parseCommand_segment T idx s e [] Hd Hs (or_intror He))
    as (c & Hc & Hof).
  exists c. split; [|exact Hof]. unfold parseBody.
  destruct s as [|t s']; [contradiction|].
  rewrite (peekTok_in_drop T idx t _ Hd).
  inversion Hs as [|? ? Ht _]; subst. unfold isWordToken in Ht. rewrite Ht.
  cbn [TokenKind.eqb]. rewrite Hc.
  pose proof (drop_further_gen T idx (length (t :: s')) (t :: s') [e] Hd eq_refl)
    as Hd'.
  rewrite (peekTok_in_drop T _ e [] Hd'), He. reflexivity.
Qed.

Lemma parseLoop_segments (l : list Token) (segs : list (list Token)) :
  Segments l segs ->
  forall (T : list Token) (idx : nat) (acc : list Command) (fuel : nat),
    drop idx T = l -> length segs <= fuel ->
    exists cs e,
      while (parseBody T) fuel (idx, acc) = Some (length T - 1, acc ++ cs) /\
      Forall2 commandOf cs segs /\
      last T = Some e /\ kind e = TokenKind.EOF.
Proof.
  induction 1 as [s e Hs Hne He|s p l segs Hs Hp Hseg IH];
    intros T idx acc fuel Hd Hf.
  - destruct fuel as [|fuel]; [simpl in Hf; lia|].
    destruct (parseBody_segment_last T idx s e acc Hd Hs Hne He) as (c & Hb & Hc).
    exists [c], e. rewrite (while_exit _ _ _ _ Hb).
    assert (length T = idx + length (s ++ [e])) as Hlen
      by (apply drop_length_eq; [exact Hd|destruct s; discriminate]).
    rewrite length_app in Hlen. simpl in Hlen.
    split; [do 2 f_equal; lia|]. split; [constructor; [exact Hc|constructor]|].
    split; [|exact He].
    rewrite <- (take_drop idx T), Hd, app_assoc. apply last_snoc.
  - destruct fuel as [|fuel]; [simpl in Hf; lia|].
    destruct (parseBody_segment_pipe T idx s p l acc Hd Hs Hp) as (c & Hb & Hc).
    rewrite (while_continue _ _ _ _ Hb).
    pose proof (drop_further_gen T idx (length s + 1) (s ++ [p]) l
                  ltac:(rewrite <- app_assoc; exact Hd)
                  ltac:(rewrite length_app; reflexivity)) as Hd'.
    rewrite <- Nat.add_assoc.
    destruct (IH T (idx + (length s + 1)) (acc ++ [c]) fuel Hd' ltac:(simpl in Hf; lia))
      as (cs & e & Hw & Hcs & Hlast).
    exists (c :: cs), e. rewrite Hw, <- app_assoc.
    split; [reflexivity|]. split; [constructor; assumption|exact Hlast].
Qed.

Lemma parseTokens_segments (T : list Token) (segs : list (list Token)) :
  Segments T segs ->
  exists cs e,
    parseTokens T = Some (mkPipeline cs (makeSpan 0 (tend e))) /\
    Forall2 commandOf cs segs /\ last T = Some e.
Proof.
  intros Hseg.
  assert (length segs <= S (length T)) as Hf.
  { induction Hseg as [s e|s p l segs _ _ _ IH]; simpl.
    - lia.
    - rewrite length_app. simpl. lia. }
  destruct (parseLoop_segments T segs Hseg T 0 [] (S (length T)) eq_refl Hf)
    as (cs & e & Hw & Hcs & Hlast & He).
  exists cs, e. unfold parseTokens. rewrite Hw.
  assert (peekTok T (length T - 1) 0 = Some e) as ->.
  { unfold peekTok. rewrite Nat.add_0_r.
    rewrite last_lookup in Hlast.
    replace (length T - 1) with (pred (length T)) by lia. rewrite Hlast.
    reflexivity. }
  auto.
Qed.

(** ** Words that need no quoting *)

Lemma scanWhile_all (p : ascii -> bool) (l : list ascii) :
  forallb p l = true -> scanWhile p l = length l.
Proof.
  induction l as [|c l IH]; [reflexivity|]. simpl. intros H.
  apply andb_prop in H as [Hc Hl]. rewrite Hc, IH by assumption. reflexivity.
Qed.

Lemma while_exit_pos {St Res : Type} (body : St -> option (St + Res))
    (fuel : nat) (s : St) (r : Res) :
  0 < fuel -> body s = Some (inr r) -> while body fuel s = Some r.
Proof. destruct fuel; [lia|]. intros _. apply while_exit. Qed.

Lemma plainWord_inv (w : list ascii) :
  plainWord w = true ->
  w <> [] /\ forallb lexChar w = true /\
  forallb (fun c => negb (isSpecial c)) w = true.
Proof.
  unfold plainWord, lexWord. intros H. apply andb_prop in H as [Hl Hd].
  destruct w as [|c w]; [discriminate|]. split; [discriminate|].
  split; [exact Hl|]. apply forallb_forall. intros x Hx.
  rewrite forallb_forall in Hl, Hd. specialize (Hl x Hx). specialize (Hd x Hx).
  apply lexChar_inv in Hl as (_ & _ & _ & _ & _ & Hsq & Hdq & Hbs).
  apply negb_true_iff in Hd. unfold isSpecial. rewrite Hsq, Hdq, Hbs, Hd.
  reflexivity.
Qed.

Lemma split_unquoted (raw : list ascii) (base : nat) :
  raw <> [] -> forallb (fun c => negb (isSpecial c)) raw = true ->
  splitWordIntoParts raw base =
    Some [Text raw (makeSpan (base + 0) (base + length raw))].
Proof.
  intros Hne Hraw. destruct raw as [|c raw]; [contradiction|].
  assert (isSpecial c = false) as Hc1
    by (cbn [forallb] in Hraw; apply andb_prop in Hraw as [Hc _];
        apply negb_true_iff in Hc; exact Hc).
  assert ((c :: raw) !! 0 = Some c) as Hw0 by reflexivity.
  remember (c :: raw) as w eqn:Hw. clear Hw raw.
  assert (splitBody w base (0, []) =
          Some (inl (length w,
                     [Text w (makeSpan (base + 0) (base + length w))]))) as Hstep.
  { transitivity
      (let i := 0 + scanWhile (fun c => negb (isSpecial c)) (drop 0 w) in
       Some (inl (i, if 0 <? i then pushText base [] (slice w 0 i) 0 i else []))
       : option (nat * list Part + list Part)).
    - unfold splitBody. rewrite Hw0.
      pose proof Hc1 as Hc. unfold isSpecial in Hc.
      do 3 (apply orb_false_elim in Hc as [Hc ?]).
      cbv iota beta.
      repeat match goal with H : Ascii.eqb c _ = false |- _ => rewrite H; clear H end.
      reflexivity.
    - rewrite drop_0, (scanWhile_all _ w Hraw). cbv zeta.
      rewrite Nat.add_0_l, slice_all. destruct w; [contradiction|reflexivity]. }
  unfold splitWordIntoParts.
  rewrite (while_continue _ _ _ _ Hstep).
  rewrite (while_exit_pos _ _ _ [Text w (makeSpan (base + 0) (base + length w))]).
  - reflexivity.
  - destruct w; [contradiction|simpl; lia].
  - unfold splitBody. rewrite (lookup_ge_None_2 w (length w)) by lia. reflexivity.
Qed.

Lemma makeWord_plain {Other : Type} (toStr : Other -> list ascii)
    (ctx : Ctx Other) (w : list ascii) (off : nat) (w' : Word) :
  plainWord w = true -> makeWord w off = Some w' ->
  parts w' = [Text w (makeSpan (off + 0) (off + length w))] /\
  expandWord toStr w' ctx = w.
Proof.
  intros Hp. apply plainWord_inv in Hp as (Hne & _ & Hsp).
  unfold makeWord. rewrite (split_unquoted w off Hne Hsp).
  intros H. injection H as <-. split; reflexivity.
Qed.

(** ** From argument vectors to text and back *)

Lemma itemTokens_app (a b : list Item) (i : nat) :
  exists i', itemTokens i (a ++ b) = itemTokens i a ++ itemTokens i' b.
Proof.
  revert i. induction a as [|x a IH]; intros i.
  - exists i. reflexivity.
  - destruct (IH (i + length (itemText x) + 1)) as [i' Hi'].
    exists i'. simpl. rewrite Hi'. reflexivity.
Qed.

Lemma itemTokens_words (c : list (list ascii)) (i : nat) :
  Forall isWordToken (itemTokens i (map IWord c)) /\
  Forall2 tokenOfWord (itemTokens i (map IWord c)) c.
Proof.
  revert i. induction c as [|w c IH]; intros i; simpl.
  - split; constructor.
  - destruct (IH (i + length w + 1)) as [H1 H2].
    split; constructor; try assumption; [reflexivity|split; reflexivity].
Qed.

Lemma pipeline_segments (cmds : list (list (list ascii))) :
  cmds <> [] -> lastNonEmpty cmds = true ->
  forall (i : nat) (e : Token), kind e = TokenKind.EOF ->
    exists segs,
      Segments (itemTokens i (pipelineItems cmds) ++ [e]) segs /\
      Forall2 (Forall2 tokenOfWord) segs cmds.
Proof.
  induction cmds as [|c cmds IH]; [contradiction|]. intros _ Hlast i e He.
  destruct cmds as [|c' cmds'].
  - destruct (itemTokens_words c i) as [H1 H2].
    exists [itemTokens i (map IWord c)]. split.
    + apply Segments_last; [exact H1| |exact He].
      destruct c; [discriminate|discriminate].
    + constructor; [exact H2|constructor].
  - change (pipelineItems (c :: c' :: cmds'))
      with (map IWord c ++ IPipe :: pipelineItems (c' :: cmds')).
    destruct (itemTokens_app (map IWord c) (IPipe :: pipelineItems (c' :: cmds')) i)
      as [i' ->].
    destruct (itemTokens_words c i) as [H1 H2].
    destruct (IH ltac:(discriminate) Hlast (i' + length (itemText IPipe) + 1) e He)
      as (segs & Hseg & Hall).
    exists (itemTokens i (map IWord c) :: segs). split.
    + rewrite <- app_assoc. apply Segments_pipe; [exact H1|reflexivity|exact Hseg].
    + constructor; assumption.
Qed.

Lemma itemOk_pipeline (cmds : list (list (list ascii))) :
  forallb (forallb plainWord) cmds = true ->
  forallb itemOk (pipelineItems cmds) = true.
Proof.
  assert (forall c, forallb plainWord c = true ->
                    forallb itemOk (map IWord c) = true) as Hc.
  { induction c as [|w c IH]; [reflexivity|]. simpl. intros H.
    apply andb_prop in H as [Hw Hc]. rewrite (IH Hc), andb_true_r.
    unfold plainWord in Hw. apply andb_prop in Hw as [Hw _]. exact Hw. }
  induction cmds as [|c cmds IH]; [reflexivity|]. simpl. intros H.
  apply andb_prop in H as [H1 H2].
  destruct cmds as [|c' cmds']; [apply Hc, H1|].
  rewrite forallb_app, (Hc c H1). simpl. apply IH, H2.
Qed.

Lemma commandOf_argv {Other : Type} (toStr : Other -> list ascii)
    (ctx : Ctx Other) (c : Command) (s : list Token)
    (ws : list (list ascii)) :
  commandOf c s -> Forall2 tokenOfWord s ws -> forallb plainWord ws = true ->
  buildArgv toStr c ctx = ws.
Proof.
  intros [Hw _]. unfold buildArgv. revert ws.
  induction Hw as [|w' t ws' s' Hm _ IH]; intros ws Hs Hp.
  - inversion Hs; subst. reflexivity.
  - inversion Hs as [|? w ? ws0 [_ Ht] Hs']; subst.
    simpl in Hp. apply andb_prop in Hp as [Hpw Hpws].
    simpl. rewrite (IH ws0 Hs' Hpws).
    destruct (makeWord_plain toStr ctx (text t) (tstart t) w' Hpw Hm) as [_ ->].
    reflexivity.
Qed.

(** X6: rendering and parsing are inverse on argument vectors.  Take a
    pipeline as the list of its commands' argument vectors, every word made
    of characters that need no quoting (no whitespace, [|], [<], [>], [&],
    quote, backslash or [$]) and the last command not empty; write the words
    of a command separated by a space and the commands by [|] between
    spaces.  [parse] of this text has exactly these commands: in every
    context [buildArgv] gives back each argument vector, and no command has
    a redirection. *)
Theorem parse_render_roundtrip {Other : Type} (toStr : Other -> list ascii)
    (ctx : Ctx Other) (cmds : list (list (list ascii))) :
  forallb (forallb plainWord) cmds = true ->
  lastNonEmpty cmds = true ->
  exists p,
    parse (renderPipeline cmds) = Some p /\
    map (fun c => buildArgv toStr c ctx) (commands p) = cmds /\
    Forall (fun c => redirections c = []) (commands p).
Proof.
  intros Hplain Hlast. destruct cmds as [|c0 cmds0] eqn:Hcmds.
  { eexists. split; [vm_compute; reflexivity|]. split; [reflexivity|constructor]. }
  rewrite <- Hcmds in *. assert (cmds <> []) as Hne by (subst; discriminate).
  clear Hcmds c0 cmds0.
  unfold parse, renderPipeline.
  rewrite (lex_renderItems _ (itemOk_pipeline cmds Hplain)).
  set (e := eofToken (renderItems (pipelineItems cmds))).
  destruct (pipeline_segments cmds Hne Hlast 0 e eq_refl) as (segs & Hseg & Hall).
  destruct (parseTokens_segments _ segs Hseg) as (cs & e' & -> & Hcs & _).
  eexists. split; [reflexivity|]. simpl. clear Hseg Hlast Hne. clearbody e.
  revert cmds segs Hplain Hall Hcs.
  induction cs as [|c cs IH]; intros cmds segs Hplain Hall Hcs.
  - inversion Hcs; subst. inversion Hall; subst. split; [reflexivity|constructor].
  - inversion Hcs as [|? s ? segs' Hc Hcs']; subst.
    inversion Hall as [|? ws ? cmds' Hs Hall']; subst.
    simpl in Hplain. apply andb_prop in Hplain as [Hp Hps].
    destruct (IH cmds' segs' Hps Hall' Hcs') as [IH1 IH2].
    simpl. rewrite IH1, (commandOf_argv toStr ctx c s ws Hc Hs Hp).
    split; [reflexivity|]. constructor; [apply Hc|exact IH2].
Qed.

Lemma parse_render_roundtrip_witness :
  let cmds := [[js "grep"; js "-i"; js "error"; js "app.log"]; [js "wc"; js "-l"]] in
  forallb (forallb plainWord) cmds = true /\
  lastNonEmpty cmds = true /\
  exists p,
    parse (renderPipeline cmds) = Some p /\
    map (fun c => buildArgv jsObjectText
                    c (objectLiteral ∅)) (commands p) = cmds /\
    Forall (fun c => redirections c = []) (commands p).
Proof.
  intros cmds. split; [reflexivity|]. split; [reflexivity|].
  apply (parse_render_roundtrip
           jsObjectText (objectLiteral ∅) cmds);
    reflexivity.
Defined.

(** ** An input that is one Word token *)

Lemma lexBody_startsWord (input : list ascii) (c : ascii) (w : nat) :
  input !! 0 = Some c -> startsWord c = true -> scanWord input 0 = Some w ->
  lexBody input (0, []) =
    Some (inl (w, [mkToken TokenKind.Word (slice input 0 w) 0 w None])).
Proof.
  intros Hc Hs Hw. unfold startsWord in Hs. apply negb_true_iff in Hs.
  apply orb_false_elim in Hs as [Hs H6]. apply orb_false_elim in Hs as [Hs H5].
  apply orb_false_elim in Hs as [Hs H4]. apply orb_false_elim in Hs as [Hs H3].
  apply orb_false_elim in Hs as [H1 H2].
  unfold lexBody. rewrite Hc, H1, H2, H3, H4, H5, H6, Hw. reflexivity.
Qed.

Lemma slice_past (s : list ascii) (n : nat) : length s <= n -> slice s 0 n = s.
Proof. intros H. unfold slice. rewrite Nat.sub_0_r, drop_0. apply take_ge, H. Qed.

Lemma lex_one_word (input : list ascii) (c : ascii) (w : nat) :
  input !! 0 = Some c -> startsWord c = true -> scanWord input 0 = Some w ->
  length input <= w ->
  lex input = Some [mkToken TokenKind.Word input 0 w None; eofToken input].
Proof.
  intros Hc Hs Hw Hlen. unfold lex.
  pose proof (lookup_lt_Some _ _ _ Hc) as Hpos.
  rewrite (while_continue _ _ _ _ (lexBody_startsWord input c w Hc Hs Hw)).
  rewrite (while_exit_pos _ _ _ [mkToken TokenKind.Word (slice input 0 w) 0 w None]).
  - unfold pushToken, eofToken, slice at 2. rewrite Nat.sub_diag, take_0.
    rewrite (slice_past input w Hlen). reflexivity.
  - exact Hpos.
  - unfold lexBody. rewrite (lookup_ge_None_2 input w Hlen). reflexivity.
Qed.

Lemma parse_one_word (input : list ascii) (c : ascii) (w : nat) (word : Word) :
  input !! 0 = Some c -> startsWord c = true -> scanWord input 0 = Some w ->
  length input <= w -> makeWord input 0 = Some word ->
  exists sp1 sp2, parse input = Some (mkPipeline [mkCommand [word] [] sp1] sp2) /\
                  word_of input = Some word.
Proof.
  intros Hc Hs Hw Hlen Hm.
  assert (parse input =
          Some (mkPipeline [mkCommand [word] [] (makeSpan 0 (length input))]
                  (makeSpan 0 (length input)))) as Hp.
  { unfold parse. rewrite (lex_one_word input c w Hc Hs Hw Hlen).
    apply (parseTokens_single_word input 0 w (eofToken input) word eq_refl Hm). }
  do 2 eexists. split; [exact Hp|]. unfold word_of. rewrite Hp. reflexivity.
Qed.

Lemma parse_lexWord (w : list ascii) (word : Word) :
  lexWord w = true -> makeWord w 0 = Some word ->
  exists sp1 sp2, parse w = Some (mkPipeline [mkCommand [word] [] sp1] sp2) /\
                  word_of w = Some word.
Proof.
  intros Hw Hm.
  assert (parse w =
          Some (mkPipeline [mkCommand [word] [] (makeSpan 0 (length w))]
                  (makeSpan 0 (length w)))) as Hp.
  { unfold parse.
    change w with (renderItems [IWord w]) at 1.
    rewrite (lex_renderItems [IWord w]) by (simpl; rewrite Hw; reflexivity).
    cbn [itemTokens itemToken app renderItems itemText].
    apply (parseTokens_single_word w 0 (0 + length w) (eofToken w) word eq_refl Hm). }
  do 2 eexists. split; [exact Hp|]. unfold word_of. rewrite Hp. reflexivity.
Qed.

(** ** Variable references *)

Ltac ascii_cases c :=
  destruct c as [[] [] [] [] [] [] [] []]; vm_compute;
  intros; try discriminate; repeat split; reflexivity.

Lemma isVarChar_facts (c : ascii) :
  isVarChar c = true ->
  lexChar c = true /\ Ascii.eqb c "}" = false /\ Ascii.eqb c dollar = false.
Proof. ascii_cases c. Qed.

Lemma isVarStart_facts (c : ascii) :
  isVarStart c = true -> Ascii.eqb c "{" = false /\ isVarChar c = true.
Proof. ascii_cases c. Qed.

Lemma validName_inv (n : list ascii) :
  validName n = true ->
  exists c n', n = c :: n' /\ isVarStart c = true /\
               forallb isVarChar n' = true /\ forallb isVarChar n = true.
Proof.
  destruct n as [|c n']; [discriminate|]. simpl. intros H.
  apply andb_prop in H as [Hc Hn]. exists c, n'.
  destruct (isVarStart_facts c Hc) as [_ Hc']. rewrite Hc'. auto.
Qed.

Lemma forallb_impl_facts (p q : ascii -> bool) (l : list ascii) :
  (forall c, p c = true -> q c = true) -> forallb p l = true -> forallb q l = true.
Proof.
  intros Hpq H. apply forallb_forall. intros x Hx.
  rewrite forallb_forall in H. apply Hpq, H, Hx.
Qed.

Lemma scanWhile_until (c : ascii) (s rest : list ascii) :
  forallb (notChar c) s = true ->
  scanWhile (notChar c) (s ++ c :: rest) = length s.
Proof.
  induction s as [|x s IH]; intros Hs.
  - simpl. unfold notChar. rewrite Ascii.eqb_refl. reflexivity.
  - simpl in Hs. apply andb_prop in Hs as [Hx Hs].
    simpl. rewrite Hx, IH by assumption. reflexivity.
Qed.

Lemma splitBody_dollar (raw : list ascii) (base i : nat) (ps : list Part) :
  raw !! i = Some dollar ->
  splitBody raw base (i, ps) = Some (inl (parseVar base raw 0 ps i)).
Proof. intros H. unfold splitBody. rewrite H. reflexivity. Qed.

Lemma splitBody_end (raw : list ascii) (base i : nat) (ps : list Part) :
  length raw <= i -> splitBody raw base (i, ps) = Some (inr ps).
Proof.
  intros H. unfold splitBody. rewrite (lookup_ge_None_2 raw i H). reflexivity.
Qed.

Lemma split_unbraced (n : list ascii) (base : nat) :
  validName n = true ->
  exists sp, splitWordIntoParts (dollar :: n) base = Some [Var n false sp].
Proof.
  intros Hn. destruct (validName_inv n Hn) as (c & n' & -> & Hc & Hn' & _).
  destruct (isVarStart_facts c Hc) as [Hbrace _].
  assert (parseVar base (dollar :: c :: n') 0 [] 0 =
          (2 + length n',
           [Var (c :: n') false
              (makeSpan (base + (0 + 0)) (base + (0 + (0 + 2 + length n'))))]))
    as Hpv.
  { unfold parseVar. change ((dollar :: c :: n') !! (0 + 1)) with (Some c).
    cbn [charIs at_]. rewrite Hbrace, Hc.
    change (drop (0 + 2) (dollar :: c :: n')) with n'.
    rewrite (scanWhile_all isVarChar n' Hn'). unfold pushVar, slice.
    change (drop (0 + 1) (dollar :: c :: n')) with (c :: n').
    rewrite take_ge by (simpl; lia). reflexivity. }
  eexists. unfold splitWordIntoParts.
  rewrite (while_continue _ _ _ _
             (splitBody_dollar (dollar :: c :: n') base 0 [] eq_refl)), Hpv.
  erewrite while_exit_pos; cycle 1;
    [simpl; lia|apply splitBody_end; simpl; lia|reflexivity].
Qed.

Lemma split_braced (n : list ascii) (base : nat) :
  forallb (notChar "}") n = true ->
  exists sp,
    splitWordIntoParts (dollar :: "{"%char :: n ++ ["}"%char]) base =
      Some [Var n true sp].
Proof.
  intros Hn. set (raw := dollar :: "{"%char :: n ++ ["}"%char]).
  assert (parseVar base raw 0 [] 0 =
          (0 + 2 + length n + 1,
           [Var n true
              (makeSpan (base + (0 + 0)) (base + (0 + (0 + 2 + length n) + 1)))]))
    as Hpv.
  { unfold parseVar. change (raw !! (0 + 1)) with (Some "{"%char).
    cbn [charIs]. change (Ascii.eqb "{" "{") with true. cbv iota.
    change (drop (0 + 2) raw) with (n ++ ["}"%char]).
    rewrite (scanWhile_until "}" n [] Hn). unfold pushVar, slice.
    change (drop (0 + 2) raw) with (n ++ ["}"%char]).
    replace (0 + 2 + length n - (0 + 2)) with (length n) by lia.
    rewrite take_app_length. reflexivity. }
  assert (length raw = 0 + 2 + length n + 1) as Hlen.
  { unfold raw. simpl. rewrite length_app. simpl. lia. }
  eexists. unfold splitWordIntoParts.
  rewrite (while_continue _ _ _ _ (splitBody_dollar raw base 0 [] eq_refl)), Hpv.
  erewrite while_exit_pos; cycle 1; [lia|apply splitBody_end; lia|reflexivity].
Qed.

Lemma expand_single_var {Other : Type} (toStr : Other -> list ascii)
    (ctx : Ctx Other) (n : list ascii) (b : bool)
    (sp sp' : Span) :
  expandWord toStr (mkWord [Var n b sp] sp') ctx = valueText toStr (getProp ctx n).
Proof. reflexivity. Qed.

(** X7: for a name [n] of the form [[A-Za-z_][A-Za-z0-9_]*], the inputs [$n]
    and [${n}] are each one word with one Var part named [n] (unbraced and
    braced), and in every context both expand to the text of what [ctx[n]]
    reads, from the context itself or from an object it inherits from: the
    empty string when that is null or undefined. *)
Theorem variable_reference_forms {Other : Type} (toStr : Other -> list ascii)
    (ctx : Ctx Other) (n : list ascii) :
  validName n = true ->
  exists w1 w2 sp1 sp2,
    word_of (dollar :: n) = Some w1 /\
    word_of (dollar :: "{"%char :: n ++ ["}"%char]) = Some w2 /\
    parts w1 = [Var n false sp1] /\ parts w2 = [Var n true sp2] /\
    expandWord toStr w1 ctx = valueText toStr (getProp ctx n) /\
    expandWord toStr w2 ctx = valueText toStr (getProp ctx n).
Proof.
  intros Hn. destruct (validName_inv n Hn) as (c & n' & Heq & Hc & Hn' & Hall).
  assert (forallb lexChar n = true) as Hlex.
  { eapply forallb_impl_facts; [|exact Hall]. intros x Hx.
    apply (isVarChar_facts x Hx). }
  assert (forallb (notChar "}") n = true) as Hbr.
  { eapply forallb_impl_facts; [|exact Hall]. intros x Hx.
    destruct (isVarChar_facts x Hx) as (_ & H & _). unfold notChar. rewrite H.
    reflexivity. }
  destruct (split_unbraced n 0 Hn) as [sp1 H1].
  destruct (split_braced n 0 Hbr) as [sp2 H2].
  destruct (parse_lexWord (dollar :: n) _
              ltac:(simpl; rewrite Hlex; reflexivity)
              ltac:(unfold makeWord; rewrite H1; reflexivity))
    as (? & ? & _ & Hw1).
  destruct (parse_lexWord (dollar :: "{"%char :: n ++ ["}"%char]) _
              ltac:(simpl; rewrite forallb_app, Hlex; reflexivity)
              ltac:(unfold makeWord; rewrite H2; reflexivity))
    as (? & ? & _ & Hw2).
  do 4 eexists. split; [exact Hw1|]. split; [exact Hw2|].
  repeat split; reflexivity.
Qed.

Lemma variable_reference_forms_witness :
  validName (js "HOME") = true /\
  exists w1 w2 sp1 sp2,
    word_of (dollar :: js "HOME") = Some w1 /\
    word_of (dollar :: "{"%char :: js "HOME" ++ ["}"%char]) = Some w2 /\
    parts w1 = [Var (js "HOME") false sp1] /\
    parts w2 = [Var (js "HOME") true sp2] /\
    expandWord jsObjectText w1
      (objectLiteral {[ js "HOME" := Vstring (js "/h") ]})
    = valueText jsObjectText
        (getProp (objectLiteral {[ js "HOME" := Vstring (js "/h") ]}) (js "HOME")) /\
    expandWord jsObjectText w2
      (objectLiteral {[ js "HOME" := Vstring (js "/h") ]})
    = valueText jsObjectText
        (getProp (objectLiteral {[ js "HOME" := Vstring (js "/h") ]}) (js "HOME")).
Proof.
  split; [reflexivity|].
  apply (variable_reference_forms
           jsObjectText
           (objectLiteral {[ js "HOME" := Vstring (js "/h") ]}) (js "HOME")).
  reflexivity.
Defined.

(** ** Quoting every character with a backslash *)

Lemma escapeAll_length (s : list ascii) : length (escapeAll s) = 2 * length s.
Proof. induction s as [|c s IH]; [reflexivity|]. simpl in *. lia. Qed.

Lemma escapeAll_even (s : list ascii) (k : nat) :
  k < length s -> escapeAll s !! (2 * k) = Some backslash.
Proof.
  revert k. induction s as [|c s IH]; intros k Hk; [simpl in Hk; lia|].
  destruct k as [|k]; [reflexivity|].
  replace (2 * S k) with (S (S (2 * k))) by lia. simpl in Hk.
  apply (IH k). lia.
Qed.

Lemma escapeAll_odd (s : list ascii) (k : nat) :
  escapeAll s !! (2 * k + 1) = s !! k.
Proof.
  revert k. induction s as [|c s IH]; intros k; [reflexivity|].
  destruct k as [|k]; [reflexivity|].
  replace (2 * S k + 1) with (S (S (2 * k + 1))) by lia. apply (IH k).
Qed.

Lemma wordBody_backslash (input : list ascii) (j : nat) :
  input !! j = Some backslash -> wordBody input j = Some (inl (j + 2)).
Proof. intros H. unfold wordBody. rewrite H. reflexivity. Qed.

Lemma scanWord_escapeAll (s : list ascii) :
  scanWord (escapeAll s) 0 = Some (2 * length s).
Proof.
  unfold scanWord.
  destruct (while_total (wordBody (escapeAll s))
              (fun j => exists k, j = 2 * k /\ k <= length s)
              (fun r => r = 2 * length s)
              (fun j => length (escapeAll s) - j))
    with (fuel := S (length (escapeAll s))) (s := 0) as (r & Hr & ->);
    [|exists 0; lia|lia|exact Hr].
  intros j (k & -> & Hk). destruct (decide (k < length s)) as [Hlt|Hge].
  - rewrite (wordBody_backslash _ _ (escapeAll_even s k Hlt)).
    rewrite escapeAll_length. split; [exists (S k); lia|lia].
  - assert (k = length s) as -> by lia. unfold wordBody.
    rewrite lookup_ge_None_2 by (rewrite escapeAll_length; lia). reflexivity.
Qed.

Lemma splitBody_backslash (raw : list ascii) (base i : nat) (ps : list Part)
    (c : ascii) :
  raw !! i = Some backslash -> raw !! (i + 1) = Some c ->
  splitBody raw base (i, ps) = Some (inl (i + 2, pushText base ps [c] i (i + 2))).
Proof. intros H1 H2. unfold splitBody. rewrite H1. cbn. rewrite H2. reflexivity. Qed.

Lemma expandParts_pushText {Other : Type} (toStr : Other -> list ascii)
    (ctx : Ctx Other) (base : nat) (ps : list Part)
    (s : list ascii) (a b : nat) :
  expandParts toStr ctx (pushText base ps s a b) = expandParts toStr ctx ps ++ s.
Proof.
  destruct s as [|c s]; [simpl; rewrite app_nil_r; reflexivity|].
  unfold pushText, expandParts. apply expandParts_snoc.
Qed.

Lemma expandWord_merged {Other : Type} (toStr : Other -> list ascii)
    (ctx : Ctx Other) (ps : list Part) (sp : Span) :
  expandWord toStr (mkWord (mergeParts ps) sp) ctx = expandParts toStr ctx ps.
Proof. unfold expandWord, mergeParts, expandParts. simpl. apply mergeLoop_expand. Qed.

Lemma split_escapeAll {Other : Type} (toStr : Other -> list ascii)
    (ctx : Ctx Other) (s : list ascii) (base : nat) :
  exists ps,
    splitWordIntoParts (escapeAll s) base = Some (mergeParts ps) /\
    expandParts toStr ctx ps = s.
Proof.
  destruct (while_total (splitBody (escapeAll s) base)
              (fun st => exists k, st.1 = 2 * k /\ k <= length s /\
                                   expandParts toStr ctx st.2 = take k s)
              (fun ps => expandParts toStr ctx ps = s)
              (fun st => length (escapeAll s) - st.1))
    with (fuel := S (length (escapeAll s))) (s := (0, @nil Part))
    as (ps & Hw & Hps).
  - intros [i ps] (k & Hi & Hk & Hexp). cbn [fst snd] in Hi, Hexp. subst i.
    destruct (decide (k < length s)) as [Hlt|Hge].
    + destruct (s !! k) as [c|] eqn:Hc; [|apply lookup_ge_None in Hc; lia].
      rewrite (splitBody_backslash _ base _ ps c (escapeAll_even s k Hlt))
        by (rewrite escapeAll_odd; exact Hc).
      rewrite escapeAll_length. cbn [fst snd]. split; [|lia].
      exists (S k). split; [lia|]. split; [lia|].
      rewrite expandParts_pushText, Hexp, (take_S_r _ _ _ Hc). reflexivity.
    + assert (k = length s) as -> by lia.
      rewrite splitBody_end by (rewrite escapeAll_length; lia).
      rewrite take_ge in Hexp by lia. exact Hexp.
  - exists 0. simpl. split; [lia|]. split; [lia|reflexivity].
  - simpl. lia.
  - exists ps. unfold splitWordIntoParts. rewrite Hw. auto.
Qed.

(** X8: a backslash before every character quotes any text: for every
    non-empty string [s], whatever its characters, the input made of each
    character of [s] after a backslash is one command with one word, and in
    every context that word expands to [s]. *)
Theorem escape_all_roundtrip {Other : Type} (toStr : Other -> list ascii)
    (ctx : Ctx Other) (s : list ascii) :
  s <> [] ->
  exists p cmd w,
    parse (escapeAll s) = Some p /\ commands p = [cmd] /\
    words cmd = [w] /\ redirections cmd = [] /\
    expandWord toStr w ctx = s.
Proof.
  intros Hne. destruct (split_escapeAll toStr ctx s 0) as (ps & Hsplit & Hexp).
  destruct s as [|c s]; [contradiction|].
  destruct (parse_one_word (escapeAll (c :: s)) backslash (2 * length (c :: s))
              (mkWord (mergeParts ps)
                 (makeSpan 0 (0 + length (escapeAll (c :: s)))))
              eq_refl eq_refl (scanWord_escapeAll (c :: s))
              ltac:(rewrite escapeAll_length; lia)
              ltac:(unfold makeWord; rewrite Hsplit; reflexivity))
    as (sp1 & sp2 & Hp & _).
  do 3 eexists. split; [exact Hp|]. repeat split; try reflexivity.
  rewrite expandWord_merged. exact Hexp.
Qed.

Lemma escape_all_roundtrip_witness :
  js "a b|c>d $e" ++ [squote; dquote; backslash] <> [] /\
  exists p cmd w,
    parse (escapeAll (js "a b|c>d $e" ++ [squote; dquote; backslash])) = Some p /\
    commands p = [cmd] /\ words cmd = [w] /\ redirections cmd = [] /\
    expandWord jsObjectText w
      (objectLiteral {[ js "e" := Vstring (js "x") ]})
    = js "a b|c>d $e" ++ [squote; dquote; backslash].
Proof.
  split; [discriminate|].
  apply (escape_all_roundtrip
           jsObjectText
           (objectLiteral {[ js "e" := Vstring (js "x") ]})
           (js "a b|c>d $e" ++ [squote; dquote; backslash])).
  discriminate.
Defined.

(** ** Quotes that are not closed *)

Lemma scanQuoted_open_squote (s : list ascii) :
  noQuote s = true -> scanQuoted squote s = length s.
Proof.
  induction s as [|c s IH]; intros Hs; [reflexivity|].
  simpl in Hs. apply andb_prop in Hs as [Hc Hs].
  unfold notChar in Hc. apply negb_true_iff in Hc.
  change (scanQuoted squote (c :: s))
    with (if Ascii.eqb c backslash && Ascii.eqb squote dquote
          then match s with
               | [] => 2
               | _ :: rest'' => S (S (scanQuoted squote rest''))
               end
          else if Ascii.eqb c squote then 1 else S (scanQuoted squote s)).
  rewrite Hc, andb_false_r, IH by assumption. reflexivity.
Qed.

Lemma scanQuoted_open_dquote (s : list ascii) :
  dquotePlain s = true -> scanQuoted dquote s = length s.
Proof.
  induction s as [|c s IH]; intros Hs; [reflexivity|].
  simpl in Hs. apply andb_prop in Hs as [Hc Hs]. apply negb_true_iff in Hc.
  apply orb_false_elim in Hc as [Hc _]. apply orb_false_elim in Hc as [Hdq Hbs].
  change (scanQuoted dquote (c :: s))
    with (if Ascii.eqb c backslash && Ascii.eqb dquote dquote
          then match s with
               | [] => 2
               | _ :: rest'' => S (S (scanQuoted dquote rest''))
               end
          else if Ascii.eqb c dquote then 1 else S (scanQuoted dquote s)).
  rewrite Hbs, Hdq, IH by assumption. reflexivity.
Qed.

Lemma wordBody_dquote (input : list ascii) (i : nat) :
  input !! i = Some dquote ->
  wordBody input i = Some (inl (i + 1 + scanQuoted dquote (drop (i + 1) input))).
Proof. intros H. unfold wordBody. rewrite H. reflexivity. Qed.

Lemma scanWord_open_quote (q : ascii) (s : list ascii) :
  wordBody (q :: s) 0 = Some (inl (S (length s))) ->
  scanWord (q :: s) 0 = Some (S (length s)).
Proof.
  intros Hb. unfold scanWord. rewrite (while_continue _ _ _ _ Hb).
  apply while_exit. unfold wordBody.
  rewrite lookup_ge_None_2 by (simpl; lia). reflexivity.
Qed.

Lemma split_open_squote (s : list ascii) (base : nat) :
  noQuote s = true ->
  splitWordIntoParts (squote :: s) base =
    Some (pushText base [] s 1 (1 + length s)).
Proof.
  intros Hs.
  assert (splitBody (squote :: s) base (0, []) =
          Some (inl (S (length s), pushText base [] s 1 (1 + length s)))) as Hstep.
  { transitivity
      (let i := 1 + scanWhile (notChar squote) s in
       let inner := slice (squote :: s) 1 i in
       Some (inl (if charIs squote ((squote :: s) !! i) then i + 1 else i,
                  pushText base [] inner 1 (1 + length inner)))
       : option (nat * list Part + list Part)); [reflexivity|].
    rewrite (scanWhile_all _ s Hs). cbv zeta.
    rewrite (lookup_ge_None_2 (squote :: s) (1 + length s)) by (simpl; lia).
    assert (slice (squote :: s) 1 (1 + length s) = s) as ->.
    { unfold slice. change (drop 1 (squote :: s)) with s.
      apply take_ge. lia. }
    reflexivity. }
  unfold splitWordIntoParts. rewrite (while_continue _ _ _ _ Hstep).
  erewrite while_exit_pos; cycle 1;
    [simpl; lia|apply splitBody_end; simpl; lia|].
  destruct s; reflexivity.
Qed.

(** X9: a single quote that is never closed quotes the rest of the input: for
    every text [s] with no single quote, the input ['s] (no closing quote) is
    one command with one word, and in every context that word expands to
    [s]. *)
Theorem open_single_quote_keeps_text {Other : Type} (toStr : Other -> list ascii)
    (ctx : Ctx Other) (s : list ascii) :
  noQuote s = true ->
  exists p cmd w,
    parse (squote :: s) = Some p /\ commands p = [cmd] /\
    words cmd = [w] /\ redirections cmd = [] /\
    expandWord toStr w ctx = s.
Proof.
  intros Hs.
  assert (scanWord (squote :: s) 0 = Some (S (length s))) as Hscan.
  { apply scanWord_open_quote. rewrite wordBody_squote by reflexivity.
    change (drop (0 + 1) (squote :: s)) with s.
    rewrite (scanQuoted_open_squote s Hs). reflexivity. }
  destruct (parse_one_word (squote :: s) squote (S (length s)) _
              eq_refl eq_refl Hscan ltac:(simpl; lia)
              ltac:(unfold makeWord; rewrite (split_open_squote s 0 Hs); reflexivity))
    as (sp1 & sp2 & Hp & _).
  do 3 eexists. split; [exact Hp|]. repeat split; try reflexivity.
  destruct s; reflexivity.
Qed.

Lemma open_single_quote_keeps_text_witness :
  noQuote (js "a $b | c") = true /\
  exists p cmd w,
    parse (squote :: js "a $b | c") = Some p /\ commands p = [cmd] /\
    words cmd = [w] /\ redirections cmd = [] /\
    expandWord jsObjectText w
      (objectLiteral {[ js "b" := Vstring (js "x") ]}) = js "a $b | c".
Proof.
  split; [reflexivity|].
  apply (open_single_quote_keeps_text
           jsObjectText
           (objectLiteral {[ js "b" := Vstring (js "x") ]}) (js "a $b | c")).
  reflexivity.
Defined.

Lemma dquoteBody_plain (raw : list ascii) (base i seg : nat) (ps : list Part)
    (c : ascii) :
  raw !! i = Some c ->
  Ascii.eqb c dquote || Ascii.eqb c backslash || Ascii.eqb c dollar = false ->
  dquoteBody raw base (i, seg, ps) = Some (inl (i + 1, seg, ps)).
Proof.
  intros Hc H. apply orb_false_elim in H as [H Hd].
  apply orb_false_elim in H as [Hq Hb].
  unfold dquoteBody. rewrite Hc, Hb, Hq, Hd. reflexivity.
Qed.

Lemma dquoteLoop_open (s : list ascii) (base : nat) :
  dquotePlain s = true ->
  while (dquoteBody (dquote :: s) base) (S (length (dquote :: s))) (1, 1, [])
    = Some (S (length s), []).
Proof.
  intros Hs.
  destruct (while_total (dquoteBody (dquote :: s) base)
              (fun st => 1 <= st.1.1 <= S (length s) /\ st.1.2 = 1 /\ st.2 = [])
              (fun r => r = (S (length s), @nil Part))
              (fun st => length (dquote :: s) - st.1.1))
    with (fuel := S (length (dquote :: s))) (s := (1, 1, @nil Part))
    as (r & Hr & ->);
    [|simpl; repeat split; (lia || reflexivity)|simpl; lia|exact Hr].
  intros [[i seg] ps] (Hi & Hseg & Hps). simpl in Hi, Hseg, Hps. subst seg ps.
  destruct (decide (i <= length s)) as [Hle|Hgt].
  - destruct ((dquote :: s) !! i) as [c|] eqn:Hc;
      [|apply lookup_ge_None in Hc; simpl in Hc; lia].
    rewrite (dquoteBody_plain _ base i 1 [] c Hc).
    + simpl. repeat split; (lia || reflexivity).
    + destruct i as [|i]; [lia|]. simpl in Hc.
      unfold dquotePlain in Hs. rewrite forallb_forall in Hs.
      apply negb_true_iff, Hs, list_elem_of_In.
      eapply list_elem_of_lookup_2, Hc.
  - assert (i = S (length s)) as -> by lia. unfold dquoteBody.
    rewrite lookup_ge_None_2 by (simpl; lia). reflexivity.
Qed.

Lemma split_open_dquote (s : list ascii) (base : nat) :
  dquotePlain s = true -> splitWordIntoParts (dquote :: s) base = Some [].
Proof.
  intros Hs.
  assert (splitBody (dquote :: s) base (0, []) = Some (inl (S (length s), [])))
    as Hstep.
  { transitivity
      (match while (dquoteBody (dquote :: s) base) (S (length (dquote :: s)))
               (1, 1, []) with
       | None => None
       | Some st' => Some (inl st')
       end : option (nat * list Part + list Part)); [reflexivity|].
    rewrite (dquoteLoop_open s base Hs). reflexivity. }
  unfold splitWordIntoParts. rewrite (while_continue _ _ _ _ Hstep).
  erewrite while_exit_pos; cycle 1;
    [simpl; lia|apply splitBody_end; simpl; lia|reflexivity].
Qed.

(** X10: a double quote that is never closed loses its text: for every text
    [s] with no double quote, backslash or [$], the input made of a double
    quote and [s] (no closing quote) is one command with one word that has no
    part, so that it expands to the empty string in every context. *)
Theorem open_double_quote_drops_text {Other : Type} (toStr : Other -> list ascii)
    (ctx : Ctx Other) (s : list ascii) :
  dquotePlain s = true ->
  exists p cmd w,
    parse (dquote :: s) = Some p /\ commands p = [cmd] /\
    words cmd = [w] /\ redirections cmd = [] /\
    parts w = [] /\ expandWord toStr w ctx = [].
Proof.
  intros Hs.
  assert (scanWord (dquote :: s) 0 = Some (S (length s))) as Hscan.
  { apply scanWord_open_quote. rewrite wordBody_dquote by reflexivity.
    change (drop (0 + 1) (dquote :: s)) with s.
    rewrite (scanQuoted_open_dquote s Hs). reflexivity. }
  destruct (parse_one_word (dquote :: s) dquote (S (length s)) _
              eq_refl eq_refl Hscan ltac:(simpl; lia)
              ltac:(unfold makeWord; rewrite (split_open_dquote s 0 Hs); reflexivity))
    as (sp1 & sp2 & Hp & _).
  do 3 eexists. split; [exact Hp|]. repeat split; reflexivity.
Qed.

Lemma open_double_quote_drops_text_witness :
  dquotePlain (js "hello world") = true /\
  exists p cmd w,
    parse (dquote :: js "hello world") = Some p /\ commands p = [cmd] /\
    words cmd = [w] /\ redirections cmd = [] /\
    parts w = [] /\
    expandWord jsObjectText w (objectLiteral ∅) = [].
Proof.
  split; [reflexivity|].
  apply (open_double_quote_drops_text
           jsObjectText (objectLiteral ∅)
           (js "hello world")).
  reflexivity.
Defined.

(** ** Redirections with a file descriptor *)

Lemma isDigit_facts (c : ascii) :
  isDigit c = true ->
  isSpace c = false /\ Ascii.eqb c "|" = false /\ Ascii.eqb c "&" = false /\
  Ascii.eqb c ">" = false.
Proof. ascii_cases c. Qed.

Lemma scanWhile_prefix (p : ascii -> bool) (s rest : list ascii) :
  forallb p s = true -> at_ p (rest !! 0) = false ->
  scanWhile p (s ++ rest) = length s.
Proof.
  intros Hs Hr. induction s as [|c s IH].
  - destruct rest as [|x rest]; [reflexivity|]. simpl in *. rewrite Hr. reflexivity.
  - simpl in Hs. apply andb_prop in Hs as [Hc Hs]. simpl.
    rewrite Hc, IH by assumption. reflexivity.
Qed.

Lemma digitString_inv (ds : list ascii) :
  digitString ds = true ->
  exists c ds', ds = c :: ds' /\ isDigit c = true /\ forallb isDigit ds = true.
Proof.
  destruct ds as [|c ds']; [discriminate|]. unfold digitString. intros H.
  exists c, ds'. split; [reflexivity|]. split; [|exact H].
  simpl in H. apply andb_prop in H as [H _]. exact H.
Qed.

Lemma lexBody_digit (input : list ascii) (c : ascii) (st' : nat * list Token) :
  input !! 0 = Some c -> isDigit c = true -> lexFd input [] 0 = Some st' ->
  lexBody input (0, []) = Some (inl st').
Proof.
  intros Hc Hd Hfd. destruct (isDigit_facts c Hd) as (H1 & H2 & H3 & _).
  unfold lexBody. rewrite Hc, H1, H2, H3, Hd, Hfd. reflexivity.
Qed.

Lemma take_app_exact {A : Type} (l r : list A) (n : nat) :
  n = length l -> take n (l ++ r) = l.
Proof. intros ->. apply take_app_length. Qed.

(** The token of [ds>] or [ds>>] before a word. *)
Lemma lexFd_file (ds w : list ascii) (append : bool) :
  forallb isDigit ds = true -> forallb lexChar w = true ->
  let o := if append then [">"%char; ">"%char] else [">"%char] in
  lexFd (ds ++ o ++ w) [] 0 =
    Some (length ds + length o,
          [mkToken TokenKind.FD_GT (ds ++ o) 0 (length ds + length o)
             (Some (MetaAppend (Number ds) append))]).
Proof.
  intros Hds Hw o.
  assert (at_ isDigit ((o ++ w) !! 0) = false) as Hnd by (destruct append; reflexivity).
  assert (charIs ">" (w !! 0) = false /\ charIs "&" (w !! 0) = false) as [Hw1 Hw2].
  { destruct w as [|c w]; [split; reflexivity|]. simpl in Hw.
    apply andb_prop in Hw as [Hc _].
    apply lexChar_inv in Hc as (_ & _ & _ & Hgt & Hamp & _). simpl. auto. }
  unfold lexFd. rewrite drop_0, (scanWhile_prefix isDigit ds (o ++ w) Hds Hnd).
  rewrite !Nat.add_0_l.
  assert ((ds ++ o ++ w) !! length ds = Some ">"%char) as ->.
  { rewrite lookup_app_r, Nat.sub_diag by lia. destruct append; reflexivity. }
  cbn [charIs]. change (Ascii.eqb ">" ">") with true. cbv iota.
  assert (slice (ds ++ o ++ w) 0 (length ds) = ds) as ->.
  { unfold slice. rewrite Nat.sub_0_r, drop_0. apply take_app_length. }
  unfold pushToken, slice. rewrite !Nat.sub_0_r, !drop_0.
  destruct append; subst o.
  - assert ((ds ++ [">"%char; ">"%char] ++ w) !! (length ds + 1) = Some ">"%char)
      as -> by (rewrite lookup_app_r by lia;
                replace (length ds + 1 - length ds) with 1 by lia; reflexivity).
    cbn [charIs]. change (Ascii.eqb ">" ">") with true. cbv iota.
    rewrite (app_assoc ds), (take_app_exact (ds ++ [">"%char; ">"%char]) w)
      by (rewrite length_app; cbn [length]; lia).
    cbn [length]. replace (length ds + 1 + 1) with (length ds + 2) by lia.
    reflexivity.
  - assert ((ds ++ [">"%char] ++ w) !! (length ds + 1) = w !! 0) as ->
      by (rewrite lookup_app_r by lia;
          replace (length ds + 1 - length ds) with 1 by lia; reflexivity).
    rewrite Hw1, Hw2.
    rewrite (app_assoc ds), (take_app_exact (ds ++ [">"%char]) w)
      by (rewrite length_app; cbn [length]; lia).
    reflexivity.
Qed.

(** The token of [ds>&ds2]. *)
Lemma lexFd_dup (ds ds2 : list ascii) :
  forallb isDigit ds = true -> forallb isDigit ds2 = true ->
  let input := ds ++ [">"%char; "&"%char] ++ ds2 in
  lexFd input [] 0 =
    Some (length input,
          [mkToken TokenKind.FD_GT input 0 (length input)
             (Some (MetaDup (Number ds)
                      (match ds2 with [] => None | _ => Some (Number ds2) end)))]).
Proof.
  intros Hds Hds2 input.
  assert (length input = length ds + 2 + length ds2) as Hlen
    by (unfold input; rewrite !length_app; simpl; lia).
  assert (scanWhile isDigit input = length ds) as Hrun
    by (unfold input; apply scanWhile_prefix; [exact Hds|reflexivity]).
  unfold lexFd. rewrite drop_0, Hrun, !Nat.add_0_l.
  assert (input !! length ds = Some ">"%char) as ->
    by (unfold input; rewrite lookup_app_r, Nat.sub_diag by lia; reflexivity).
  cbn [charIs]. change (Ascii.eqb ">" ">") with true. cbv iota.
  assert (input !! (length ds + 1) = Some "&"%char) as ->
    by (unfold input; rewrite lookup_app_r by lia;
        replace (length ds + 1 - length ds) with 1 by lia; reflexivity).
  cbn [charIs]. change (Ascii.eqb "&" ">") with false.
  change (Ascii.eqb "&" "&") with true. cbv iota.
  assert (drop (length ds + 1 + 1) input = ds2) as Hdrop.
  { unfold input. rewrite app_assoc. apply drop_app_length'.
    rewrite length_app. simpl. lia. }
  rewrite Hdrop, (scanWhile_all isDigit ds2 Hds2).
  assert (slice input 0 (length ds) = ds) as ->.
  { unfold slice. rewrite Nat.sub_0_r, drop_0. apply take_app_length. }
  assert (slice input (length ds + 1 + 1) (length ds + 1 + 1 + length ds2) = ds2)
    as ->.
  { unfold slice. rewrite Hdrop. apply take_ge. lia. }
  unfold pushToken. rewrite slice_past by lia.
  replace (length ds + 1 + 1 + length ds2) with (length input) by lia.
  reflexivity.
Qed.

(** A pipeline that is one command made in one iteration of the loop of
    [parseCommand]. *)
Lemma parseTokens_one_step (T : list Token) (t0 e : Token) (k : nat)
    (ws : list Word) (rs : list Redirection) :
  peekTok T 0 0 = Some t0 -> kind t0 <> TokenKind.EOF ->
  peekTok T k 0 = Some e -> kind e = TokenKind.EOF -> 0 < length T ->
  parseCommandBody T (0, [], []) = Some (inl (k, ws, rs)) ->
  parseTokens T =
    Some (mkPipeline [mkCommand ws rs (makeSpan (tstart t0) (tstart e))]
            (makeSpan 0 (tend e))).
Proof.
  intros H0 Hne Hk He Hlen Hb.
  assert (parseCommand T 0 =
          Some (mkCommand ws rs (makeSpan (tstart t0) (tstart e)), k)) as Hcmd.
  { unfold parseCommand. rewrite H0, (while_continue _ _ _ _ Hb).
    erewrite while_exit_pos; cycle 1.
    - exact Hlen.
    - unfold parseCommandBody. rewrite Hk, He. reflexivity.
    - cbv iota beta. rewrite Hk. reflexivity. }
  unfold parseTokens. erewrite while_exit; cycle 1.
  - unfold parseBody. rewrite H0.
    replace (TokenKind.eqb (kind t0) TokenKind.EOF) with false
      by (destruct (kind t0); try reflexivity; contradiction).
    rewrite Hcmd, Hk, He. reflexivity.
  - cbv iota beta. rewrite Hk. reflexivity.
Qed.

(** [Number] on digits: the value itself below 2^53, the nearest double
    above, [Infinity] past the largest double. *)
Example Number_rounding :
  (forall s, (decimalValue s < 2 ^ 53)%N -> Number s = Finite (decimalValue s)) /\
  Number (js "007") = 7%N /\
  Number (js "9007199254740993") = 9007199254740992%N /\
  Number (js "9007199254740995") = 9007199254740996%N /\
  Number (js "1" ++ repeat "0"%char 309) = Infinity.
Proof.
  split; [|repeat split; vm_compute; reflexivity].
  intros s Hs. unfold Number, toDouble.
  apply N.ltb_lt in Hs. rewrite Hs. reflexivity.
Qed.

(** X11: an explicit descriptor is kept: for digits [ds] and a word [w] that
    needs no quoting, the inputs [ds>w] and [ds>>w] are one command with no
    word and one redirection whose [fd] is [Number ds], the double nearest to
    the value of [ds], whose [op] is ['>'] or ['>>'], whose [dupTargetFd] is
    undefined and whose target expands to [w]. *)
Theorem fd_redirection {Other : Type} (toStr : Other -> list ascii)
    (ctx : Ctx Other) (ds w : list ascii) (append : bool) :
  digitString ds = true -> plainWord w = true ->
  exists p cmd r,
    parse (ds ++ (if append then js ">>" else js ">") ++ w) = Some p /\
    commands p = [cmd] /\ words cmd = [] /\ redirections cmd = [r] /\
    fd r = num (Number ds) /\
    op r = (if append then js ">>" else js ">") /\
    dupTargetFd r = undefined /\
    expandWord toStr (target r) ctx = w.
Proof.
  intros Hds Hw.
  destruct (digitString_inv ds Hds) as (c & ds' & Heq & Hc & Hall).
  destruct (plainWord_inv w Hw) as (Hne & Hlex & Hsp).
  set (o := if append then [">"%char; ">"%char] else [">"%char]).
  set (input := ds ++ o ++ w).
  assert ((if append then js ">>" else js ">") = o) as Ho
    by (destruct append; reflexivity).
  rewrite Ho. fold input.
  set (t := mkToken TokenKind.FD_GT (ds ++ o) 0 (length ds + length o)
              (Some (MetaAppend (Number ds) append))).
  assert (input !! 0 = Some c) as Hc0 by (unfold input; rewrite Heq; reflexivity).
  assert (length input = length ds + length o + length w) as Hlen
    by (unfold input; rewrite !length_app; lia).
  assert (0 < length w) as Hwl by (destruct w; [contradiction|simpl; lia]).
  assert (lex input =
          Some ([t; itemToken (length ds + length o) (IWord w)] ++ [eofToken input]))
    as Hlex'.
  { unfold lex.
    rewrite (while_continue _ _ _ _
               (lexBody_digit input c _ Hc0 Hc (lexFd_file ds w append Hall Hlex))).
    erewrite (lex_items [IWord w] input).
    - unfold pushToken, eofToken, slice. rewrite Nat.sub_diag, take_0. reflexivity.
    - unfold input. rewrite app_assoc. apply drop_app_length'.
      rewrite length_app. reflexivity.
    - simpl. unfold lexWord. destruct w; [contradiction|]. rewrite Hlex. reflexivity.
    - cbn [renderItems itemText]. rewrite Hlen.
      assert (0 < length ds) by (rewrite Heq; simpl; lia). lia. }
  destruct (makeWord_total w (length ds + length o)) as (ps & _ & Hmw).
  destruct (makeWord_plain toStr ctx w _ _ Hw Hmw) as [_ Hexp].
  unfold parse. rewrite Hlex'.
  erewrite (parseTokens_one_step _ t (eofToken input) 2); cycle 1.
  - reflexivity.
  - discriminate.
  - reflexivity.
  - reflexivity.
  - simpl. lia.
  - unfold parseCommandBody, parseRedirection.
    cbn [peekTok lookup list_lookup app Nat.add t kind meta itemToken text tstart
         TokenKind.eqb negb fmap option_fmap option_map].
    rewrite Hmw. reflexivity.
  - do 3 eexists. split; [reflexivity|]. cbn [commands words redirections fd op
      dupTargetFd target].
    repeat split; try reflexivity. exact Hexp.
Qed.

Lemma fd_redirection_witness :
  digitString (js "2") = true /\ plainWord (js "err.log") = true /\
  exists p cmd r,
    parse (js "2" ++ (if true then js ">>" else js ">") ++ js "err.log") = Some p /\
    commands p = [cmd] /\ words cmd = [] /\ redirections cmd = [r] /\
    fd r = num (Number (js "2")) /\
    op r = (if true then js ">>" else js ">") /\
    dupTargetFd r = undefined /\
    expandWord jsObjectText
      (target r) (objectLiteral ∅) = js "err.log".
Proof.
  split; [reflexivity|]. split; [reflexivity|].
  apply (fd_redirection jsObjectText (objectLiteral ∅)
           (js "2") (js "err.log") true); reflexivity.
Defined.

(** X12: descriptor duplication: for digits [ds] and digits [ds2], possibly
    none, the input [ds>&ds2] is one command with no word and one redirection
    with [op = 'dup'], [fd] the double [Number ds] nearest to the value of
    [ds], and a placeholder target with no part; [dupTargetFd] is
    [Number ds2], and [null] when there is no digit after [&]. *)
Theorem dup_redirection (ds ds2 : list ascii) :
  digitString ds = true -> forallb isDigit ds2 = true ->
  exists p cmd r,
    parse (ds ++ js ">&" ++ ds2) = Some p /\
    commands p = [cmd] /\ words cmd = [] /\ redirections cmd = [r] /\
    op r = js "dup" /\ fd r = num (Number ds) /\
    dupTargetFd r = (match ds2 with [] => null | _ => num (Number ds2) end) /\
    parts (target r) = [].
Proof.
  intros Hds Hds2.
  destruct (digitString_inv ds Hds) as (c & ds' & Heq & Hc & Hall).
  change (js ">&") with [">"%char; "&"%char].
  set (input := ds ++ [">"%char; "&"%char] ++ ds2).
  assert (input !! 0 = Some c) as Hc0 by (unfold input; rewrite Heq; reflexivity).
  assert (0 < length input) as Hpos by (eapply Nat.le_lt_trans;
    [apply Nat.le_0_l|eapply lookup_lt_Some, Hc0]).
  set (t := mkToken TokenKind.FD_GT input 0 (length input)
              (Some (MetaDup (Number ds)
                       (match ds2 with [] => None | _ => Some (Number ds2) end)))).
  assert (lex input = Some ([t] ++ [eofToken input])) as Hlex.
  { unfold lex.
    rewrite (while_continue _ _ _ _
               (lexBody_digit input c _ Hc0 Hc (lexFd_dup ds ds2 Hall Hds2))).
    erewrite while_exit_pos; cycle 1.
    - exact Hpos.
    - unfold lexBody. fold input. rewrite lookup_ge_None_2 by lia. reflexivity.
    - unfold pushToken, eofToken, slice. rewrite Nat.sub_diag, take_0. reflexivity. }
  unfold parse. rewrite Hlex.
  erewrite (parseTokens_one_step _ t (eofToken input) 1); cycle 1.
  - reflexivity.
  - discriminate.
  - reflexivity.
  - reflexivity.
  - simpl. lia.
  - unfold parseCommandBody, parseRedirection.
    cbn [peekTok lookup list_lookup app Nat.add t kind meta eofToken
         TokenKind.eqb negb tend].
    rewrite makeWord_empty. reflexivity.
  - do 3 eexists. split; [reflexivity|]. cbn [commands words redirections fd op
      dupTargetFd target parts].
    repeat split; try reflexivity. destruct ds2; reflexivity.
Qed.

Lemma dup_redirection_witness :
  digitString (js "2") = true /\ forallb isDigit (js "1") = true /\
  exists p cmd r,
    parse (js "2" ++ js ">&" ++ js "1") = Some p /\
    commands p = [cmd] /\ words cmd = [] /\ redirections cmd = [r] /\
    op r = js "dup" /\ fd r = num (Number (js "2")) /\
    dupTargetFd r = (match js "1" with [] => null | _ => num (Number (js "1")) end) /\
    parts (target r) = [].
Proof.
  split; [reflexivity|]. split; [reflexivity|].
  apply (dup_redirection (js "2") (js "1")); reflexivity.
Defined.

(** ** Every token is accounted for *)

Lemma list_sum_snoc (f : Redirection -> nat) (l : list Redirection) (x : Redirection) :
  list_sum (map f (l ++ [x])) = list_sum (map f l) + f x.
Proof. rewrite map_app, list_sum_app. simpl. lia. Qed.

Lemma commandsTokens_snoc (cs : list Command) (c : Command) :
  commandsTokens (cs ++ [c]) = commandsTokens cs + commandTokens c.
Proof. unfold commandsTokens. rewrite map_app, list_sum_app. simpl. lia. Qed.

Section TokenAccounting.
Variables (body : list Token) (e : Token).
Hypothesis He : kind e = TokenKind.EOF.
Hypothesis Hbody : Forall tokenOk body.
Hypothesis Htext : Forall (fun t => text t <> []) body.

Let tokens := body ++ [e].

Lemma parseRedirection_cost (idx : nat) (ws : list Word) (rs : list Redirection)
    (t : Token) (o : list ascii) (f : OptNum) (dup : bool) (dt : option JsNumber)
    (idx' : nat) (ws' : list Word) (rs' : list Redirection) :
  parseRedirection tokens (idx + 1) ws rs t o f dup dt = Some (idx', ws', rs') ->
  ws' = ws /\
  list_sum (map redirectionTokens rs') + idx = list_sum (map redirectionTokens rs) + idx'.
Proof.
  unfold parseRedirection.
  destruct (peekTok_cases body e Hbody (idx + 1))
    as [(next & Hnext & Hnlt & Hpeek & Hnok)|(Hge & Hpeek)];
    fold tokens in Hpeek; rewrite Hpeek.
  - destruct (TokenKind.eqb (kind next) TokenKind.Word) eqn:Hw; cbn [negb].
    + destruct (makeWord_total (text next) (tstart next)) as (ps & _ & ->).
      intros H. injection H as <- <- <-. split; [reflexivity|].
      rewrite list_sum_snoc. unfold redirectionTokens at 2, isPlaceholder.
      cbn [target wspan start end_].
      assert (text next <> []) as Hne
        by (rewrite Forall_forall in Htext; apply Htext;
            eapply list_elem_of_lookup_2, Hnext).
      assert (0 < length (text next)) by (destruct (text next); [contradiction|simpl; lia]).
      replace (tstart next =? tstart next + length (text next)) with false
        by (symmetry; apply Nat.eqb_neq; lia).
      lia.
    + rewrite makeWord_empty. intros H. injection H as <- <- <-.
      split; [reflexivity|]. rewrite list_sum_snoc.
      unfold redirectionTokens at 2, isPlaceholder. cbn [target wspan start end_].
      rewrite Nat.eqb_refl. lia.
  - rewrite He. cbn [TokenKind.eqb negb]. rewrite makeWord_empty.
    intros H. injection H as <- <- <-. split; [reflexivity|].
    rewrite list_sum_snoc.
    unfold redirectionTokens at 2, isPlaceholder. cbn [target wspan start end_].
    rewrite Nat.eqb_refl. lia.
Qed.

Lemma parseCommandBody_cost (idx0 : nat) (st : nat * list Word * list Redirection) :
  commandCostInv idx0 st ->
  match parseCommandBody tokens st with
  | Some (inl st') => commandCostInv idx0 st'
  | Some (inr r) => commandCostInv idx0 r
  | None => True
  end.
Proof.
  destruct st as [[idx ws] rs]. unfold commandCostInv. cbn [fst snd]. intros Hinv.
  assert (forall o f dup dt,
            match inl <$> parseRedirection tokens (idx + 1) ws rs
                            (default e (peekTok tokens idx 0)) o f dup dt
                  : option (nat * list Word * list Redirection
                            + nat * list Word * list Redirection) with
            | Some (inl st') =>
                length st'.1.2 + list_sum (map redirectionTokens st'.2) + idx0
                = st'.1.1
            | Some (inr r) =>
                length r.1.2 + list_sum (map redirectionTokens r.2) + idx0 = r.1.1
            | None => True
            end) as Hredir.
  { intros o f dup dt.
    destruct (parseRedirection tokens (idx + 1) ws rs _ o f dup dt)
      as [[[idx' ws'] rs']|] eqn:Hr; [|exact I].
    apply parseRedirection_cost in Hr as [-> Hsum].
    cbn [fmap option_fmap option_map fst snd]. lia. }
  unfold parseCommandBody.
  destruct (peekTok tokens idx 0) as [tk|] eqn:Hpeek; [|exact I].
  cbn [default] in Hredir.
  destruct (kind tk); try exact Hinv; try apply Hredir.
  - destruct (makeWord (text tk) (tstart tk)); [|exact I].
    cbn [fst snd]. rewrite length_app. simpl. lia.
  - destruct (meta tk) as [[f a|f d]|]; [apply Hredir|apply Hredir|exact I].
Qed.

Lemma parseCommand_cost (idx : nat) (cmd : Command) (idx' : nat) :
  idx <= length body ->
  parseCommand tokens idx = Some (cmd, idx') -> commandTokens cmd + idx = idx'.
Proof.
  intros Hidx. unfold parseCommand.
  destruct (peekTok tokens idx 0) as [tk0|]; [|discriminate].
  assert (length tokens = S (length body)) as Hlen.
  { unfold tokens. rewrite length_app. simpl. lia. }
  destruct (while_total (parseCommandBody tokens)
              (fun st => commandInv body idx st /\ commandCostInv idx st)
              (fun r => commandCostInv idx r)
              (fun st => length tokens - st.1.1))
    with (fuel := S (length tokens)) (s := (idx, @nil Word, @nil Redirection))
    as ([[j ws] rs] & -> & Hcost).
  - intros st [Hinv Hcost].
    pose proof (parseCommandBody_ok body e He Hbody idx st Hinv) as Hok.
    pose proof (parseCommandBody_cost idx st Hcost) as Hc.
    fold tokens in Hok.
    destruct (parseCommandBody tokens st) as [[st'|r]|]; [|exact Hc|contradiction].
    destruct Hok as [Hinv' Hm]. auto.
  - split.
    + repeat split; simpl; try lia; try constructor. intros k t Hk. lia.
    + unfold commandCostInv. simpl. lia.
  - simpl. lia.
  - destruct (peekTok tokens j 0); [|discriminate].
    intros H. injection H as <- <-. unfold commandCostInv in Hcost.
    cbn [fst snd] in Hcost. unfold commandTokens. cbn [words redirections]. lia.
Qed.

Lemma parseBody_cost (st : nat * list Command) :
  pipelineInv body st -> pipelineCostInv body st ->
  match parseBody tokens st with
  | Some (inl st') => pipelineCostInv body st'
  | Some (inr r) => pipelineCostInv body r /\ r.1 <= length body
  | None => True
  end.
Proof.
  destruct st as [idx cmds]. intros (Hidx & _) Hcost.
  unfold pipelineCostInv in *. cbn [fst snd] in *.
  unfold parseBody.
  destruct (peekTok tokens idx 0) as [tk|]; [|exact I].
  destruct (TokenKind.eqb (kind tk) TokenKind.EOF); [auto|].
  destruct (parseCommand_ok body e He Hbody idx Hidx)
    as (cmd & idx' & Hcmd & Hb & Hno & Hend & _).
  fold tokens in Hcmd. rewrite Hcmd.
  pose proof (parseCommand_cost idx cmd idx' Hidx Hcmd) as Hc.
  pose proof (pipes_take_noPipe body idx idx' (proj1 Hb) Hno) as Hpipes.
  destruct (peekTok_cases body e Hbody idx')
    as [(t' & Ht' & Hlt' & Hpeek & _)|(Hge' & Hpeek)];
    fold tokens in Hpeek; rewrite Hpeek.
  - fold (isPipe t'). destruct (isPipe t') eqn:Hp; cbn [fst snd].
    + rewrite commandsTokens_snoc, (pipes_take_pipe body idx' t' Ht' Hp). lia.
    + rewrite commandsTokens_snoc. split; lia.
  - rewrite He. cbn [TokenKind.eqb fst snd]. rewrite commandsTokens_snoc.
    split; lia.
Qed.

Lemma parseTokens_cost :
  exists cmds sp,
    parseTokens tokens = Some (mkPipeline cmds sp) /\
    commandsTokens cmds + pipes body = length body.
Proof.
  assert (length tokens = S (length body)) as Hlen.
  { unfold tokens. rewrite length_app. simpl. lia. }
  unfold parseTokens.
  destruct (while_total (parseBody tokens)
              (fun st => pipelineInv body st /\ pipelineCostInv body st)
              (fun r => pipelinePost body r /\ pipelineCostInv body r /\
                        r.1 <= length body)
              (fun st => length tokens - st.1))
    with (fuel := S (length tokens)) (s := (0, @nil Command))
    as ([idx cmds] & -> & (Hge & _) & Hcost & Hle).
  - intros st [Hinv Hcost].
    pose proof (parseBody_ok body e He Hbody st Hinv) as Hok.
    pose proof (parseBody_cost st Hinv Hcost) as Hc.
    fold tokens in Hok.
    destruct (parseBody tokens st) as [[st'|r]|]; [| |contradiction].
    + destruct Hok as [Hinv' Hm]. auto.
    + destruct Hc. auto.
  - split.
    + repeat split; simpl; try lia; auto.
    + reflexivity.
  - simpl. lia.
  - cbn [fst snd] in *. unfold pipelineCostInv in Hcost. cbn [fst snd] in Hcost.
    rewrite take_ge in Hcost by lia.
    pose proof (peekTok_end body e idx Hge) as Hpeek. fold tokens in Hpeek.
    rewrite Hpeek. do 2 eexists. split; [reflexivity|]. lia.
Qed.
End TokenAccounting.

Lemma lex_text_nonempty (input : list ascii) (toks : list Token) :
  Forall (tokenSpanOk input) toks -> Forall (fun t => text t <> []) toks.
Proof.
  intros H. eapply Forall_impl; [exact H|]. simpl.
  intros t (Hlt & Hin & Htext) Hnil. rewrite Htext in Hnil.
  apply (f_equal length) in Hnil. unfold slice in Hnil.
  rewrite length_take, length_drop in Hnil. simpl in Hnil. lia.
Qed.

(** X13: the parser accounts for every token of the lexer: the words of the
    commands, their redirection operators, the redirection targets that are
    not placeholders and the pipes are together exactly as many as the
    tokens before EndOfInput; no token is dropped or used twice. *)
Theorem parse_accounts_for_tokens (input : list ascii) :
  exists toks p,
    lex input = Some (toks ++ [eofToken input]) /\
    parse input = Some p /\
    commandsTokens (commands p) + pipes toks = length toks.
Proof.
  destruct (lex_spans input) as (toks & Hlex & Hspan & _).
  destruct (lex_shape input) as (toks' & Hlex' & Hok & _).
  rewrite Hlex in Hlex'. injection Hlex' as Heq.
  apply app_inj_tail in Heq as [<- _].
  destruct (parseTokens_cost toks (eofToken input) eq_refl Hok
              (lex_text_nonempty input toks Hspan))
    as (cmds & sp & Hp & Hcount).
  exists toks, (mkPipeline cmds sp). unfold parse. rewrite Hlex.
  repeat split; assumption.
Qed.

(** X14: the span of the Pipeline is the whole input, from 0 to its length,
    whatever the input is. *)
Theorem pipeline_span_is_input (input : list ascii) :
  exists p, parse input = Some p /\ pspan p = makeSpan 0 (length input).
Proof.
  destruct (parse_count input) as (p & Hp & Hspan & _). eauto.
Qed.

(** ** A [$] that begins no variable *)

Lemma splitBody_run (raw : list ascii) (base i : nat) (ps : list Part) (c : ascii) :
  raw !! i = Some c -> isSpecial c = false ->
  splitBody raw base (i, ps) =
    Some (inl (i + scanWhile (fun c => negb (isSpecial c)) (drop i raw),
               if i <? i + scanWhile (fun c => negb (isSpecial c)) (drop i raw)
               then pushText base ps
                      (slice raw i (i + scanWhile (fun c => negb (isSpecial c))
                                          (drop i raw)))
                      i (i + scanWhile (fun c => negb (isSpecial c)) (drop i raw))
               else ps)).
Proof.
  intros Hc Hs. unfold isSpecial in Hs.
  do 3 (apply orb_false_elim in Hs as [Hs ?]).
  unfold splitBody. rewrite Hc.
  repeat match goal with H : Ascii.eqb c _ = false |- _ => rewrite H; clear H end.
  reflexivity.
Qed.

Lemma plainChars_inv (w : list ascii) :
  plainChars w = true ->
  forallb lexChar w = true /\ forallb (fun c => negb (isSpecial c)) w = true.
Proof.
  unfold plainChars. intros H. split; apply forallb_forall; intros x Hx;
    rewrite forallb_forall in H; specialize (H x Hx);
    apply andb_prop in H as [Hl Hd]; [exact Hl|].
  apply lexChar_inv in Hl as (_ & _ & _ & _ & _ & Hsq & Hdq & Hbs).
  apply negb_true_iff in Hd. unfold isSpecial. rewrite Hsq, Hdq, Hbs, Hd.
  reflexivity.
Qed.

Lemma parseVar_literal (base : nat) (s : list ascii) (ps : list Part) (i : nat) :
  startsVar (s !! (i + 1)) = false ->
  parseVar base s 0 ps i = (i + 1, pushText base ps [dollar] (0 + i) (0 + i + 1)).
Proof.
  unfold startsVar. intros H. apply orb_false_elim in H as [H1 H2].
  unfold parseVar. rewrite H1, H2. reflexivity.
Qed.

Lemma split_literal_dollar {Other : Type} (toStr : Other -> list ascii)
    (ctx : Ctx Other) (w : list ascii) (base : nat) :
  plainChars w = true -> startsVar (w !! 0) = false ->
  exists ps,
    splitWordIntoParts (dollar :: w) base = Some (mergeParts ps) /\
    expandParts toStr ctx ps = dollar :: w.
Proof.
  intros Hw Hv. destruct (plainChars_inv w Hw) as [_ Hsp].
  assert (splitBody (dollar :: w) base (0, []) =
          Some (inl (1, pushText base [] [dollar] (0 + 0) (0 + 0 + 1)))) as H1.
  { rewrite (splitBody_dollar (dollar :: w) base 0 [] eq_refl).
    rewrite (parseVar_literal base (dollar :: w) [] 0 Hv). reflexivity. }
  unfold splitWordIntoParts. rewrite (while_continue _ _ _ _ H1). clear H1.
  destruct w as [|c w'].
  - exists (pushText base [] [dollar] (0 + 0) (0 + 0 + 1)).
    erewrite while_exit_pos; cycle 1;
      [simpl; lia|apply splitBody_end; simpl; lia|].
    split; reflexivity.
  - assert (isSpecial c = false) as Hc.
    { cbn [forallb] in Hsp. apply andb_prop in Hsp as [Hc _].
      apply negb_true_iff in Hc. exact Hc. }
    pose proof (splitBody_run (dollar :: c :: w') base 1
                  (pushText base [] [dollar] (0 + 0) (0 + 0 + 1))
                  c eq_refl Hc) as H2.
    change (drop 1 (dollar :: c :: w')) with (c :: w') in H2.
    rewrite (scanWhile_all _ (c :: w') Hsp) in H2.
    assert (slice (dollar :: c :: w') 1 (1 + length (c :: w')) = c :: w') as Hsl.
    { unfold slice. change (drop 1 (dollar :: c :: w')) with (c :: w').
      apply take_ge. lia. }
    rewrite Hsl in H2. cbn [length] in H2.
    replace (1 <? 1 + S (length w')) with true in H2
      by (symmetry; apply Nat.ltb_lt; lia).
    cbn [length]. rewrite (while_continue _ _ _ _ H2).
    eexists.
    erewrite while_exit_pos; cycle 1;
      [simpl; lia|apply splitBody_end; simpl; lia|].
    split; [reflexivity|].
    rewrite expandParts_pushText. reflexivity.
Qed.

(** X15: a [$] that is followed neither by [{] nor by a letter or [_] is an
    ordinary character: for characters [w] that need no quoting (possibly
    none) and do not begin that way, the input [$w] is one word that expands
    to [$w] itself in every context. *)
Theorem literal_dollar {Other : Type} (toStr : Other -> list ascii)
    (ctx : Ctx Other) (w : list ascii) :
  plainChars w = true -> startsVar (w !! 0) = false ->
  exists word,
    word_of (dollar :: w) = Some word /\
    expandWord toStr word ctx = dollar :: w.
Proof.
  intros Hw Hv. destruct (plainChars_inv w Hw) as [Hlex _].
  destruct (split_literal_dollar toStr ctx w 0 Hw Hv) as (ps & Hsplit & Hexp).
  destruct (parse_lexWord (dollar :: w) _
              ltac:(simpl; rewrite Hlex; reflexivity)
              ltac:(unfold makeWord; rewrite Hsplit; reflexivity))
    as (? & ? & _ & Hword).
  eexists. split; [exact Hword|]. rewrite expandWord_merged. exact Hexp.
Qed.

Lemma literal_dollar_witness :
  plainChars (js "5.00") = true /\ startsVar (js "5.00" !! 0) = false /\
  exists word,
    word_of (dollar :: js "5.00") = Some word /\
    expandWord jsObjectText word (objectLiteral ∅)
    = dollar :: js "5.00".
Proof.
  split; [reflexivity|]. split; [reflexivity|].
  apply (literal_dollar jsObjectText (objectLiteral ∅)
           (js "5.00")); reflexivity.
Defined.

(** ** Quoting a text between double quotes *)

Lemma dquoteSpecial_facts (c : ascii) :
  dquoteSpecial c = true -> Ascii.eqb c "n" = false /\ Ascii.eqb c "t" = false.
Proof. ascii_cases c. Qed.

Lemma dquoteSpecial_false (c : ascii) :
  dquoteSpecial c = false ->
  Ascii.eqb c dquote = false /\ Ascii.eqb c backslash = false /\
  Ascii.eqb c dollar = false.
Proof.
  unfold dquoteSpecial. intros H. apply orb_false_elim in H as [H H3].
  apply orb_false_elim in H as [H1 H2]. auto.
Qed.

Lemma scanQuoted_dquoteQuote (s : list ascii) :
  scanQuoted dquote (flat_map dquoteEscape s ++ [dquote]) =
    S (length (flat_map dquoteEscape s)).
Proof.
  induction s as [|c s IH]; [reflexivity|].
  cbn [flat_map]. unfold dquoteEscape at 1 3.
  destruct (dquoteSpecial c) eqn:Hc.
  - change (scanQuoted dquote (([backslash; c] ++ flat_map dquoteEscape s) ++ [dquote]))
      with (S (S (scanQuoted dquote (flat_map dquoteEscape s ++ [dquote])))).
    rewrite IH. reflexivity.
  - destruct (dquoteSpecial_false c Hc) as (Hq & Hb & _).
    change (scanQuoted dquote (([c] ++ flat_map dquoteEscape s) ++ [dquote]))
      with (if Ascii.eqb c backslash && Ascii.eqb dquote dquote
            then match flat_map dquoteEscape s ++ [dquote] with
                 | [] => 2
                 | _ :: rest'' => S (S (scanQuoted dquote rest''))
                 end
            else if Ascii.eqb c dquote then 1
                 else S (scanQuoted dquote (flat_map dquoteEscape s ++ [dquote]))).
    rewrite Hb, Hq, IH. reflexivity.
Qed.

Lemma dquoteQuote_length (s : list ascii) :
  length (dquoteQuote s) = S (S (length (flat_map dquoteEscape s))).
Proof. unfold dquoteQuote. simpl. rewrite length_app. simpl. lia. Qed.

Lemma scanWord_dquoteQuote (s : list ascii) :
  scanWord (dquoteQuote s) 0 = Some (length (dquoteQuote s)).
Proof.
  assert (wordBody (dquoteQuote s) 0 = Some (inl (length (dquoteQuote s)))) as Hb.
  { rewrite wordBody_dquote by reflexivity.
    change (drop (0 + 1) (dquoteQuote s)) with (flat_map dquoteEscape s ++ [dquote]).
    rewrite scanQuoted_dquoteQuote, dquoteQuote_length. reflexivity. }
  unfold scanWord. rewrite (while_continue _ _ _ _ Hb).
  apply while_exit_pos; [rewrite dquoteQuote_length; lia|].
  unfold wordBody. rewrite lookup_ge_None_2 by lia. reflexivity.
Qed.

(** The index in [dquoteQuote s] of what stands for the character [k] of [s]. *)
Lemma dquoteQuote_lookup (s : list ascii) (k : nat) (j : nat) :
  dquoteQuote s !! (1 + length (flat_map dquoteEscape (take k s)) + j) =
    (flat_map dquoteEscape (drop k s) ++ [dquote]) !! j.
Proof.
  assert (flat_map dquoteEscape s =
          flat_map dquoteEscape (take k s) ++ flat_map dquoteEscape (drop k s)) as E.
  { rewrite <- flat_map_app, take_drop. reflexivity. }
  unfold dquoteQuote. rewrite E at 1. rewrite <- app_assoc.
  change (dquote :: ?l) with ([dquote] ++ l). rewrite app_assoc.
  rewrite lookup_app_r by (rewrite length_app; simpl; lia).
  f_equal. rewrite length_app. simpl. lia.
Qed.

Lemma dquoteEscape_next (s : list ascii) (k : nat) (c : ascii) :
  s !! k = Some c ->
  length (flat_map dquoteEscape (take (S k) s)) =
    length (flat_map dquoteEscape (take k s))
      + (if dquoteSpecial c then 2 else 1) /\
  drop k s = c :: drop (S k) s.
Proof.
  intros Hc. split; [|apply drop_S, Hc].
  rewrite (take_S_r _ _ _ Hc), flat_map_app, length_app. simpl.
  rewrite app_nil_r. unfold dquoteEscape. destruct (dquoteSpecial c); reflexivity.
Qed.

Lemma slice_snoc (raw : list ascii) (a i : nat) (c : ascii) :
  a <= i -> raw !! i = Some c -> slice raw a (i + 1) = slice raw a i ++ [c].
Proof.
  intros Ha Hc. unfold slice.
  replace (i + 1 - a) with (S (i - a)) by lia.
  apply take_S_r. rewrite lookup_drop. replace (a + (i - a)) with i by lia.
  exact Hc.
Qed.

Lemma slice_empty (raw : list ascii) (i : nat) : slice raw i i = [].
Proof. unfold slice. rewrite Nat.sub_diag. apply take_0. Qed.

Lemma scanTextForVars_noDollar (base : nat) (ps : list Part) (text : list ascii)
    (offset : nat) :
  noDollar text = true ->
  scanTextForVars base ps text offset =
    Some (if 0 <? length text
          then pushText base ps (drop 0 text) (offset + 0) (offset + length text)
          else ps).
Proof.
  intros Ht. unfold scanTextForVars.
  destruct (while_total (scanVarsBody base text offset)
              (fun st => st.1.2 = 0 /\ st.2 = ps)
              (fun r => r = (0, ps))
              (fun st => length text - st.1.1))
    with (fuel := S (length text)) (s := (0, 0, ps)) as (r & -> & ->);
    [|split; reflexivity|simpl; lia|reflexivity].
  intros [[p acc] qs] [Hacc Hqs]. cbn [fst snd] in Hacc, Hqs. subst acc qs.
  unfold scanVarsBody. destruct (text !! p) as [c|] eqn:Hc; [|reflexivity].
  assert (Ascii.eqb c dollar = false) as ->.
  { unfold noDollar in Ht. rewrite forallb_forall in Ht.
    apply negb_true_iff, Ht, list_elem_of_In. eapply list_elem_of_lookup_2, Hc. }
  apply lookup_lt_Some in Hc. cbn [fst snd]. split; [split; reflexivity|lia].
Qed.

Lemma flushSegment_noDollar {Other : Type} (toStr : Other -> list ascii)
    (ctx : Ctx Other) (raw : list ascii) (base : nat)
    (ps : list Part) (seg i : nat) :
  seg <= i -> noDollar (slice raw seg i) = true ->
  exists ps', flushSegment raw base ps seg i = Some ps' /\
              expandParts toStr ctx ps' = expandParts toStr ctx ps ++ slice raw seg i.
Proof.
  intros Hle Hnd. unfold flushSegment. destruct (seg <? i) eqn:Hlt.
  - rewrite (scanTextForVars_noDollar base ps _ seg Hnd). eexists.
    split; [reflexivity|]. destruct (0 <? length (slice raw seg i)) eqn:Hl.
    + rewrite expandParts_pushText, drop_0. reflexivity.
    + apply Nat.ltb_ge in Hl. destruct (slice raw seg i); [|simpl in Hl; lia].
      rewrite app_nil_r. reflexivity.
  - apply Nat.ltb_ge in Hlt. assert (seg = i) as -> by lia.
    eexists. split; [reflexivity|]. rewrite slice_empty, app_nil_r. reflexivity.
Qed.

Lemma dquoteBody_escape (raw : list ascii) (base i seg : nat) (ps : list Part)
    (c : ascii) :
  raw !! i = Some backslash -> raw !! (i + 1) = Some c -> dquoteSpecial c = true ->
  dquoteBody raw base (i, seg, ps) =
    Some (inl (i + 2, i + 2,
               pushText base
                 (if seg <? i then pushText base ps (slice raw seg i) seg i else ps)
                 [c] i (i + 2))).
Proof.
  intros H1 H2 Hc. destruct (dquoteSpecial_facts c Hc) as [Hn Ht].
  unfold dquoteBody. rewrite H1, H2. cbn [charIs]. rewrite Hn, Ht. reflexivity.
Qed.

Lemma dquoteBody_close (raw : list ascii) (base i seg : nat) (ps ps' : list Part) :
  raw !! i = Some dquote -> flushSegment raw base ps seg i = Some ps' ->
  dquoteBody raw base (i, seg, ps) = Some (inr (i + 1, ps')).
Proof. intros H1 H2. unfold dquoteBody. rewrite H1. cbn. rewrite H2. reflexivity. Qed.

Lemma dquoteLoop_quoted {Other : Type} (toStr : Other -> list ascii)
    (ctx : Ctx Other) (s : list ascii) (base : nat) :
  exists ps,
    while (dquoteBody (dquoteQuote s) base) (S (length (dquoteQuote s))) (1, 1, [])
      = Some (length (dquoteQuote s), ps) /\
    expandParts toStr ctx ps = s.
Proof.
  set (raw := dquoteQuote s).
  set (pos := fun k => 1 + length (flat_map dquoteEscape (take k s))).
  destruct (while_total (dquoteBody raw base)
              (fun st => exists k, k <= length s /\ st.1.1 = pos k /\
                                   1 <= st.1.2 <= st.1.1 /\
                                   noDollar (slice raw st.1.2 st.1.1) = true /\
                                   expandParts toStr ctx st.2
                                     ++ slice raw st.1.2 st.1.1 = take k s)
              (fun r => r.1 = length raw /\ expandParts toStr ctx r.2 = s)
              (fun st => length raw - st.1.1))
    with (fuel := S (length raw)) (s := (1, 1, @nil Part))
    as ([i' ps] & Hw & Hi' & Hps).
  - intros [[i seg] ps] (k & Hk & Hi & Hseg & Hnd & Hexp).
    cbn [fst snd] in Hi, Hseg, Hnd, Hexp.
    destruct (decide (k < length s)) as [Hlt|Hge].
    + destruct (s !! k) as [c|] eqn:Hc; [|apply lookup_ge_None in Hc; lia].
      destruct (dquoteEscape_next s k c Hc) as [Hnext Hdrop].
      pose proof (dquoteQuote_lookup s k 0) as L0.
      pose proof (dquoteQuote_lookup s k 1) as L1.
      rewrite Hdrop in L0, L1. cbn [flat_map] in L0, L1.
      fold raw in L0, L1. fold (pos k) in L0, L1. rewrite <- Hi in L0, L1.
      rewrite Nat.add_0_r in L0.
      unfold dquoteEscape in L0, L1.
      destruct (dquoteSpecial c) eqn:Hsp.
      * cbn in L0, L1.
        rewrite (dquoteBody_escape raw base i seg ps c L0 L1 Hsp).
        pose proof (lookup_lt_Some _ _ _ L1). cbn [fst snd]. split; [|lia].
        exists (S k). split; [lia|]. split; [unfold pos in *; lia|].
        split; [lia|]. rewrite slice_empty. split; [reflexivity|].
        rewrite app_nil_r, expandParts_pushText.
        rewrite (take_S_r _ _ _ Hc), <- Hexp. f_equal.
        destruct (seg <? i) eqn:Hsi.
        -- apply expandParts_pushText.
        -- apply Nat.ltb_ge in Hsi. assert (seg = i) as -> by lia.
           rewrite slice_empty, app_nil_r. reflexivity.
      * cbn in L0.
        destruct (dquoteSpecial_false c Hsp) as (Hq & Hb & Hd).
        rewrite (dquoteBody_plain raw base i seg ps c L0)
          by (rewrite Hq, Hb, Hd; reflexivity).
        pose proof (lookup_lt_Some _ _ _ L0). cbn [fst snd]. split; [|lia].
        exists (S k). split; [lia|]. split; [unfold pos in *; lia|].
        split; [lia|]. rewrite (slice_snoc raw seg i c) by (lia || exact L0).
        split.
        -- unfold noDollar in *. rewrite forallb_app, Hnd. simpl. rewrite Hd.
           reflexivity.
        -- rewrite app_assoc, Hexp, (take_S_r _ _ _ Hc). reflexivity.
    + assert (k = length s) as -> by lia.
      pose proof (dquoteQuote_lookup s (length s) 0) as L0.
      rewrite drop_all in L0.
      change ((flat_map dquoteEscape [] ++ [dquote]) !! 0) with (Some dquote) in L0.
      change (raw !! (pos (length s) + 0) = Some dquote) in L0.
      rewrite <- Hi, Nat.add_0_r in L0.
      destruct (flushSegment_noDollar toStr ctx raw base ps seg i (proj2 Hseg) Hnd)
        as (ps' & Hflush & Hexp').
      rewrite (dquoteBody_close raw base i seg ps ps' L0 Hflush).
      cbn [fst snd]. split.
      * unfold raw. rewrite dquoteQuote_length. unfold pos in Hi.
        rewrite take_ge in Hi by lia. lia.
      * rewrite Hexp', Hexp. apply take_ge. lia.
  - exists 0. cbn [fst snd]. split; [lia|]. split; [reflexivity|].
    split; [lia|]. rewrite slice_empty. split; reflexivity.
  - cbn [fst snd]. unfold raw. rewrite dquoteQuote_length. lia.
  - cbn [fst snd] in Hi', Hps. subst i'. exists ps. auto.
Qed.

Lemma split_dquoteQuote {Other : Type} (toStr : Other -> list ascii)
    (ctx : Ctx Other) (s : list ascii) (base : nat) :
  exists ps,
    splitWordIntoParts (dquoteQuote s) base = Some (mergeParts ps) /\
    expandParts toStr ctx ps = s.
Proof.
  destruct (dquoteLoop_quoted toStr ctx s base) as (ps & Hloop & Hexp).
  exists ps. split; [|exact Hexp].
  assert (splitBody (dquoteQuote s) base (0, []) =
          Some (inl (length (dquoteQuote s), ps))) as Hstep.
  { transitivity
      (match while (dquoteBody (dquoteQuote s) base) (S (length (dquoteQuote s)))
               (1, 1, []) with
       | None => None
       | Some st' => Some (inl st')
       end : option (nat * list Part + list Part)); [reflexivity|].
    rewrite Hloop. reflexivity. }
  unfold splitWordIntoParts. rewrite (while_continue _ _ _ _ Hstep).
  erewrite while_exit_pos; cycle 1;
    [rewrite dquoteQuote_length; lia|apply splitBody_end; lia|reflexivity].
Qed.

(** X16: double quotes with backslashes quote any text: for every string
    [s], empty or not and whatever its characters, the input made of [s]
    between double quotes, with a backslash before each double quote,
    backslash and [$] of [s], is one command with one word, and in every
    context that word expands to [s]. *)
Theorem double_quote_roundtrip {Other : Type} (toStr : Other -> list ascii)
    (ctx : Ctx Other) (s : list ascii) :
  exists p cmd w,
    parse (dquoteQuote s) = Some p /\ commands p = [cmd] /\
    words cmd = [w] /\ redirections cmd = [] /\
    expandWord toStr w ctx = s.
Proof.
  destruct (split_dquoteQuote toStr ctx s 0) as (ps & Hsplit & Hexp).
  destruct (parse_one_word (dquoteQuote s) dquote (length (dquoteQuote s))
              (mkWord (mergeParts ps) (makeSpan 0 (0 + length (dquoteQuote s))))
              eq_refl eq_refl (scanWord_dquoteQuote s) (le_n _)
              ltac:(unfold makeWord; rewrite Hsplit; reflexivity))
    as (sp1 & sp2 & Hp & _).
  do 3 eexists. split; [exact Hp|]. repeat split; try reflexivity.
  rewrite expandWord_merged. exact Hexp.
Qed.

(** ** Redirections without a descriptor *)

Lemma lexBody_operator (o name w : list ascii) :
  In (o, name) redirOperators -> forallb lexChar w = true ->
  exists k,
    let t := mkToken k o 0 (length o) None in
    lexBody (o ++ w) (0, []) = Some (inl (length o, [t])) /\
    k <> TokenKind.EOF /\
    forall T,
      parseCommandBody (t :: T) (0, [], []) =
        inl <$> parseRedirection (t :: T) 1 [] [] t name undefined false None.
Proof.
  intros Hin Hw.
  assert (charIs ">" (w !! 0) = false) as Hgt.
  { destruct w as [|c w]; [reflexivity|]. simpl in Hw.
    apply andb_prop in Hw as [Hc _].
    apply lexChar_inv in Hc as (_ & _ & _ & Hgt & _). exact Hgt. }
  simpl in Hin. destruct Hin as [H|[H|[H|[H|[]]]]]; injection H as <- <-.
  - exists TokenKind.GT. split; [|split; [discriminate|reflexivity]].
    unfold lexBody. cbn [app js list_ascii_of_string lookup list_lookup isSpace
      isDigit Ascii.eqb Bool.eqb andb orb].
    change ((">"%char :: w) !! (0 + 1)) with (w !! 0). rewrite Hgt. reflexivity.
  - exists TokenKind.GTGT. split; [|split; [discriminate|reflexivity]].
    reflexivity.
  - exists TokenKind.LT. split; [|split; [discriminate|reflexivity]].
    reflexivity.
  - exists TokenKind.AMP_GT. split; [|split; [discriminate|reflexivity]].
    reflexivity.
Qed.

(** X17: a redirection operator without a descriptor, followed at once by a
    word [w] that needs no quoting: for [>], [>>], [<] and [&>] the input is
    one command with no word and one redirection, whose [op] is ['>'],
    ['>>'], ['<'] and ['clobber'] respectively, whose [fd] and [dupTargetFd]
    are undefined, whose target expands to [w] and whose span is the whole
    input. *)
Theorem plain_redirection {Other : Type} (toStr : Other -> list ascii)
    (ctx : Ctx Other) (o name w : list ascii) :
  In (o, name) redirOperators -> plainWord w = true ->
  exists p cmd r,
    parse (o ++ w) = Some p /\
    commands p = [cmd] /\ words cmd = [] /\ redirections cmd = [r] /\
    op r = name /\ fd r = undefined /\ dupTargetFd r = undefined /\
    expandWord toStr (target r) ctx = w /\
    rspan r = makeSpan 0 (length (o ++ w)).
Proof.
  intros Hin Hw.
  destruct (plainWord_inv w Hw) as (Hne & Hlex & Hsp).
  destruct (lexBody_operator o name w Hin Hlex) as (k & Hstep & Hk & Hparse).
  cbv zeta in Hstep, Hparse.
  set (t := mkToken k o 0 (length o) None) in *.
  set (input := o ++ w).
  assert (0 < length o) as Hol.
  { simpl in Hin. destruct Hin as [H|[H|[H|[H|[]]]]]; injection H as <- <-;
      simpl; lia. }
  assert (length input = length o + length w) as Hlen
    by (unfold input; rewrite length_app; lia).
  assert (0 < length w) as Hwl by (destruct w; [contradiction|simpl; lia]).
  assert (lex input = Some ([t; itemToken (length o) (IWord w)] ++ [eofToken input]))
    as Hlex'.
  { unfold lex. rewrite (while_continue _ _ _ _ Hstep).
    erewrite (lex_items [IWord w] input).
    - unfold pushToken, eofToken, slice. rewrite Nat.sub_diag, take_0. reflexivity.
    - unfold input. apply drop_app_length.
    - simpl. unfold lexWord. destruct w; [contradiction|]. rewrite Hlex. reflexivity.
    - cbn [renderItems itemText]. lia. }
  destruct (makeWord_total w (length o)) as (ps & _ & Hmw).
  destruct (makeWord_plain toStr ctx w _ _ Hw Hmw) as [_ Hexp].
  unfold parse. rewrite Hlex'.
  erewrite (parseTokens_one_step _ t (eofToken input) 2); cycle 1.
  - reflexivity.
  - exact Hk.
  - reflexivity.
  - reflexivity.
  - simpl. lia.
  - cbn [app]. rewrite Hparse. unfold parseRedirection.
    cbn [peekTok lookup list_lookup app Nat.add t kind meta itemToken text tstart
         TokenKind.eqb negb fmap option_fmap option_map].
    rewrite Hmw. reflexivity.
  - do 3 eexists. split; [reflexivity|]. cbn [commands words redirections fd op
      dupTargetFd target rspan].
    repeat split; try reflexivity; [exact Hexp|].
    cbn [tstart tend t itemToken]. rewrite Hlen. reflexivity.
Qed.

Lemma plain_redirection_witness :
  In (js "&>", js "clobber") redirOperators /\ plainWord (js "all.log") = true /\
  exists p cmd r,
    parse (js "&>" ++ js "all.log") = Some p /\
    commands p = [cmd] /\ words cmd = [] /\ redirections cmd = [r] /\
    op r = js "clobber" /\ fd r = undefined /\ dupTargetFd r = undefined /\
    expandWord jsObjectText
      (target r) (objectLiteral ∅) = js "all.log" /\
    rspan r = makeSpan 0 (length (js "&>" ++ js "all.log")).
Proof.
  split; [simpl; auto|]. split; [reflexivity|].
  apply (plain_redirection jsObjectText (objectLiteral ∅)
           (js "&>") (js "clobber") (js "all.log")); [simpl; auto|reflexivity].
Defined.

(** ** The spans of commands, words and redirections *)

Lemma scanWhile_le (p : ascii -> bool) (l : list ascii) :
  scanWhile p l <= length l.
Proof.
  induction l as [|c l IH]; [reflexivity|]. simpl. destruct (p c); lia.
Qed.

Lemma charIs_lt (c : ascii) (input : list ascii) (i : nat) :
  charIs c (input !! i) = true -> i < length input.
Proof. intros H. apply charIs_true in H. eapply lookup_lt_Some, H. Qed.

Lemma lexFd_ends (input : list ascii) (tokens : list Token) (i j : nat)
    (toks : list Token) :
  lexFd input tokens i = Some (j, toks) ->
  j <= length input /\
  exists m, toks = pushToken input tokens TokenKind.FD_GT i j m.
Proof.
  unfold lexFd.
  set (i0 := i + scanWhile isDigit (drop i input)).
  destruct (charIs ">" (input !! i0)) eqn:H0; [|discriminate].
  apply charIs_lt in H0.
  destruct (charIs ">" (input !! (i0 + 1))) eqn:H1.
  { apply charIs_lt in H1. intros H. injection H as <- <-.
    split; [lia|eauto]. }
  destruct (charIs "&" (input !! (i0 + 1))) eqn:H2.
  { apply charIs_lt in H2. intros H. injection H as <- <-.
    pose proof (scanWhile_le isDigit (drop (i0 + 1 + 1) input)) as Hle.
    rewrite length_drop in Hle. split; [lia|eauto]. }
  intros H. injection H as <- <-. split; [lia|eauto].
Qed.

Lemma Forall_pushToken (P : Token -> Prop) (input : list ascii)
    (tokens : list Token) (k : TokenKind.t) (s e : nat) (m : option Meta) :
  Forall P tokens -> P (mkToken k (slice input s e) s e m) ->
  Forall P (pushToken input tokens k s e m).
Proof.
  intros H1 H2. unfold pushToken. apply Forall_app. split; [exact H1|].
  constructor; [exact H2|constructor].
Qed.

Lemma lexBody_ends (input : list ascii) (st : nat * list Token) :
  Forall (operatorEndOk (length input)) st.2 ->
  match lexBody input st with
  | Some (inl st') => Forall (operatorEndOk (length input)) st'.2
  | Some (inr toks) => Forall (operatorEndOk (length input)) toks
  | None => True
  end.
Proof.
  destruct st as [i tokens]. cbn [fst snd]. intros Hall.
  unfold lexBody. destruct (input !! i) as [ch|] eqn:Hch; [|exact Hall].
  pose proof (lookup_lt_Some _ _ _ Hch) as Hi.
  destruct (isSpace ch); [exact Hall|].
  destruct (Ascii.eqb ch "|").
  { apply Forall_pushToken; [exact Hall|]. intros _. simpl. lia. }
  destruct (Ascii.eqb ch "&" && charIs ">" (input !! (i + 1))) eqn:Hamp.
  { apply andb_prop in Hamp as [_ Hamp]. apply charIs_lt in Hamp.
    apply Forall_pushToken; [exact Hall|]. intros _. simpl. lia. }
  destruct (if isDigit ch then lexFd input tokens i else None)
    as [[j toks]|] eqn:Hfd.
  { destruct (isDigit ch); [|discriminate].
    apply lexFd_ends in Hfd as (Hj & m & ->). cbn [snd].
    apply Forall_pushToken; [exact Hall|]. intros _. simpl. exact Hj. }
  destruct (Ascii.eqb ch ">").
  { destruct (charIs ">" (input !! (i + 1))) eqn:Hgt.
    - apply charIs_lt in Hgt. apply Forall_pushToken; [exact Hall|].
      intros _. simpl. lia.
    - apply Forall_pushToken; [exact Hall|]. intros _. simpl. lia. }
  destruct (Ascii.eqb ch "<").
  { apply Forall_pushToken; [exact Hall|]. intros _. simpl. lia. }
  destruct (scanWord input i) as [wend|]; [|exact I].
  apply Forall_pushToken; [exact Hall|]. intros Hk. simpl in Hk. contradiction.
Qed.

(** The tokens of the lexer, with what the parser uses of them. *)
Lemma lex_fits (input : list ascii) :
  exists toks,
    lex input = Some (toks ++ [eofToken input]) /\
    Forall tokenOk toks /\ Forall (tokenFits (length input)) toks /\
    tokensOrdered toks.
Proof.
  destruct (lex_spans input) as (toks & Hlex & Hspan & Hord & _).
  destruct (lex_shape input) as (toks' & Hlex' & Hok & _).
  rewrite Hlex in Hlex'. injection Hlex' as Heq.
  apply app_inj_tail in Heq as [<- _].
  exists toks. split; [exact Hlex|]. split; [exact Hok|]. split; [|exact Hord].
  destruct (while_total (lexBody input)
              (fun st => lexInv input st /\ Forall (operatorEndOk (length input)) st.2)
              (fun r => Forall (operatorEndOk (length input)) r)
              (fun st => length input - st.1))
    with (fuel := S (length input)) (s := (0, @nil Token)) as (r & Hw & Hends).
  - intros st [Hinv Hall].
    pose proof (lexBody_ok input st Hinv) as H1.
    pose proof (lexBody_ends input st Hall) as H2.
    destruct (lexBody input st) as [[st'|r]|]; [|exact H2|contradiction].
    destruct H1. auto.
  - split; [split; [constructor|reflexivity]|constructor].
  - simpl. lia.
  - unfold lex in Hlex. rewrite Hw in Hlex. injection Hlex as Heq.
    unfold pushToken, eofToken, slice in Heq.
    rewrite Nat.sub_diag, take_0 in Heq. apply app_inj_tail in Heq as [-> _].
    rewrite Forall_forall in *. intros t Ht.
    destruct (Hspan t Ht) as (H1 & H2 & H3). specialize (Hends t Ht).
    assert (length (text t) = Nat.min (tend t - tstart t) (length input - tstart t))
      as Hlen by (rewrite H3; unfold slice; rewrite length_take, length_drop;
                  reflexivity).
    unfold tokenFits. repeat split; try assumption; lia.
Qed.

Section SpanNesting.
Variables (body : list Token) (e : Token) (len : nat).
Hypothesis He : kind e = TokenKind.EOF.
Hypothesis HeN : tstart e = len.
Hypothesis Hbody : Forall tokenOk body.
Hypothesis Hfit : Forall (tokenFits len) body.
Hypothesis Hord : tokensOrdered body.
Let tokens := body ++ [e].

Lemma peek_startAt (idx : nat) (t : Token) :
  peekTok tokens idx 0 = Some t -> tstart t = startAt body len idx.
Proof.
  unfold startAt.
  destruct (peekTok_cases body e Hbody idx)
    as [(t' & Ht' & _ & Hpeek & _)|(Hge & Hpeek)];
    fold tokens in Hpeek; rewrite Hpeek; intros H; injection H as <-.
  - rewrite Ht'. reflexivity.
  - rewrite lookup_ge_None_2 by lia. exact HeN.
Qed.

Lemma startAt_after (idx : nat) (t : Token) :
  body !! idx = Some t ->
  tstart t = startAt body len idx /\
  tstart t < startAt body len (idx + 1) /\
  tstart t + length (text t) <= startAt body len (idx + 1) /\
  (kind t <> TokenKind.Word -> tend t <= startAt body len (idx + 1)).
Proof.
  intros Ht. unfold startAt. rewrite Ht. split; [reflexivity|].
  destruct (Forall_lookup_1 _ _ _ _ Hfit Ht) as (H1 & H2 & H3 & H4 & H5).
  destruct (body !! (idx + 1)) as [t'|] eqn:Ht'.
  - pose proof (Hord idx (idx + 1) t t' Ht Ht' ltac:(lia)) as Hle.
    repeat split; lia.
  - repeat split; try lia. exact H5.
Qed.

Lemma startAt_le (idx : nat) : startAt body len idx <= len.
Proof.
  unfold startAt. destruct (body !! idx) as [t|] eqn:Ht; [|lia].
  destruct (Forall_lookup_1 _ _ _ _ Hfit Ht) as (_ & H2 & _). lia.
Qed.

Lemma startAt_step (idx : nat) : startAt body len idx <= startAt body len (idx + 1).
Proof.
  destruct (body !! idx) as [t|] eqn:Ht.
  - destruct (startAt_after idx t Ht) as (H1 & H2 & _). lia.
  - unfold startAt. rewrite Ht.
    rewrite lookup_ge_None_2 by (apply lookup_ge_None in Ht; lia). lia.
Qed.

Lemma commandSpanInv_weaken (lo idx idx' : nat) (ws : list Word)
    (rs : list Redirection) :
  startAt body len idx <= startAt body len idx' ->
  commandSpanInv body len lo (idx, ws, rs) ->
  commandSpanInv body len lo (idx', ws, rs).
Proof.
  intros Hle (H1 & H2 & H3). cbn [fst snd] in *. repeat split; cbn [fst snd].
  - lia.
  - eapply Forall_impl; [exact H2|]. simpl. intros w [? ?]. split; lia.
  - eapply Forall_impl; [exact H3|]. simpl. intros r [? ?]. split; [assumption|lia].
Qed.

Lemma commandSpanInv_word (lo idx' : nat) (ws : list Word)
    (rs : list Redirection) (w : Word) :
  commandSpanInv body len lo (idx', ws, rs) ->
  lo <= start (wspan w) -> end_ (wspan w) <= startAt body len idx' ->
  commandSpanInv body len lo (idx', ws ++ [w], rs).
Proof.
  intros (H1 & H2 & H3) Ha Hb. cbn [fst snd] in *. repeat split; cbn [fst snd].
  - exact H1.
  - apply Forall_app. split; [exact H2|]. constructor; [split; assumption|constructor].
  - exact H3.
Qed.

Lemma commandSpanInv_redirection (lo idx' : nat) (ws : list Word)
    (rs : list Redirection) (r : Redirection) :
  commandSpanInv body len lo (idx', ws, rs) ->
  lo <= start (rspan r) <= start (wspan (target r)) ->
  end_ (wspan (target r)) <= startAt body len idx' ->
  commandSpanInv body len lo (idx', ws, rs ++ [r]).
Proof.
  intros (H1 & H2 & H3) Ha Hb. cbn [fst snd] in *. repeat split; cbn [fst snd].
  - exact H1.
  - exact H2.
  - apply Forall_app. split; [exact H3|]. constructor; [split; assumption|constructor].
Qed.

Lemma parseRedirection_spans (lo idx : nat) (ws : list Word)
    (rs : list Redirection) (t : Token) (o : list ascii) (f : OptNum) (dup : bool)
    (dt : option JsNumber) (st' : nat * list Word * list Redirection) :
  body !! idx = Some t -> kind t <> TokenKind.Word ->
  commandSpanInv body len lo (idx, ws, rs) ->
  parseRedirection tokens (idx + 1) ws rs t o f dup dt = Some st' ->
  commandSpanInv body len lo st'.
Proof.
  intros Ht Hk Hinv.
  destruct (startAt_after idx t Ht) as (Hs & Hlt & _ & Hend). specialize (Hend Hk).
  destruct (Forall_lookup_1 _ _ _ _ Hfit Ht) as (Hse & _).
  pose proof Hinv as (Hlo & _). cbn [fst snd] in Hlo.
  pose proof (commandSpanInv_weaken lo idx (idx + 1) ws rs (startAt_step idx) Hinv)
    as Hinv1.
  unfold parseRedirection.
  destruct (peekTok_cases body e Hbody (idx + 1))
    as [(next & Hnext & Hnlt & Hpeek & Hnok)|(Hge & Hpeek)];
    fold tokens in Hpeek; rewrite Hpeek.
  - destruct (TokenKind.eqb (kind next) TokenKind.Word) eqn:Hw; cbn [negb].
    + destruct (makeWord_total (text next) (tstart next)) as (ps & _ & ->).
      intros H. injection H as <-.
      destruct (startAt_after (idx + 1) next Hnext) as (Hs' & _ & Hlen' & _).
      apply commandSpanInv_redirection.
      * apply (commandSpanInv_weaken lo (idx + 1)); [apply startAt_step|exact Hinv1].
      * cbn [rspan target wspan start end_]. lia.
      * cbn [rspan target wspan start end_]. exact Hlen'.
    + rewrite makeWord_empty. intros H. injection H as <-.
      apply commandSpanInv_redirection; [exact Hinv1| |];
        cbn [rspan target wspan start end_]; lia.
  - rewrite He. cbn [TokenKind.eqb negb]. rewrite makeWord_empty.
    intros H. injection H as <-.
    apply commandSpanInv_redirection; [exact Hinv1| |];
      cbn [rspan target wspan start end_]; lia.
Qed.

Lemma parseCommandBody_spans (lo : nat) (st : nat * list Word * list Redirection) :
  commandSpanInv body len lo st ->
  match parseCommandBody tokens st with
  | Some (inl st') => commandSpanInv body len lo st'
  | Some (inr r) => commandSpanInv body len lo r
  | None => True
  end.
Proof.
  destruct st as [[idx ws] rs]. intros Hinv.
  unfold parseCommandBody.
  destruct (peekTok_cases body e Hbody idx)
    as [(tk & Htk & Hlt & Hpeek & Hnok)|(Hge & Hpeek)];
    fold tokens in Hpeek; rewrite Hpeek; [|rewrite He; exact Hinv].
  assert (forall o f dup dt,
            kind tk <> TokenKind.Word ->
            match inl <$> parseRedirection tokens (idx + 1) ws rs tk o f dup dt
                  : option (nat * list Word * list Redirection
                            + nat * list Word * list Redirection) with
            | Some (inl st') => commandSpanInv body len lo st'
            | Some (inr r) => commandSpanInv body len lo r
            | None => True
            end) as Hredir.
  { intros o f dup dt Hk.
    destruct (parseRedirection tokens (idx + 1) ws rs tk o f dup dt) as [st'|] eqn:Hr;
      [|exact I].
    cbn [fmap option_fmap option_map].
    eapply parseRedirection_spans; eassumption. }
  destruct (kind tk) eqn:Hkind; try exact Hinv;
    try (apply Hredir; discriminate).
  - destruct (makeWord_total (text tk) (tstart tk)) as (ps & _ & ->).
    destruct (startAt_after idx tk Htk) as (Hs & _ & Hlen & _).
    pose proof Hinv as (Hlo & _). cbn [fst snd] in Hlo.
    cbv iota beta. apply commandSpanInv_word.
    + apply (commandSpanInv_weaken lo idx); [apply startAt_step|exact Hinv].
    + cbn [wspan start]. lia.
    + cbn [wspan end_]. exact Hlen.
  - destruct (meta tk) as [[f a|f d]|]; [| |exact I]; apply Hredir; discriminate.
Qed.

Lemma parseCommand_spans (idx : nat) (cmd : Command) (idx' : nat) :
  idx <= length body ->
  parseCommand tokens idx = Some (cmd, idx') ->
  commandSpansOk len cmd /\
  start (cspan cmd) = startAt body len idx /\ end_ (cspan cmd) = startAt body len idx'.
Proof.
  intros Hidx. unfold parseCommand.
  destruct (peekTok tokens idx 0) as [tk0|] eqn:Hpeek0; [|discriminate].
  apply peek_startAt in Hpeek0.
  assert (length tokens = S (length body)) as Hlen.
  { unfold tokens. rewrite length_app. simpl. lia. }
  destruct (while_total (parseCommandBody tokens)
              (fun st => commandInv body idx st /\
                         commandSpanInv body len (startAt body len idx) st)
              (fun r => commandSpanInv body len (startAt body len idx) r)
              (fun st => length tokens - st.1.1))
    with (fuel := S (length tokens)) (s := (idx, @nil Word, @nil Redirection))
    as ([[j ws] rs] & -> & Hsp).
  - intros st [Hinv Hspi].
    pose proof (parseCommandBody_ok body e He Hbody idx st Hinv) as Hok.
    pose proof (parseCommandBody_spans _ st Hspi) as Hc.
    fold tokens in Hok.
    destruct (parseCommandBody tokens st) as [[st'|r]|]; [|exact Hc|contradiction].
    destruct Hok as [Hinv' Hm]. auto.
  - split.
    + repeat split; simpl; try lia; try constructor. intros k t Hk. lia.
    + repeat split; cbn [fst snd]; try constructor.
  - simpl. lia.
  - destruct (peekTok tokens j 0) as [tk1|] eqn:Hpeek1; [|discriminate].
    apply peek_startAt in Hpeek1.
    intros H. injection H as <- <-. cbn [cspan start end_].
    destruct Hsp as (H1 & H2 & H3). cbn [fst snd] in H1, H2, H3.
    split; [|split; assumption].
    unfold commandSpansOk, within. cbn [cspan words redirections start end_].
    rewrite Hpeek0, Hpeek1. pose proof (startAt_le j).
    split; [lia|]. split.
    + exact H2.
    + eapply Forall_impl; [exact H3|]. simpl. intros r [? ?]. repeat split; lia.
Qed.

Lemma commandsOrdered_snoc (cs : list Command) (c : Command) :
  commandsOrdered cs ->
  Forall (fun c' => end_ (cspan c') < start (cspan c)) cs ->
  commandsOrdered (cs ++ [c]).
Proof.
  intros Hord' Hall a b ca cb Ha Hb Hab.
  pose proof (lookup_lt_Some _ _ _ Hb) as Hbl.
  rewrite length_app in Hbl. simpl in Hbl.
  rewrite lookup_app_l in Ha by lia.
  destruct (decide (b < length cs)) as [Hb'|Hb'].
  - rewrite lookup_app_l in Hb by lia. eapply Hord'; eassumption.
  - rewrite lookup_app_r in Hb by lia.
    replace (b - length cs) with 0 in Hb by lia. injection Hb as <-.
    eapply (Forall_lookup_1 _ _ _ _ Hall Ha).
Qed.

Lemma parseBody_spans (st : nat * list Command) :
  pipelineInv body st -> pipelineSpanInv body len st ->
  match parseBody tokens st with
  | Some (inl st') => pipelineSpanInv body len st'
  | Some (inr r) => Forall (commandSpansOk len) r.2 /\ commandsOrdered r.2
  | None => True
  end.
Proof.
  destruct st as [idx cmds]. intros (Hidx & _) (Hok & Hordc & Hbefore).
  cbn [fst snd] in *. unfold parseBody.
  destruct (peekTok tokens idx 0) as [tk|]; [|exact I].
  destruct (TokenKind.eqb (kind tk) TokenKind.EOF); [auto|].
  destruct (parseCommand_ok body e He Hbody idx Hidx)
    as (cmd & idx' & Hcmd & Hb & _).
  fold tokens in Hcmd. rewrite Hcmd.
  destruct (parseCommand_spans idx cmd idx' Hidx Hcmd) as (Hcok & Hcs & Hce).
  assert (Forall (commandSpansOk len) (cmds ++ [cmd])) as Hok'
    by (apply Forall_app; split; [exact Hok|constructor; [exact Hcok|constructor]]).
  assert (commandsOrdered (cmds ++ [cmd])) as Hord'.
  { apply commandsOrdered_snoc; [exact Hordc|].
    eapply Forall_impl; [exact Hbefore|]. simpl. intros c Hc. lia. }
  destruct (peekTok_cases body e Hbody idx')
    as [(t' & Ht' & Hlt' & Hpeek & _)|(Hge' & Hpeek)];
    fold tokens in Hpeek; rewrite Hpeek.
  - destruct (TokenKind.eqb (kind t') TokenKind.Pipe); [|cbn [snd]; auto].
    unfold pipelineSpanInv. cbn [fst snd]. split; [exact Hok'|].
    split; [exact Hord'|].
    destruct (startAt_after idx' t' Ht') as (Hs & Hnext & _).
    destruct Hcok as ((Hse & _) & _).
    apply Forall_app. split.
    + eapply Forall_impl; [exact Hbefore|]. simpl. intros c Hc. lia.
    + constructor; [lia|constructor].
  - rewrite He. cbn [TokenKind.eqb snd]. auto.
Qed.

Lemma parseTokens_spans :
  exists cmds sp,
    parseTokens tokens = Some (mkPipeline cmds sp) /\
    Forall (commandSpansOk len) cmds /\ commandsOrdered cmds.
Proof.
  assert (length tokens = S (length body)) as Hlen.
  { unfold tokens. rewrite length_app. simpl. lia. }
  unfold parseTokens.
  destruct (while_total (parseBody tokens)
              (fun st => pipelineInv body st /\ pipelineSpanInv body len st)
              (fun r => Forall (commandSpansOk len) r.2 /\ commandsOrdered r.2)
              (fun st => length tokens - st.1))
    with (fuel := S (length tokens)) (s := (0, @nil Command))
    as ([idx cmds] & -> & Hok & Hordc).
  - intros st [Hinv Hsp].
    pose proof (parseBody_ok body e He Hbody st Hinv) as H1.
    pose proof (parseBody_spans st Hinv Hsp) as H2.
    fold tokens in H1.
    destruct (parseBody tokens st) as [[st'|r]|]; [|exact H2|contradiction].
    destruct H1 as [Hinv' Hm]. auto.
  - split.
    + repeat split; simpl; try lia; auto.
    + repeat split; cbn [fst snd]; try constructor.
      intros a b ca cb Ha. rewrite lookup_nil in Ha. discriminate.
  - simpl. lia.
  - cbn [fst snd] in *.
    assert (exists t, peekTok tokens idx 0 = Some t) as [t ->].
    { destruct (peekTok_cases body e Hbody idx)
        as [(t & _ & _ & Hp & _)|(_ & Hp)]; fold tokens in Hp; eauto. }
    do 2 eexists. split; [reflexivity|]. split; assumption.
Qed.
End SpanNesting.

(** X18: the spans nest.  For every input, the span of each command of
    [parse] lies in the input; the span of each of its words and of the
    target of each of its redirections lies in the span of the command; and
    a redirection starts in the command, at or before its target. *)
Theorem command_spans_nest (input : list ascii) :
  exists p,
    parse input = Some p /\
    Forall (commandSpansOk (length input)) (commands p).
Proof.
  destruct (lex_fits input) as (toks & Hlex & Hok & Hfit & Hord).
  destruct (parseTokens_spans toks (eofToken input) (length input)
              eq_refl eq_refl Hok Hfit Hord) as (cmds & sp & Hp & Hnest & _).
  exists (mkPipeline cmds sp). unfold parse. rewrite Hlex. split; assumption.
Qed.

(** X19: the commands of a pipeline are in the order of the input and
    apart: for every input, a command of [parse] ends before any later
    command starts. *)
Theorem command_spans_ordered (input : list ascii) :
  exists p, parse input = Some p /\ commandsOrdered (commands p).
Proof.
  destruct (lex_fits input) as (toks & Hlex & Hok & Hfit & Hord).
  destruct (parseTokens_spans toks (eofToken input) (length input)
              eq_refl eq_refl Hok Hfit Hord) as (cmds & sp & Hp & _ & Hordc).
  exists (mkPipeline cmds sp). unfold parse. rewrite Hlex. split; assumption.
Qed.

(** ** The pending segment of a double-quoted region *)

Lemma dquoteBody_segment (raw : list ascii) (base : nat)
    (st st' : nat * nat * list Part) :
  segmentInv raw st -> dquoteBody raw base st = Some (inl st') ->
  segmentInv raw st'.
Proof.
  destruct st as [[i seg] ps]. intros (Hle & Hin & Hplain).
  cbn [fst snd] in Hle, Hin, Hplain.
  assert (forall j qs, segmentInv raw (j, j, qs)) as Hfresh.
  { intros j qs. unfold segmentInv. cbn [fst snd]. rewrite slice_empty.
    split; [lia|]. split; [right|]; reflexivity. }
  unfold dquoteBody. destruct (raw !! i) as [c|] eqn:Hc; [|discriminate].
  pose proof (lookup_lt_Some _ _ _ Hc) as Hi.
  destruct (Ascii.eqb c backslash) eqn:Hb.
  { intros H. injection H as <-. apply Hfresh. }
  destruct (Ascii.eqb c dquote) eqn:Hq.
  { destruct (flushSegment raw base ps seg i); discriminate. }
  destruct (Ascii.eqb c dollar) eqn:Hd.
  { destruct (flushSegment raw base ps seg i) as [qs|]; [|discriminate].
    destruct (parseVar base raw 0 qs i) as [i' qs'].
    intros H. injection H as <-. apply Hfresh. }
  intros H. injection H as <-. unfold segmentInv. cbn [fst snd].
  split; [lia|]. split; [left; lia|].
  rewrite (slice_snoc raw seg i c Hle Hc). unfold dquotePlain in *.
  rewrite forallb_app, Hplain. simpl. rewrite Hq, Hb, Hd. reflexivity.
Qed.

Lemma dquotePlain_noDollar (s : list ascii) :
  dquotePlain s = true -> noDollar s = true.
Proof.
  unfold dquotePlain, noDollar. intros H. apply forallb_forall. intros x Hx.
  rewrite forallb_forall in H. specialize (H x Hx).
  apply negb_true_iff in H. apply orb_false_elim in H as [_ H].
  rewrite H. reflexivity.
Qed.

(** X20: inside a double-quoted region [scanTextForVars] never meets a
    variable.  In every state the loop over the region reaches, the pending
    segment has no double quote, backslash or [$], so flushing it adds it as
    one Text part (or nothing when it is empty): the loop itself takes every
    [$] before it can become part of a segment. *)
Theorem dquote_segment_is_literal (raw : list ascii) (base i0 : nat)
    (ps0 : list Part) (i seg : nat) (ps : list Part) :
  dquoteReach raw base (i0, i0, ps0) (i, seg, ps) ->
  dquotePlain (slice raw seg i) = true /\
  flushSegment raw base ps seg i =
    Some (pushText base ps (slice raw seg i) seg i).
Proof.
  intros Hreach.
  assert (segmentInv raw (i, seg, ps)) as (Hle & Hin & Hplain).
  { remember (i0, i0, ps0) as st0 eqn:E0. remember (i, seg, ps) as st eqn:E.
    clear E. induction Hreach as [st|st st' st'' _ IH Hstep].
    - subst st. unfold segmentInv. cbn [fst snd]. rewrite slice_empty.
      split; [lia|]. split; [right|]; reflexivity.
    - eapply dquoteBody_segment; [apply IH; exact E0|exact Hstep]. }
  cbn [fst snd] in Hle, Hin, Hplain. split; [exact Hplain|].
  unfold flushSegment. destruct (seg <? i) eqn:Hlt.
  - apply Nat.ltb_lt in Hlt.
    rewrite (scanTextForVars_noDollar base ps _ seg (dquotePlain_noDollar _ Hplain)).
    assert (length (slice raw seg i) = i - seg) as Hlen
      by (unfold slice; rewrite length_take, length_drop; lia).
    rewrite Hlen, drop_0.
    replace (0 <? i - seg) with true by (symmetry; apply Nat.ltb_lt; lia).
    replace (seg + 0) with seg by lia. replace (seg + (i - seg)) with i by lia.
    reflexivity.
  - apply Nat.ltb_ge in Hlt. assert (seg = i) as -> by lia.
    rewrite slice_empty. reflexivity.
Qed.

Lemma dquote_segment_is_literal_witness :
  dquoteReach (dquote :: js "ab $x") 0 (1, 1, []) (3, 1, []) /\
  dquotePlain (slice (dquote :: js "ab $x") 1 3) = true /\
  flushSegment (dquote :: js "ab $x") 0 [] 1 3 =
    Some (pushText 0 [] (slice (dquote :: js "ab $x") 1 3) 1 3).
Proof.
  assert (dquoteReach (dquote :: js "ab $x") 0 (1, 1, []) (3, 1, [])) as Hreach.
  { eapply dquoteReach_step; [eapply dquoteReach_step; [apply dquoteReach_start|]|];
      reflexivity. }
  split; [exact Hreach|].
  apply (dquote_segment_is_literal (dquote :: js "ab $x") 0 1 [] 3 1 [] Hreach).
Defined.

(** ** Templates between double quotes *)

Lemma scanQuoted_dquote_escape (c : ascii) (rest : list ascii) :
  scanQuoted dquote (backslash :: c :: rest) = S (S (scanQuoted dquote rest)).
Proof. reflexivity. Qed.

Lemma scanQuoted_dquote_plain (c : ascii) (rest : list ascii) :
  Ascii.eqb c dquote = false -> Ascii.eqb c backslash = false ->
  scanQuoted dquote (c :: rest) = S (scanQuoted dquote rest).
Proof.
  intros Hq Hb.
  change (scanQuoted dquote (c :: rest))
    with (if Ascii.eqb c backslash && Ascii.eqb dquote dquote
          then match rest with
               | [] => 2
               | _ :: rest'' => S (S (scanQuoted dquote rest''))
               end
          else if Ascii.eqb c dquote then 1 else S (scanQuoted dquote rest)).
  rewrite Hb, Hq. reflexivity.
Qed.

Lemma scanQuoted_dquote_run (s rest : list ascii) :
  forallb (fun c => negb (Ascii.eqb c dquote || Ascii.eqb c backslash)) s = true ->
  scanQuoted dquote (s ++ rest) = length s + scanQuoted dquote rest.
Proof.
  induction s as [|c s IH]; intros Hs; [reflexivity|].
  simpl in Hs. apply andb_prop in Hs as [Hc Hs]. apply negb_true_iff in Hc.
  apply orb_false_elim in Hc as [Hq Hb].
  change ((c :: s) ++ rest) with (c :: (s ++ rest)).
  rewrite (scanQuoted_dquote_plain c _ Hq Hb), (IH Hs). reflexivity.
Qed.

Lemma bracedName_inv (n : list ascii) :
  bracedName n = true ->
  forallb (notChar "}") n = true /\
  forallb (fun c => negb (Ascii.eqb c dquote || Ascii.eqb c backslash)) n = true.
Proof.
  unfold bracedName. intros H. split; apply forallb_forall; intros x Hx;
    rewrite forallb_forall in H; specialize (H x Hx);
    apply andb_prop in H as [H1 H2]; assumption.
Qed.

Lemma scanQuoted_template (pieces : list Piece) :
  forallb pieceOk pieces = true ->
  scanQuoted dquote (flat_map renderPiece pieces ++ [dquote]) =
    S (length (flat_map renderPiece pieces)).
Proof.
  induction pieces as [|p pieces IH]; intros Hok; [reflexivity|].
  simpl in Hok. apply andb_prop in Hok as [Hp Hok].
  cbn [flat_map]. rewrite <- app_assoc, length_app.
  destruct p as [c|c|n]; cbn [renderPiece].
  - unfold dquoteEscape. destruct (dquoteSpecial c) eqn:Hc.
    + change ([backslash; c] ++ ?l) with (backslash :: c :: l).
      rewrite scanQuoted_dquote_escape, (IH Hok). reflexivity.
    + destruct (dquoteSpecial_false c Hc) as (Hq & Hb & _).
      change ([c] ++ ?l) with (c :: l).
      rewrite (scanQuoted_dquote_plain c _ Hq Hb), (IH Hok). reflexivity.
  - change ([backslash; c] ++ ?l) with (backslash :: c :: l).
    rewrite scanQuoted_dquote_escape, (IH Hok). reflexivity.
  - apply bracedName_inv in Hp as [_ Hn].
    rewrite scanQuoted_dquote_run, (IH Hok); [lia|].
    change (dollar :: "{"%char :: n ++ ["}"%char])
      with ([dollar; "{"%char] ++ n ++ ["}"%char]).
    rewrite !forallb_app, Hn. reflexivity.
Qed.

Lemma template_length (pieces : list Piece) :
  length (template pieces) = S (S (length (flat_map renderPiece pieces))).
Proof. unfold template. simpl. rewrite length_app. simpl. lia. Qed.

Lemma scanWord_template (pieces : list Piece) :
  forallb pieceOk pieces = true ->
  scanWord (template pieces) 0 = Some (length (template pieces)).
Proof.
  intros Hok.
  assert (wordBody (template pieces) 0 = Some (inl (length (template pieces))))
    as Hb.
  { rewrite wordBody_dquote by reflexivity.
    change (drop (0 + 1) (template pieces))
      with (flat_map renderPiece pieces ++ [dquote]).
    rewrite (scanQuoted_template pieces Hok), template_length. reflexivity. }
  unfold scanWord. rewrite (while_continue _ _ _ _ Hb).
  apply while_exit_pos; [rewrite template_length; lia|].
  unfold wordBody. rewrite lookup_ge_None_2 by lia. reflexivity.
Qed.

Lemma dquoteBody_escape_any (raw : list ascii) (base i seg : nat)
    (ps : list Part) (c : ascii) :
  raw !! i = Some backslash -> raw !! (i + 1) = Some c ->
  dquoteBody raw base (i, seg, ps) =
    Some (inl (i + 2, i + 2,
               pushText base
                 (if seg <? i then pushText base ps (slice raw seg i) seg i else ps)
                 [escapeValue c] i (i + 2))).
Proof.
  intros H1 H2. unfold dquoteBody, escapeValue. rewrite H1, H2. cbn [charIs].
  change (Ascii.eqb backslash backslash) with true. cbv iota.
  destruct (Ascii.eqb c "n"); [reflexivity|].
  destruct (Ascii.eqb c "t"); reflexivity.
Qed.

Lemma dquoteBody_var (raw : list ascii) (base i seg : nat) (ps ps1 : list Part) :
  raw !! i = Some dollar -> flushSegment raw base ps seg i = Some ps1 ->
  dquoteBody raw base (i, seg, ps) =
    Some (inl ((parseVar base raw 0 ps1 i).1, (parseVar base raw 0 ps1 i).1,
               (parseVar base raw 0 ps1 i).2)).
Proof.
  intros Hc Hf. unfold dquoteBody. rewrite Hc.
  change (Ascii.eqb dollar backslash) with false.
  change (Ascii.eqb dollar dquote) with false.
  change (Ascii.eqb dollar dollar) with true. cbv iota. rewrite Hf.
  destruct (parseVar base raw 0 ps1 i). reflexivity.
Qed.

Lemma parseVar_braced (raw : list ascii) (base i : nat) (ps : list Part)
    (n rest : list ascii) :
  drop i raw = dollar :: "{"%char :: n ++ "}"%char :: rest ->
  forallb (notChar "}") n = true ->
  parseVar base raw 0 ps i =
    (i + 2 + length n + 1,
     pushVar base ps n true (0 + i) (0 + (i + 2 + length n) + 1)).
Proof.
  intros Hd Hn.
  assert (drop (i + 2) raw = n ++ "}"%char :: rest) as Hd2.
  { rewrite <- drop_drop, Hd. reflexivity. }
  unfold parseVar. rewrite (lookup_in_drop raw i 1 _ Hd).
  cbn [lookup list_lookup charIs]. change (Ascii.eqb "{" "{") with true. cbv iota.
  rewrite Hd2, (scanWhile_until "}" n rest Hn). unfold slice. rewrite Hd2.
  replace (i + 2 + length n - (i + 2)) with (length n) by lia.
  rewrite take_app_length. reflexivity.
Qed.

Lemma expandParts_pushVar {Other : Type} (toStr : Other -> list ascii)
    (ctx : Ctx Other) (base : nat) (ps : list Part)
    (n : list ascii) (b : bool) (a1 a2 : nat) :
  expandParts toStr ctx (pushVar base ps n b a1 a2) =
    expandParts toStr ctx ps ++ valueText toStr (getProp ctx n).
Proof. unfold expandParts, pushVar. rewrite fold_left_app. reflexivity. Qed.

Lemma dquoteLoop_template {Other : Type} (toStr : Other -> list ascii)
    (ctx : Ctx Other) (raw : list ascii) (base : nat)
    (pieces : list Piece) :
  forallb pieceOk pieces = true ->
  forall (i seg : nat) (ps : list Part) (fuel : nat),
    drop i raw = flat_map renderPiece pieces ++ [dquote] ->
    seg <= i -> noDollar (slice raw seg i) = true ->
    length (flat_map renderPiece pieces) < fuel ->
    exists ps',
      while (dquoteBody raw base) fuel (i, seg, ps) =
        Some (i + length (flat_map renderPiece pieces) + 1, ps') /\
      expandParts toStr ctx ps' =
        expandParts toStr ctx ps ++ slice raw seg i
          ++ flat_map (pieceValue toStr ctx) pieces.
Proof.
  induction pieces as [|p pieces IH]; intros Hok i seg ps fuel Hd Hseg Hnd Hfuel.
  - cbn [flat_map app length] in *.
    destruct (flushSegment_noDollar toStr ctx raw base ps seg i Hseg Hnd)
      as (ps' & Hflush & Hexp).
    exists ps'. split.
    + erewrite while_exit_pos; cycle 1; [lia| |reflexivity].
      rewrite (dquoteBody_close raw base i seg ps ps'
                 (eq_trans (eq_sym (f_equal (fun k => raw !! k) (Nat.add_0_r i)))
                    (lookup_in_drop raw i 0 _ Hd)) Hflush).
      replace (i + 0 + 1) with (i + 1) by lia. reflexivity.
    + rewrite Hexp, app_nil_r. reflexivity.
  - simpl in Hok. apply andb_prop in Hok as [Hp Hok].
    cbn [flat_map] in Hd, Hfuel |- *. rewrite <- app_assoc in Hd.
    rewrite length_app in Hfuel |- *.
    destruct fuel as [|fuel]; [lia|].
    pose proof (lookup_in_drop raw i 0 _ Hd) as L0. rewrite Nat.add_0_r in L0.
    pose proof (lookup_in_drop raw i 1 _ Hd) as L1.
    destruct p as [c|c|n]; cbn [renderPiece pieceValue] in *.
    2:{ cbn in L0, L1.
        rewrite (while_continue _ _ _ _ (dquoteBody_escape_any raw base i seg ps c L0 L1)).
        edestruct (IH Hok (i + 2) (i + 2)) as (ps' & Hw & Hexp).
        - rewrite <- drop_drop, Hd. reflexivity.
        - reflexivity.
        - rewrite slice_empty. reflexivity.
        - cbn [length] in Hfuel. instantiate (1 := fuel). lia.
        - exists ps'. split.
          + rewrite Hw. cbn [length]. f_equal. f_equal. lia.
          + rewrite Hexp, slice_empty, expandParts_pushText. cbn [app].
            assert (expandParts toStr ctx
                      (if seg <? i
                       then pushText base ps (slice raw seg i) seg i else ps) =
                    expandParts toStr ctx ps ++ slice raw seg i) as ->.
            { destruct (seg <? i) eqn:Hsi; [apply expandParts_pushText|].
              apply Nat.ltb_ge in Hsi. assert (seg = i) as -> by lia.
              rewrite slice_empty, app_nil_r. reflexivity. }
            rewrite <- !app_assoc. reflexivity. }
    + unfold dquoteEscape in *. destruct (dquoteSpecial c) eqn:Hc.
      * cbn in L0, L1.
        rewrite (while_continue _ _ _ _ (dquoteBody_escape raw base i seg ps c L0 L1 Hc)).
        edestruct (IH Hok (i + 2) (i + 2)) as (ps' & Hw & Hexp).
        -- rewrite <- drop_drop, Hd. reflexivity.
        -- reflexivity.
        -- rewrite slice_empty. reflexivity.
        -- cbn [length] in Hfuel. instantiate (1 := fuel). lia.
        -- exists ps'. split.
           ++ rewrite Hw. cbn [length]. f_equal. f_equal. lia.
           ++ rewrite Hexp, slice_empty, expandParts_pushText. cbn [app].
              assert (expandParts toStr ctx
                        (if seg <? i
                         then pushText base ps (slice raw seg i) seg i else ps) =
                      expandParts toStr ctx ps ++ slice raw seg i) as ->.
              { destruct (seg <? i) eqn:Hsi; [apply expandParts_pushText|].
                apply Nat.ltb_ge in Hsi. assert (seg = i) as -> by lia.
                rewrite slice_empty, app_nil_r. reflexivity. }
              rewrite <- !app_assoc. reflexivity.
      * cbn in L0. destruct (dquoteSpecial_false c Hc) as (Hq & Hb & Hdl).
        rewrite (while_continue _ _ _ _
                   (dquoteBody_plain raw base i seg ps c L0
                      ltac:(rewrite Hq, Hb, Hdl; reflexivity))).
        edestruct (IH Hok (i + 1) seg) as (ps' & Hw & Hexp).
        -- rewrite <- drop_drop, Hd. reflexivity.
        -- lia.
        -- rewrite (slice_snoc raw seg i c Hseg L0). unfold noDollar in *.
           rewrite forallb_app, Hnd. simpl. rewrite Hdl. reflexivity.
        -- cbn [length] in Hfuel. instantiate (1 := fuel). lia.
        -- exists ps'. split.
           ++ rewrite Hw. cbn [length]. f_equal. f_equal. lia.
           ++ rewrite Hexp, (slice_snoc raw seg i c Hseg L0).
              rewrite <- !app_assoc. reflexivity.
    + apply bracedName_inv in Hp as [Hn _]. cbn in L0.
      destruct (flushSegment_noDollar toStr ctx raw base ps seg i Hseg Hnd)
        as (ps1 & Hflush & Hexp1).
      rewrite (while_continue _ _ _ _ (dquoteBody_var raw base i seg ps ps1 L0 Hflush)).
      assert (drop i raw =
              dollar :: "{"%char :: n ++ "}"%char
                :: (flat_map renderPiece pieces ++ [dquote])) as Hd'.
      { rewrite Hd. cbn [app]. rewrite <- app_assoc. reflexivity. }
      rewrite (parseVar_braced raw base i ps1 n _ Hd' Hn). cbn [fst snd].
      edestruct (IH Hok (i + 2 + length n + 1) (i + 2 + length n + 1))
        as (ps' & Hw & Hexp).
      * replace (i + 2 + length n + 1)
          with (i + length (dollar :: "{"%char :: n ++ ["}"%char]))
          by (cbn [length]; rewrite length_app; cbn [length]; lia).
        rewrite <- drop_drop, Hd. apply drop_app_length.
      * reflexivity.
      * rewrite slice_empty. reflexivity.
      * cbn [length] in Hfuel. rewrite length_app in Hfuel. cbn [length] in Hfuel.
        instantiate (1 := fuel). lia.
      * exists ps'. split.
        -- rewrite Hw. cbn [length]. rewrite length_app. cbn [length].
           f_equal. f_equal. lia.
        -- rewrite Hexp, slice_empty, expandParts_pushVar, Hexp1. cbn [app].
           rewrite <- !app_assoc. reflexivity.
Qed.

Lemma split_template {Other : Type} (toStr : Other -> list ascii)
    (ctx : Ctx Other) (pieces : list Piece) (base : nat) :
  forallb pieceOk pieces = true ->
  exists ps,
    splitWordIntoParts (template pieces) base = Some (mergeParts ps) /\
    expandParts toStr ctx ps = flat_map (pieceValue toStr ctx) pieces.
Proof.
  intros Hok.
  destruct (dquoteLoop_template toStr ctx (template pieces) base pieces Hok
              1 1 [] (S (length (template pieces))))
    as (ps & Hloop & Hexp).
  - reflexivity.
  - lia.
  - rewrite slice_empty. reflexivity.
  - rewrite template_length. lia.
  - exists ps. split; [|rewrite Hexp, slice_empty; reflexivity].
    assert (splitBody (template pieces) base (0, []) =
            Some (inl (length (template pieces), ps))) as Hstep.
    { transitivity
        (match while (dquoteBody (template pieces) base)
                 (S (length (template pieces))) (1, 1, []) with
         | None => None
         | Some st' => Some (inl st')
         end : option (nat * list Part + list Part)); [reflexivity|].
      rewrite Hloop, template_length. do 3 f_equal. lia. }
    unfold splitWordIntoParts. rewrite (while_continue _ _ _ _ Hstep).
    erewrite while_exit_pos; cycle 1;
      [rewrite template_length; lia|apply splitBody_end; lia|reflexivity].
Qed.

(** X21: interpolation between double quotes.  Take a template of
    characters, escapes (a backslash and any character) and references
    [${n}], the names without [}], double quote and backslash, and write it
    between double quotes with a backslash before each double quote,
    backslash and [$] that is a character.  The input is one command with
    one word, and in every context the word expands to the pieces in their
    order: a character is itself, an escape is a newline for [\n], a tab
    for [\t] and the escaped character otherwise, a reference is the text
    of what [ctx[n]] reads, from the context itself or from an object it
    inherits from. *)
Theorem double_quote_template {Other : Type} (toStr : Other -> list ascii)
    (ctx : Ctx Other) (pieces : list Piece) :
  forallb pieceOk pieces = true ->
  exists p cmd w,
    parse (template pieces) = Some p /\ commands p = [cmd] /\
    words cmd = [w] /\ redirections cmd = [] /\
    expandWord toStr w ctx = flat_map (pieceValue toStr ctx) pieces.
Proof.
  intros Hok.
  destruct (split_template toStr ctx pieces 0 Hok) as (ps & Hsplit & Hexp).
  destruct (parse_one_word (template pieces) dquote (length (template pieces))
              (mkWord (mergeParts ps) (makeSpan 0 (0 + length (template pieces))))
              eq_refl eq_refl (scanWord_template pieces Hok) (le_n _)
              ltac:(unfold makeWord; rewrite Hsplit; reflexivity))
    as (sp1 & sp2 & Hp & _).
  do 3 eexists. split; [exact Hp|]. repeat split; try reflexivity.
  rewrite expandWord_merged. exact Hexp.
Qed.

Lemma double_quote_template_witness :
  forallb pieceOk [Lit "a"; Esc "n"; Lit dollar; Ref (js "HOME"); Lit dquote] = true /\
  exists p cmd w,
    parse (template [Lit "a"; Esc "n"; Lit dollar; Ref (js "HOME"); Lit dquote]) = Some p /\
    commands p = [cmd] /\ words cmd = [w] /\ redirections cmd = [] /\
    expandWord jsObjectText w
      (objectLiteral (<[js "HOME" := Vstring (js "/root")]> ∅)) =
      flat_map (pieceValue jsObjectText
                  (objectLiteral (<[js "HOME" := Vstring (js "/root")]> ∅)))
        [Lit "a"; Esc "n"; Lit dollar; Ref (js "HOME"); Lit dquote].
Proof.
  split; [reflexivity|].
  apply (double_quote_template
           jsObjectText
           (objectLiteral (<[js "HOME" := Vstring (js "/root")]> ∅))
           [Lit "a"%char; Esc "n"%char; Lit dollar; Ref (js "HOME"); Lit dquote]).
  reflexivity.
Defined.

(** ** The flag parser *)

Section FlagsLemmas.
Context {Num : Type}.
Variable toNumber : list ascii -> Num.

Lemma assign_hasPositional (r : gmap (list ascii) (FlagValue Num))
    (k : list ascii) (v : Scalar Num) :
  hasPositional r -> hasPositional (assign r k v).
Proof.
  intros [vs Hvs]. unfold assign, hasPositional.
  destruct (decide (k = js "positional")) as [->|Hne].
  - rewrite Hvs, lookup_insert_eq. eauto.
  - destruct (r !! k) as [[x|xs]|].
    + rewrite lookup_insert_ne by exact Hne. eauto.
    + rewrite lookup_insert_ne by exact Hne. eauto.
    + case_bool_decide; [eauto|]. rewrite lookup_insert_ne by exact Hne. eauto.
Qed.

Lemma assignAll_hasPositional (ks : list (list ascii))
    (r : gmap (list ascii) (FlagValue Num)) :
  hasPositional r ->
  hasPositional (fold_left (fun r k => assign r k (Sbool true)) ks r).
Proof.
  revert r. induction ks as [|k ks IH]; intros r Hr; [exact Hr|].
  simpl. apply IH, assign_hasPositional, Hr.
Qed.

Lemma assignNext_cases (r : gmap (list ascii) (FlagValue Num)) (key : list ascii)
    (next : option (list ascii)) :
  exists n v, assignNext toNumber r key next = (n, assign r key v) /\
              (n = 1 \/ n = 2).
Proof.
  unfold assignNext. destruct next as [nx|]; [destruct (negb (isFlag nx))|];
    eauto.
Qed.

(** What one iteration does: it uses one or two arguments, it keeps
    [positional] an array, and it fails only when [positional] is none. *)
Lemma flagsStep_cases (token : list ascii) (next : option (list ascii))
    (r : gmap (list ascii) (FlagValue Num)) :
  match flagsStep toNumber token next r with
  | Some (n, r') => (n = 1 \/ n = 2) /\ (hasPositional r -> hasPositional r')
  | None => ~ hasPositional r
  end.
Proof.
  unfold flagsStep.
  destruct (startsWith (js "--") token).
  { destruct (indexOf "=" token) as [eq|].
    - split; [auto|]. apply assign_hasPositional.
    - destruct (assignNext_cases r (drop 2 token) next) as (n & v & -> & Hn).
      split; [exact Hn|]. apply assign_hasPositional. }
  destruct (startsWith (js "-") token && (1 <? length token)).
  { destruct (map (fun c => [c]) (drop 1 token)) as [|k1 [|k2 ks]] eqn:Hs.
    - split; [auto|]. simpl. auto.
    - destruct (assignNext_cases r k1 next) as (n & v & -> & Hn).
      split; [exact Hn|]. apply assign_hasPositional.
    - split; [auto|]. apply assignAll_hasPositional. }
  destruct (r !! js "positional") as [[x|vs]|] eqn:Hp.
  - intros [vs Hvs]. congruence.
  - split; [auto|]. intros _. unfold hasPositional.
    rewrite lookup_insert_eq. eauto.
  - intros [vs Hvs]. congruence.
Qed.

Lemma flagsFrom_cons (token : list ascii) (rest : list (list ascii))
    (r : gmap (list ascii) (FlagValue Num)) :
  flagsFrom toNumber (token :: rest) r =
    match flagsStep toNumber token (head rest) r with
    | None => None
    | Some (n, r') =>
        if n =? 2 then
          match rest with
          | _ :: rest' => flagsFrom toNumber rest' r'
          | [] => Some r'
          end
        else flagsFrom toNumber rest r'
    end.
Proof. reflexivity. Qed.

Lemma head_drop {A : Type} (l : list A) (n : nat) : head (drop n l) = l !! n.
Proof. rewrite head_lookup, lookup_drop, Nat.add_0_r. reflexivity. Qed.

Lemma while_flagsFrom (argv : list (list ascii)) :
  forall (fuel i : nat) (r : gmap (list ascii) (FlagValue Num)),
    length argv - i < fuel ->
    while (flagsBody toNumber argv) fuel (i, r) = flagsFrom toNumber (drop i argv) r.
Proof.
  induction fuel as [|fuel IH]; intros i r Hf; [lia|].
  cbn [while]. unfold flagsBody at 1.
  destruct (argv !! i) as [token|] eqn:Ht.
  - pose proof (lookup_lt_Some _ _ _ Ht) as Hi.
    rewrite (drop_S _ _ _ Ht), flagsFrom_cons, head_drop.
    replace (S i) with (i + 1) by lia.
    pose proof (flagsStep_cases token (argv !! (i + 1)) r) as Hc.
    destruct (flagsStep toNumber token (argv !! (i + 1)) r) as [[n r']|];
      [|reflexivity].
    destruct Hc as [[->| ->] _]; cbn [Nat.eqb].
    + apply IH. lia.
    + rewrite IH by lia.
      destruct (drop (i + 1) argv) as [|x rest'] eqn:Hd.
      * rewrite drop_ge; [reflexivity|].
        apply (f_equal length) in Hd. rewrite length_drop in Hd. simpl in Hd. lia.
      * replace (i + 2) with (i + 1 + 1) by lia.
        rewrite <- drop_drop, Hd. reflexivity.
  - rewrite drop_ge by (apply lookup_ge_None, Ht). reflexivity.
Qed.

Lemma parseFlags_flagsFrom (argv : list (list ascii)) :
  parseFlags toNumber argv =
    flagsFrom toNumber argv {[ js "positional" := Array [] ]}.
Proof.
  unfold parseFlags. rewrite while_flagsFrom by lia. rewrite drop_0. reflexivity.
Qed.

Lemma startsWith_dash2 (token : list ascii) :
  startsWith (js "--") token = true -> isFlag token = true.
Proof.
  destruct token as [|a [|b t]]; simpl; try discriminate.
  - rewrite andb_false_r. discriminate.
  - intros H. apply andb_prop in H as [Ha _]. unfold isFlag. simpl.
    rewrite Ha. reflexivity.
Qed.

Lemma flagsStep_positional (token : list ascii) (next : option (list ascii))
    (r : gmap (list ascii) (FlagValue Num)) (vs : list (Scalar Num)) :
  isPositional token = true -> r !! js "positional" = Some (Array vs) ->
  flagsStep toNumber token next r =
    Some (1, <[js "positional" := Array (vs ++ [coerce toNumber token])]> r).
Proof.
  intros Hf Hp. unfold isPositional in Hf. apply orb_prop in Hf as [Hf|Hf].
  - apply negb_true_iff in Hf. unfold flagsStep.
    destruct (startsWith (js "--") token) eqn:H2.
    { apply startsWith_dash2 in H2. congruence. }
    unfold isFlag in Hf. rewrite Hf, Hp. reflexivity.
  - destruct token as [|c [|c' token]]; try discriminate.
    unfold flagsStep.
    change (startsWith (js "--") [c]) with (Ascii.eqb c "-" && false).
    change (startsWith (js "-") [c] && (1 <? length [c]))
      with (Ascii.eqb c "-" && true && false).
    rewrite !andb_false_r, Hp. reflexivity.
Qed.

Lemma flagsFrom_positional (argv : list (list ascii)) :
  forallb isPositional argv = true ->
  forall (r : gmap (list ascii) (FlagValue Num)) (vs : list (Scalar Num)),
    r !! js "positional" = Some (Array vs) ->
    flagsFrom toNumber argv r =
      Some (<[js "positional" := Array (vs ++ map (coerce toNumber) argv)]> r).
Proof.
  induction argv as [|t argv IH]; intros Hall r vs Hp.
  - simpl. rewrite app_nil_r, insert_id by exact Hp. reflexivity.
  - simpl in Hall. apply andb_prop in Hall as [Ht Hall].
    rewrite flagsFrom_cons, (flagsStep_positional t _ r vs Ht Hp). cbn [Nat.eqb].
    rewrite (IH Hall _ (vs ++ [coerce toNumber t])) by apply lookup_insert_eq.
    rewrite insert_insert_eq, <- app_assoc. reflexivity.
Qed.

(** A flag after an argument: the argument does not take it as its value,
    whichever flag it is. *)
Lemma flagsStep_next_flag (token a b : list ascii)
    (r : gmap (list ascii) (FlagValue Num)) :
  isFlag a = true -> isFlag b = true ->
  flagsStep toNumber token (Some a) r = flagsStep toNumber token (Some b) r /\
  forall n r', flagsStep toNumber token (Some a) r = Some (n, r') -> n = 1.
Proof.
  intros Ha Hb. unfold flagsStep, assignNext. rewrite Ha, Hb. cbn [negb].
  split; [reflexivity|]. intros n r'.
  destruct (startsWith (js "--") token).
  { destruct (indexOf "=" token); intros H; injection H as <- _; reflexivity. }
  destruct (startsWith (js "-") token && (1 <? length token)).
  { destruct (map (fun c => [c]) (drop 1 token)) as [|k1 [|k2 ks]];
      intros H; injection H as <- _; reflexivity. }
  destruct (r !! js "positional") as [[x|vs]|]; try discriminate.
  intros H. injection H as <- _. reflexivity.
Qed.

Lemma flagsFrom_prefix (X Y : list (list ascii)) :
  (forall r, flagsFrom toNumber X r = flagsFrom toNumber Y r) ->
  startsWithFlag X -> startsWithFlag Y ->
  forall pre r,
    flagsFrom toNumber (pre ++ X) r = flagsFrom toNumber (pre ++ Y) r.
Proof.
  intros Hxy (a & Ha & Hfa) (b & Hb & Hfb).
  assert (forall pre,
            (forall r, flagsFrom toNumber (pre ++ X) r
                       = flagsFrom toNumber (pre ++ Y) r) /\
            (forall t r, flagsFrom toNumber (t :: pre ++ X) r
                         = flagsFrom toNumber (t :: pre ++ Y) r)) as H.
  { induction pre as [|u pre [IH1 IH2]].
    - split; [exact Hxy|]. intros t r. cbn [app].
      rewrite !flagsFrom_cons, Ha, Hb.
      destruct (flagsStep_next_flag t a b r Hfa Hfb) as [Heq Hone].
      rewrite <- Heq.
      destruct (flagsStep toNumber t (Some a) r) as [[n r']|] eqn:Hs;
        [|reflexivity].
      rewrite (Hone n r' eq_refl). cbn [Nat.eqb]. apply Hxy.
    - split; [intros r; apply IH2|]. intros t r.
      rewrite !flagsFrom_cons. cbn [app head].
      destruct (flagsStep toNumber t (Some u) r) as [[n r']|]; [|reflexivity].
      destruct (n =? 2); [apply IH1|apply IH2]. }
  intros pre. apply H.
Qed.

Lemma indexOf_none (c : ascii) (k : list ascii) :
  forallb (notChar c) k = true -> indexOf c k = None.
Proof.
  induction k as [|x k IH]; [reflexivity|]. simpl. intros H.
  apply andb_prop in H as [Hx Hk]. unfold notChar in Hx.
  apply negb_true_iff in Hx. rewrite Hx, (IH Hk). reflexivity.
Qed.

Lemma indexOf_first (c : ascii) (k v : list ascii) :
  forallb (notChar c) k = true -> indexOf c (k ++ c :: v) = Some (length k).
Proof.
  induction k as [|x k IH]; simpl.
  - rewrite Ascii.eqb_refl. reflexivity.
  - intros H. apply andb_prop in H as [Hx Hk]. unfold notChar in Hx.
    apply negb_true_iff in Hx. rewrite Hx, (IH Hk). reflexivity.
Qed.

Lemma flagsStep_long (key value : list ascii) (next : option (list ascii))
    (r : gmap (list ascii) (FlagValue Num)) :
  forallb (notChar "=") key = true ->
  flagsStep toNumber (longFlag key value) next r =
    Some (1, assign r key (coerce toNumber value)).
Proof.
  intros Hk. unfold flagsStep, longFlag.
  change (js "--" ++ key ++ "="%char :: value)
    with ("-"%char :: "-"%char :: (key ++ "="%char :: value)).
  change (startsWith (js "--") ("-"%char :: "-"%char :: ?l)) with true. cbv iota.
  assert (indexOf "=" ("-"%char :: "-"%char :: (key ++ "="%char :: value))
          = Some (2 + length key)) as ->.
  { cbn [indexOf]. change (Ascii.eqb "-" "=") with false. cbv iota.
    rewrite (indexOf_first "=" key value Hk). reflexivity. }
  unfold slice. replace (2 + length key - 2) with (length key) by lia.
  change (drop 2 ("-"%char :: "-"%char :: ?l)) with l. rewrite take_app_length.
  replace (2 + length key + 1) with (S (S (length key + 1))) by lia.
  change (drop (S (S ?n)) ("-"%char :: "-"%char :: ?l)) with (drop n l).
  change (key ++ "="%char :: value) with (key ++ ["="%char] ++ value).
  rewrite app_assoc, drop_app_length' by (rewrite length_app; reflexivity).
  reflexivity.
Qed.

Lemma flagsStep_long_next (key value : list ascii)
    (r : gmap (list ascii) (FlagValue Num)) :
  forallb (notChar "=") key = true -> isFlag value = false ->
  flagsStep toNumber (js "--" ++ key) (Some value) r =
    Some (2, assign r key (coerce toNumber value)).
Proof.
  intros Hk Hv. unfold flagsStep, assignNext.
  change (js "--" ++ key) with ("-"%char :: "-"%char :: key).
  change (startsWith (js "--") ("-"%char :: "-"%char :: ?l)) with true. cbv iota.
  assert (indexOf "=" ("-"%char :: "-"%char :: key) = None) as ->.
  { cbn [indexOf]. change (Ascii.eqb "-" "=") with false. cbv iota.
    rewrite (indexOf_none "=" key Hk). reflexivity. }
  rewrite Hv. reflexivity.
Qed.

Lemma flagsStep_short (c : ascii) (next : option (list ascii))
    (r : gmap (list ascii) (FlagValue Num)) :
  notChar "-" c = true -> (forall t, next = Some t -> isFlag t = true) ->
  flagsStep toNumber (shortFlag c) next r = Some (1, assign r [c] (Sbool true)).
Proof.
  intros Hc Hnext. unfold notChar in Hc. apply negb_true_iff in Hc.
  unfold flagsStep, shortFlag, assignNext. simpl. rewrite Hc. simpl.
  destruct next as [nx|]; [|reflexivity].
  rewrite (Hnext nx eq_refl). reflexivity.
Qed.

Lemma flagsStep_combined (c1 c2 : ascii) (cs : list ascii)
    (next : option (list ascii)) (r : gmap (list ascii) (FlagValue Num)) :
  notChar "-" c1 = true ->
  flagsStep toNumber ("-"%char :: c1 :: c2 :: cs) next r =
    Some (1, fold_left (fun r k => assign r k (Sbool true))
               (map (fun c => [c]) (c1 :: c2 :: cs)) r).
Proof.
  intros Hc. unfold notChar in Hc. apply negb_true_iff in Hc.
  unfold flagsStep. simpl. rewrite Hc. reflexivity.
Qed.

Lemma flagsFrom_shorts (post : list (list ascii)) (cs : list ascii) :
  forallb (notChar "-") cs = true ->
  (forall t, head post = Some t -> isFlag t = true) ->
  forall r,
    flagsFrom toNumber (map shortFlag cs ++ post) r =
      flagsFrom toNumber post
        (fold_left (fun r k => assign r k (Sbool true)) (map (fun c => [c]) cs) r).
Proof.
  intros Hcs Hpost. induction cs as [|c cs IH]; intros r; [reflexivity|].
  simpl in Hcs. apply andb_prop in Hcs as [Hc Hcs].
  cbn [map app]. rewrite flagsFrom_cons, (flagsStep_short c _ r Hc).
  - cbn [Nat.eqb fold_left]. apply IH, Hcs.
  - intros t Ht. destruct cs as [|c' cs']; [apply Hpost, Ht|].
    simpl in Ht. injection Ht as <-. reflexivity.
Qed.

Lemma flagsFrom_repeated (key : list ascii) (values : list (list ascii)) :
  forallb (notChar "=") key = true ->
  forall (r : gmap (list ascii) (FlagValue Num)) (vs : list (Scalar Num)),
    r !! key = Some (Array vs) ->
    flagsFrom toNumber (map (longFlag key) values) r =
      Some (<[key := Array (vs ++ map (coerce toNumber) values)]> r).
Proof.
  intros Hk. induction values as [|v values IH]; intros r vs Hr.
  - simpl. rewrite app_nil_r, insert_id by exact Hr. reflexivity.
  - cbn [map]. rewrite flagsFrom_cons, (flagsStep_long key v _ r Hk).
    cbn [Nat.eqb]. unfold assign at 1. rewrite Hr.
    rewrite (IH _ (vs ++ [coerce toNumber v])) by apply lookup_insert_eq.
    rewrite insert_insert_eq, <- app_assoc. reflexivity.
Qed.
End FlagsLemmas.

(** X22: [parseFlags] returns for every list of arguments, and the
    [positional] property of its result is an array: no flag, not even one
    named [positional], replaces it. *)
Theorem parseFlags_positional_array {Num : Type} (toNumber : list ascii -> Num)
    (argv : list (list ascii)) :
  exists r vs,
    parseFlags toNumber argv = Some r /\
    r !! js "positional" = Some (Array vs).
Proof.
  unfold parseFlags.
  destruct (while_total (flagsBody toNumber argv)
              (fun st => hasPositional st.2)
              (fun r => hasPositional r)
              (fun st => length argv - st.1))
    with (fuel := S (length argv))
         (s := (0, ({[ js "positional" := Array [] ]}
                    : gmap (list ascii) (FlagValue Num))))
    as (r & Hw & vs & Hvs).
  - intros [i r] Hinv. cbn [fst snd] in Hinv. unfold flagsBody.
    destruct (argv !! i) as [token|] eqn:Ht; [|exact Hinv].
    pose proof (lookup_lt_Some _ _ _ Ht) as Hi.
    pose proof (flagsStep_cases toNumber token (argv !! (i + 1)) r) as Hc.
    destruct (flagsStep toNumber token (argv !! (i + 1)) r) as [[n r']|];
      [|contradiction].
    destruct Hc as [Hn Hp]. cbn [fst snd]. split; [apply Hp, Hinv|lia].
  - exists []. apply lookup_singleton_eq.
  - simpl. lia.
  - exists r, vs. split; assumption.
Qed.

(** X23: arguments each of which either does not start with [-] or is [-]
    itself are all positional: the result has the one property
    [positional], the array of the arguments in their order, each one
    coerced. *)
Theorem parseFlags_all_positional {Num : Type} (toNumber : list ascii -> Num)
    (argv : list (list ascii)) :
  forallb isPositional argv = true ->
  parseFlags toNumber argv =
    Some {[ js "positional" := Array (map (coerce toNumber) argv) ]}.
Proof.
  intros Hall. rewrite parseFlags_flagsFrom.
  rewrite (flagsFrom_positional toNumber argv Hall _ []) by apply lookup_singleton_eq.
  rewrite insert_singleton_eq. reflexivity.
Qed.

Lemma parseFlags_all_positional_witness :
  forallb isPositional [js "a.txt"; js "-"; js "42"; js "true"] = true /\
  parseFlags (fun s : list ascii => s) [js "a.txt"; js "-"; js "42"; js "true"] =
    Some {[ js "positional" :=
              Array (map (coerce (fun s : list ascii => s))
                       [js "a.txt"; js "-"; js "42"; js "true"]) ]}.
Proof.
  split; [reflexivity|].
  apply (parseFlags_all_positional (fun s : list ascii => s)
           [js "a.txt"; js "-"; js "42"; js "true"]).
  reflexivity.
Defined.

(** X24: the two spellings of a long flag with a value agree.  For a key
    without [=] and a value that does not start with [-], the arguments
    [--key=value] and [--key value] give the same result, whatever the
    arguments before and after them are. *)
Theorem long_flag_spellings {Num : Type} (toNumber : list ascii -> Num)
    (key value : list ascii) (pre post : list (list ascii)) :
  forallb (notChar "=") key = true -> isFlag value = false ->
  parseFlags toNumber (pre ++ longFlag key value :: post) =
    parseFlags toNumber (pre ++ (js "--" ++ key) :: value :: post).
Proof.
  intros Hk Hv. rewrite !parseFlags_flagsFrom.
  apply flagsFrom_prefix.
  - intros r.
    rewrite !flagsFrom_cons, (flagsStep_long toNumber key value _ r Hk).
    cbn [head]. rewrite (flagsStep_long_next toNumber key value r Hk Hv).
    reflexivity.
  - eexists. split; [reflexivity|]. reflexivity.
  - eexists. split; [reflexivity|]. reflexivity.
Qed.

Lemma long_flag_spellings_witness :
  forallb (notChar "=") (js "title") = true /\ isFlag (js "Robots") = false /\
  parseFlags (fun s : list ascii => s)
    ([js "-v"] ++ longFlag (js "title") (js "Robots") :: [js "media"]) =
  parseFlags (fun s : list ascii => s)
    ([js "-v"] ++ (js "--" ++ js "title") :: js "Robots" :: [js "media"]).
Proof.
  split; [reflexivity|]. split; [reflexivity|].
  apply (long_flag_spellings (fun s : list ascii => s) (js "title") (js "Robots")
           [js "-v"] [js "media"]); reflexivity.
Defined.

(** X25: combined short flags.  For two or more characters [cs], none of
    them [-], the argument [-cs] gives the same result as the arguments
    [-c], one for each character in order, when what follows is the end of
    the arguments or a flag (otherwise the last [-c] would take the next
    argument as its value). *)
Theorem combined_short_flags {Num : Type} (toNumber : list ascii -> Num)
    (cs : list ascii) (pre post : list (list ascii)) :
  2 <= length cs -> forallb (notChar "-") cs = true ->
  (forall t, head post = Some t -> isFlag t = true) ->
  parseFlags toNumber (pre ++ ("-"%char :: cs) :: post) =
    parseFlags toNumber (pre ++ map shortFlag cs ++ post).
Proof.
  intros Hlen Hcs Hpost. rewrite !parseFlags_flagsFrom.
  destruct cs as [|c1 [|c2 cs]]; [simpl in Hlen; lia..|].
  apply flagsFrom_prefix.
  - intros r. rewrite (flagsFrom_shorts toNumber post _ Hcs Hpost).
    simpl in Hcs. apply andb_prop in Hcs as [Hc1 _].
    rewrite flagsFrom_cons, (flagsStep_combined toNumber c1 c2 cs _ r Hc1).
    reflexivity.
  - eexists. split; [reflexivity|]. reflexivity.
  - eexists. split; [reflexivity|]. reflexivity.
Qed.

Lemma combined_short_flags_witness :
  2 <= length (js "abc") /\ forallb (notChar "-") (js "abc") = true /\
  (forall t, head [js "--x"] = Some t -> isFlag t = true) /\
  parseFlags (fun s : list ascii => s)
    ([js "in"] ++ ("-"%char :: js "abc") :: [js "--x"]) =
  parseFlags (fun s : list ascii => s)
    ([js "in"] ++ map shortFlag (js "abc") ++ [js "--x"]).
Proof.
  assert (forall t, head [js "--x"] = Some t -> isFlag t = true) as H
    by (intros t Ht; injection Ht as <-; reflexivity).
  split; [simpl; lia|]. split; [reflexivity|]. split; [exact H|].
  apply (combined_short_flags (fun s : list ascii => s) (js "abc")
           [js "in"] [js "--x"]); [simpl; lia|reflexivity|exact H].
Defined.

(** X26: a flag given several times collects its values.  For a key without
    [=] other than [__proto__] and [positional], and two or more values, the
    arguments [--key=value], one for each value, give the result whose
    [key] is the array of the coerced values in their order, and whose
    [positional] is empty. *)
Theorem repeated_flag_accumulates {Num : Type} (toNumber : list ascii -> Num)
    (key : list ascii) (values : list (list ascii)) :
  forallb (notChar "=") key = true ->
  key <> js "__proto__" -> key <> js "positional" -> 2 <= length values ->
  parseFlags toNumber (map (longFlag key) values) =
    Some (<[key := Array (map (coerce toNumber) values)]>
            {[ js "positional" := Array [] ]}).
Proof.
  intros Hk Hproto Hpos Hlen. rewrite parseFlags_flagsFrom.
  destruct values as [|v1 [|v2 values]]; [simpl in Hlen; lia..|].
  cbn [map]. rewrite flagsFrom_cons, (flagsStep_long toNumber key v1 _ _ Hk).
  cbn [Nat.eqb]. unfold assign at 1.
  rewrite lookup_singleton_ne by (intros E; apply Hpos; symmetry; exact E).
  rewrite bool_decide_eq_false_2 by exact Hproto.
  rewrite flagsFrom_cons, (flagsStep_long toNumber key v2 _ _ Hk).
  cbn [Nat.eqb]. unfold assign at 1. rewrite lookup_insert_eq.
  rewrite (flagsFrom_repeated toNumber key values Hk _
             [coerce toNumber v1; coerce toNumber v2])
    by apply lookup_insert_eq.
  rewrite !insert_insert_eq. reflexivity.
Qed.

Lemma repeated_flag_accumulates_witness :
  forallb (notChar "=") (js "tag") = true /\
  js "tag" <> js "__proto__" /\ js "tag" <> js "positional" /\
  2 <= length [js "a"; js "7"; js "false"] /\
  parseFlags (fun s : list ascii => s)
    (map (longFlag (js "tag")) [js "a"; js "7"; js "false"]) =
    Some (<[js "tag" := Array (map (coerce (fun s : list ascii => s))
                                [js "a"; js "7"; js "false"])]>
            {[ js "positional" := Array [] ]}).
Proof.
  split; [reflexivity|]. split; [discriminate|]. split; [discriminate|].
  split; [simpl; lia|].
  apply (repeated_flag_accumulates (fun s : list ascii => s) (js "tag")
           [js "a"; js "7"; js "false"]);
    [reflexivity|discriminate|discriminate|simpl; lia].
Defined.

(** ** The kinds of the tokens *)

Lemma slice_one (input : list ascii) (i : nat) (c : ascii) :
  input !! i = Some c -> slice input i (i + 1) = [c].
Proof.
  intros Hc. unfold slice. replace (i + 1 - i) with 1 by lia.
  rewrite (drop_S _ _ _ Hc). reflexivity.
Qed.

Lemma slice_two (input : list ascii) (i : nat) (a b : ascii) :
  input !! i = Some a -> input !! (i + 1) = Some b ->
  slice input i (i + 2) = [a; b].
Proof.
  intros Ha Hb. unfold slice. replace (i + 2 - i) with 2 by lia.
  rewrite (drop_S _ _ _ Ha). replace (i + 1) with (S i) in Hb by lia.
  rewrite (drop_S _ _ _ Hb). reflexivity.
Qed.

Lemma lexFd_meta (input : list ascii) (tokens : list Token) (i j : nat)
    (toks : list Token) :
  lexFd input tokens i = Some (j, toks) ->
  exists m, toks = pushToken input tokens TokenKind.FD_GT i j (Some m).
Proof.
  unfold lexFd.
  repeat (match goal with |- context [if ?b then _ else _] => destruct b end);
    intros H; inversion H; subst; eauto.
Qed.

Lemma lexBody_kinds (input : list ascii) (st : nat * list Token) :
  Forall tokenTextOk st.2 ->
  match lexBody input st with
  | Some (inl st') => Forall tokenTextOk st'.2
  | Some (inr toks) => Forall tokenTextOk toks
  | None => True
  end.
Proof.
  destruct st as [i tokens]. cbn [fst snd]. intros Hall.
  assert (forall k s e,
            k <> TokenKind.EOF -> k <> TokenKind.FD_GT ->
            (forall o, kindText k = Some o -> slice input s e = o) ->
            Forall tokenTextOk (pushToken input tokens k s e None)) as Hpush.
  { intros k s e H1 H2 H3. apply Forall_pushToken; [exact Hall|].
    split; [exact H1|]. split; [exact H3|]. simpl. split.
    - intros [x Hx]. discriminate.
    - intros Hk. contradiction. }
  unfold lexBody. destruct (input !! i) as [ch|] eqn:Hch; [|exact Hall].
  destruct (isSpace ch); [exact Hall|].
  destruct (Ascii.eqb ch "|") eqn:Hpipe.
  { apply Ascii.eqb_eq in Hpipe. subst ch.
    apply Hpush; try discriminate. intros o Ho. injection Ho as <-.
    apply slice_one, Hch. }
  destruct (Ascii.eqb ch "&" && charIs ">" (input !! (i + 1))) eqn:Hamp.
  { apply andb_prop in Hamp as [Ha Hgt]. apply Ascii.eqb_eq in Ha. subst ch.
    apply charIs_true in Hgt.
    apply Hpush; try discriminate. intros o Ho. injection Ho as <-.
    apply slice_two; assumption. }
  destruct (if isDigit ch then lexFd input tokens i else None)
    as [[j toks]|] eqn:Hfd.
  { destruct (isDigit ch); [|discriminate].
    apply lexFd_meta in Hfd as (m & ->). cbn [snd].
    apply Forall_pushToken; [exact Hall|].
    split; [discriminate|]. split; [discriminate|]. simpl.
    split; [reflexivity|eauto]. }
  destruct (Ascii.eqb ch ">") eqn:Hgt.
  { apply Ascii.eqb_eq in Hgt. subst ch.
    destruct (charIs ">" (input !! (i + 1))) eqn:Hgt2.
    - apply charIs_true in Hgt2.
      apply Hpush; try discriminate. intros o Ho. injection Ho as <-.
      apply slice_two; assumption.
    - apply Hpush; try discriminate. intros o Ho. injection Ho as <-.
      apply slice_one, Hch. }
  destruct (Ascii.eqb ch "<") eqn:Hlt.
  { apply Ascii.eqb_eq in Hlt. subst ch.
    apply Hpush; try discriminate. intros o Ho. injection Ho as <-.
    apply slice_one, Hch. }
  destruct (scanWord input i) as [wend|]; [|exact I].
  apply Hpush; discriminate.
Qed.

(** X27: the kinds of the tokens.  For every input, [lex] returns tokens
    that end with the one EOF token; before it, a Pipe, GT, GTGT, LT or
    AMP_GT token has exactly the text [|], [>], [>>], [<] or [&>], and the
    tokens that carry metadata are exactly the FD_GT tokens. *)
Theorem lex_token_kinds (input : list ascii) :
  exists toks,
    lex input = Some (toks ++ [eofToken input]) /\ Forall tokenTextOk toks.
Proof.
  destruct (while_total (lexBody input)
              (fun st => lexInv input st /\ Forall tokenTextOk st.2)
              (fun r => Forall tokenTextOk r)
              (fun st => length input - st.1))
    with (fuel := S (length input)) (s := (0, @nil Token)) as (r & Hw & Hkinds).
  - intros st [Hinv Hall].
    pose proof (lexBody_ok input st Hinv) as H1.
    pose proof (lexBody_kinds input st Hall) as H2.
    destruct (lexBody input st) as [[st'|r]|]; [|exact H2|contradiction].
    destruct H1. auto.
  - split; [split; [constructor|reflexivity]|constructor].
  - simpl. lia.
  - exists r. split; [|exact Hkinds]. unfold lex. rewrite Hw.
    unfold pushToken, eofToken, slice. rewrite Nat.sub_diag, take_0. reflexivity.
Qed.

(** ** A backslash at the end of the input *)

Lemma digits_not_redirection_gen (w tail : list ascii) :
  forallb lexChar w = true ->
  at_ isDigit (tail !! 0) = false -> charIs ">" (tail !! 0) = false ->
  charIs ">" ((w ++ tail) !! scanWhile isDigit (w ++ tail)) = false.
Proof.
  intros Hw Hd Hg. induction w as [|c w IH].
  - destruct tail as [|x tail]; [reflexivity|]. simpl in *. rewrite Hd. exact Hg.
  - simpl in Hw. apply andb_prop in Hw as [Hc Hw]. simpl.
    destruct (isDigit c).
    + simpl. apply IH, Hw.
    + simpl. apply lexChar_inv in Hc as (_ & _ & _ & Hgt & _). exact Hgt.
Qed.

Lemma scanWord_trailing_backslash (w : list ascii) :
  forallb lexChar w = true ->
  scanWord (w ++ [backslash]) 0 = Some (length w + 2).
Proof.
  intros Hw. unfold scanWord.
  assert (length (w ++ [backslash]) = length w + 1) as Hlen
    by (rewrite length_app; reflexivity).
  destruct (while_total (wordBody (w ++ [backslash]))
              (fun j => j <= length w \/ j = length w + 2)
              (fun r => r = length w + 2)
              (fun j => length w + 1 - j))
    with (fuel := S (length (w ++ [backslash]))) (s := 0)
    as (r & Hr & ->); [|left; lia|rewrite Hlen; lia|exact Hr].
  intros j [Hj| ->].
  - destruct (decide (j < length w)) as [Hlt|Hge].
    + destruct (w !! j) as [c|] eqn:Hc; [|apply lookup_ge_None in Hc; lia].
      assert (lexChar c = true) as Hl.
      { rewrite forallb_forall in Hw. apply Hw, list_elem_of_In.
        eapply list_elem_of_lookup_2, Hc. }
      rewrite (wordBody_lexChar (w ++ [backslash]) j c)
        by (try rewrite lookup_app_l by lia; assumption).
      split; [left; lia|lia].
    + assert (j = length w) as -> by lia.
      rewrite wordBody_backslash
        by (rewrite lookup_app_r, Nat.sub_diag by lia; reflexivity).
      split; [right; lia|lia].
  - unfold wordBody. rewrite lookup_ge_None_2 by lia. reflexivity.
Qed.

Lemma lex_trailing_backslash (w : list ascii) :
  forallb lexChar w = true ->
  lex (w ++ [backslash]) =
    Some [mkToken TokenKind.Word (w ++ [backslash]) 0 (length w + 2) None;
          eofToken (w ++ [backslash])].
Proof.
  intros Hw. set (input := w ++ [backslash]).
  assert (length input = length w + 1) as Hlen
    by (unfold input; rewrite length_app; reflexivity).
  assert (exists c, input !! 0 = Some c /\ isSpace c = false /\
                    Ascii.eqb c "|" = false /\ Ascii.eqb c "&" = false /\
                    Ascii.eqb c ">" = false /\ Ascii.eqb c "<" = false)
    as (c & Hc & H1 & H2 & H3 & H4 & H5).
  { unfold input. destruct w as [|c w']; [exists backslash; repeat split|].
    exists c. split; [reflexivity|]. simpl in Hw. apply andb_prop in Hw as [Hl _].
    apply lexChar_inv in Hl as (? & ? & ? & ? & ? & _). auto. }
  assert (lexFd input [] 0 = None) as Hfd.
  { unfold lexFd. rewrite drop_0, Nat.add_0_l. unfold input.
    rewrite (digits_not_redirection_gen w [backslash] Hw eq_refl eq_refl).
    reflexivity. }
  assert (lexBody input (0, []) =
          Some (inl (length w + 2,
                     [mkToken TokenKind.Word input 0 (length w + 2) None]))) as Hb.
  { pose proof (scanWord_trailing_backslash w Hw) as Hscan. fold input in Hscan.
    unfold lexBody. rewrite Hc, H1, H2, H3, Hfd, H4, H5, Hscan.
    cbn [andb]. unfold pushToken. rewrite slice_past by lia.
    destruct (isDigit c); reflexivity. }
  unfold lex. rewrite (while_continue _ _ _ _ Hb).
  erewrite while_exit_pos; cycle 1.
  - lia.
  - unfold lexBody. rewrite lookup_ge_None_2 by lia. reflexivity.
  - unfold pushToken, eofToken, slice. rewrite Nat.sub_diag, take_0. reflexivity.
Qed.

Lemma splitBody_last_backslash (raw : list ascii) (base i : nat) (ps : list Part) :
  raw !! i = Some backslash -> raw !! (i + 1) = None ->
  splitBody raw base (i, ps) =
    Some (inl (i + 1, pushText base ps [backslash] i (i + 1))).
Proof. intros H1 H2. unfold splitBody. rewrite H1. cbn. rewrite H2. reflexivity. Qed.

Lemma split_trailing_backslash {Other : Type} (toStr : Other -> list ascii)
    (ctx : Ctx Other) (w : list ascii) (base : nat) :
  plainChars w = true ->
  exists ps,
    splitWordIntoParts (w ++ [backslash]) base = Some (mergeParts ps) /\
    expandParts toStr ctx ps = w ++ [backslash].
Proof.
  intros Hw. destruct (plainChars_inv w Hw) as [_ Hsp].
  set (raw := w ++ [backslash]).
  assert (length raw = length w + 1) as Hlen
    by (unfold raw; rewrite length_app; reflexivity).
  assert (forall ps fuel, 1 < fuel ->
            while (splitBody raw base) fuel (length w, ps) =
              Some (pushText base ps [backslash] (length w) (length w + 1)))
    as Hend.
  { intros ps fuel Hf. destruct fuel as [|fuel]; [lia|].
    rewrite (while_continue _ _ _ _
               (splitBody_last_backslash raw base (length w) ps
                  ltac:(unfold raw; rewrite lookup_app_r, Nat.sub_diag by lia;
                        reflexivity)
                  ltac:(apply lookup_ge_None_2; lia))).
    apply while_exit_pos; [lia|]. apply splitBody_end. lia. }
  unfold splitWordIntoParts. fold raw.
  destruct w as [|c w'].
  - cbn [length] in Hend. eexists.
    rewrite Hend by (rewrite Hlen; simpl; lia). split; reflexivity.
  - assert (isSpecial c = false) as Hc.
    { cbn [forallb] in Hsp. apply andb_prop in Hsp as [Hc _].
      apply negb_true_iff in Hc. exact Hc. }
    pose proof (splitBody_run raw base 0 [] c eq_refl Hc) as H1.
    assert (scanWhile (fun c => negb (isSpecial c)) raw = length (c :: w'))
      as Hscan by (apply (scanWhile_prefix _ (c :: w') [backslash] Hsp eq_refl)).
    assert (slice raw 0 (length (c :: w')) = c :: w') as Hsl.
    { unfold slice, raw. rewrite Nat.sub_0_r, drop_0. apply take_app_length. }
    rewrite drop_0, Hscan, Nat.add_0_l, Hsl in H1.
    replace (0 <? length (c :: w')) with true in H1 by reflexivity.
    rewrite (while_continue _ _ _ _ H1).
    eexists. rewrite Hend by (rewrite Hlen; simpl; lia).
    split; [reflexivity|].
    rewrite !expandParts_pushText. reflexivity.
Qed.

(** X28: a backslash that is the last character of the input stands for
    itself.  For characters [w] that need no quoting (possibly none), the
    input [w] followed by one backslash is one command with one word, and
    the word expands to [w] and the backslash, although the lexer's cursor
    has moved past the end of the input. *)
Theorem trailing_backslash_literal {Other : Type} (toStr : Other -> list ascii)
    (ctx : Ctx Other) (w : list ascii) :
  plainChars w = true ->
  exists p cmd word,
    parse (w ++ [backslash]) = Some p /\ commands p = [cmd] /\
    words cmd = [word] /\ redirections cmd = [] /\
    expandWord toStr word ctx = w ++ [backslash].
Proof.
  intros Hw. destruct (plainChars_inv w Hw) as [Hlex _].
  destruct (split_trailing_backslash toStr ctx w 0 Hw) as (ps & Hsplit & Hexp).
  unfold parse. rewrite (lex_trailing_backslash w Hlex).
  rewrite (parseTokens_single_word (w ++ [backslash]) 0 (length w + 2)
             (eofToken (w ++ [backslash]))
             (mkWord (mergeParts ps)
                (makeSpan 0 (0 + length (w ++ [backslash]))))
             eq_refl ltac:(unfold makeWord; rewrite Hsplit; reflexivity)).
  do 3 eexists. split; [reflexivity|]. repeat split; try reflexivity.
  cbn [commands words]. rewrite expandWord_merged. exact Hexp.
Qed.

Lemma trailing_backslash_literal_witness :
  plainChars (js "dir") = true /\
  exists p cmd word,
    parse (js "dir" ++ [backslash]) = Some p /\ commands p = [cmd] /\
    words cmd = [word] /\ redirections cmd = [] /\
    expandWord jsObjectText word (objectLiteral ∅)
    = js "dir" ++ [backslash].
Proof.
  split; [reflexivity|].
  apply (trailing_backslash_literal
           jsObjectText (objectLiteral ∅) (js "dir")).
  reflexivity.
Defined.

(** ** The Pipe tokens are the top-level [|] characters *)

Lemma ordinaryChar_inv (c : ascii) :
  ordinaryChar c = true ->
  isSpace c = false /\ Ascii.eqb c "|" = false /\ Ascii.eqb c squote = false /\
  Ascii.eqb c dquote = false /\ Ascii.eqb c backslash = false.
Proof.
  unfold ordinaryChar. intros H. apply negb_true_iff in H.
  do 4 (apply orb_false_elim in H as [H ?]). auto.
Qed.

Lemma isSpace_ordinary (c : ascii) :
  isSpace c = true ->
  Ascii.eqb c "|" = false /\ Ascii.eqb c squote = false /\
  Ascii.eqb c dquote = false /\ Ascii.eqb c backslash = false.
Proof.
  destruct c as [[] [] [] [] [] [] [] []]; vm_compute; intros;
    try discriminate; repeat split; reflexivity.
Qed.

Lemma isDigit_ordinary (c : ascii) : isDigit c = true -> ordinaryChar c = true.
Proof.
  destruct c as [[] [] [] [] [] [] [] []]; vm_compute; intros;
    try discriminate; reflexivity.
Qed.

Lemma topLevelScan_ordinary (c : ascii) (rest : list ascii) (n : nat) (bar : bool) :
  ordinaryChar c = true ->
  topLevelScan Unquoted n bar (c :: rest) = topLevelScan Unquoted n false rest.
Proof.
  intros H. apply ordinaryChar_inv in H as (H1 & H2 & H3 & H4 & H5).
  cbn [topLevelScan]. rewrite H2, H3, H4, H5, H1. reflexivity.
Qed.

Lemma topLevelScan_space (c : ascii) (rest : list ascii) (n : nat) (bar : bool) :
  isSpace c = true ->
  topLevelScan Unquoted n bar (c :: rest) = topLevelScan Unquoted n bar rest.
Proof.
  intros H. destruct (isSpace_ordinary c H) as (H2 & H3 & H4 & H5).
  cbn [topLevelScan]. rewrite H2, H3, H4, H5, H. reflexivity.
Qed.

Lemma ordinaryBetween_nil (input : list ascii) (a : nat) : ordinaryBetween input a a.
Proof. intros k Hk. lia. Qed.

Lemma ordinaryBetween_one (input : list ascii) (a : nat) (c : ascii) :
  input !! a = Some c -> ordinaryChar c = true -> ordinaryBetween input a (a + 1).
Proof. intros Hc Ho k Hk. assert (k = a) as -> by lia. eauto. Qed.

Lemma ordinaryBetween_trans (input : list ascii) (a b c : nat) :
  ordinaryBetween input a b -> ordinaryBetween input b c ->
  ordinaryBetween input a c.
Proof.
  intros H1 H2 k Hk. destruct (decide (k < b)); [apply H1|apply H2]; lia.
Qed.

Lemma ordinaryBetween_digits (input : list ascii) (i : nat) :
  ordinaryBetween input i (i + scanWhile isDigit (drop i input)).
Proof.
  intros k Hk.
  pose proof (scanWhile_le isDigit (drop i input)) as Hle.
  rewrite length_drop in Hle.
  destruct (input !! k) as [c|] eqn:Hc; [|apply lookup_ge_None in Hc; lia].
  exists c. split; [reflexivity|]. apply isDigit_ordinary.
  apply (scanWhile_run isDigit (drop i input) (k - i) c); [lia|].
  rewrite lookup_drop. replace (i + (k - i)) with k by lia. exact Hc.
Qed.

Lemma topLevelScan_ordinaryBetween (input : list ascii) (i j : nat) :
  ordinaryBetween input i j -> i < j ->
  forall n bar,
    topLevelScan Unquoted n bar (drop i input)
    = topLevelScan Unquoted n false (drop j input).
Proof.
  intros Hord Hlt. remember (j - i) as d eqn:Hd. revert i Hord Hlt Hd.
  induction d as [|d IH]; intros i Hord Hlt Hd n bar; [lia|].
  destruct (Hord i ltac:(lia)) as (c & Hc & Ho).
  rewrite (drop_S _ _ _ Hc), (topLevelScan_ordinary c _ n bar Ho).
  destruct (decide (S i = j)) as [->|Hne]; [reflexivity|].
  apply IH; [|lia|lia]. intros k Hk. apply Hord. lia.
Qed.

Lemma topLevelScan_single (rest : list ascii) (n : nat) :
  topLevelScan InSingle n false rest
  = topLevelScan Unquoted n false (drop (scanQuoted squote rest) rest).
Proof.
  induction rest as [|c rest IH]; [reflexivity|].
  change (scanQuoted squote (c :: rest))
    with (if Ascii.eqb c backslash && Ascii.eqb squote dquote
          then match rest with
               | [] => 2
               | _ :: rest'' => S (S (scanQuoted squote rest''))
               end
          else if Ascii.eqb c squote then 1 else S (scanQuoted squote rest)).
  change (Ascii.eqb squote dquote) with false. rewrite andb_false_r.
  cbn [topLevelScan]. destruct (Ascii.eqb c squote); [reflexivity|exact IH].
Qed.

Lemma topLevelScan_double (rest : list ascii) (n : nat) :
  topLevelScan InDouble n false rest
  = topLevelScan Unquoted n false (drop (scanQuoted dquote rest) rest).
Proof.
  assert (forall k rest, length rest <= k ->
            topLevelScan InDouble n false rest
            = topLevelScan Unquoted n false (drop (scanQuoted dquote rest) rest))
    as H.
  { induction k as [|k IH]; intros l Hl.
    - destruct l; [reflexivity|simpl in Hl; lia].
    - destruct l as [|c l]; [reflexivity|]. simpl in Hl.
      change (scanQuoted dquote (c :: l))
        with (if Ascii.eqb c backslash && Ascii.eqb dquote dquote
              then match l with
                   | [] => 2
                   | _ :: rest'' => S (S (scanQuoted dquote rest''))
                   end
              else if Ascii.eqb c dquote then 1 else S (scanQuoted dquote l)).
      change (Ascii.eqb dquote dquote) with true. rewrite andb_true_r.
      cbn [topLevelScan]. destruct (Ascii.eqb c backslash).
      + destruct l as [|x l']; [reflexivity|]. simpl in Hl.
        apply IH. lia.
      + destruct (Ascii.eqb c dquote); [reflexivity|]. apply IH. lia. }
  apply (H (length rest)). lia.
Qed.

(** One iteration of the word loop goes over a quoted region, an escaped
    character or one ordinary character. *)
Lemma wordBody_scan (input : list ascii) (j j' : nat) :
  wordBody input j = Some (inl j') ->
  forall n bar,
    topLevelScan Unquoted n bar (drop j input)
    = topLevelScan Unquoted n false (drop j' input).
Proof.
  unfold wordBody. destruct (input !! j) as [c|] eqn:Hc; [|discriminate].
  rewrite (drop_S _ _ _ Hc).
  destruct (isSpace c) eqn:Hsp; [discriminate|].
  destruct (Ascii.eqb c "|" || Ascii.eqb c "<" || Ascii.eqb c ">") eqn:Hop;
    [discriminate|].
  apply orb_false_elim in Hop as [Hop _]. apply orb_false_elim in Hop as [Hbar _].
  destruct (Ascii.eqb c "&" && charIs ">" (input !! (j + 1))); [discriminate|].
  destruct (Ascii.eqb c squote) eqn:Hsq.
  { apply Ascii.eqb_eq in Hsq. subst c. cbn [orb]. intros H n bar.
    injection H as <-. cbn [topLevelScan].
    change (Ascii.eqb squote "|") with false.
    change (Ascii.eqb squote squote) with true. cbv iota.
    rewrite topLevelScan_single, drop_drop.
    replace (S j) with (j + 1) by lia. reflexivity. }
  destruct (Ascii.eqb c dquote) eqn:Hdq.
  { apply Ascii.eqb_eq in Hdq. subst c. cbn [orb]. intros H n bar.
    injection H as <-. cbn [topLevelScan].
    change (Ascii.eqb dquote "|") with false.
    change (Ascii.eqb dquote squote) with false.
    change (Ascii.eqb dquote dquote) with true. cbv iota.
    rewrite topLevelScan_double, drop_drop.
    replace (S j) with (j + 1) by lia. reflexivity. }
  cbn [orb]. destruct (Ascii.eqb c backslash) eqn:Hbs.
  { intros H n bar. injection H as <-. cbn [topLevelScan].
    rewrite Hbar, Hsq, Hdq, Hbs.
    replace (j + 2) with (S j + 1) by lia. rewrite <- drop_drop.
    destruct (drop (S j) input) as [|x rest]; reflexivity. }
  intros H n bar. injection H as <-.
  replace (j + 1) with (S j) by lia. apply topLevelScan_ordinary.
  unfold ordinaryChar. rewrite Hsp, Hbar, Hsq, Hdq, Hbs. reflexivity.
Qed.

Lemma wordLoop_scan (input : list ascii) :
  forall (fuel j w : nat),
    while (wordBody input) fuel j = Some w ->
    forall n,
      topLevelScan Unquoted n false (drop j input)
      = topLevelScan Unquoted n false (drop w input).
Proof.
  induction fuel as [|fuel IH]; intros j w Hw n; [discriminate|].
  cbn [while] in Hw.
  destruct (wordBody input j) as [[j'|r]|] eqn:Hb; [| |discriminate].
  - rewrite (wordBody_scan input j j' Hb n false). apply (IH j' w Hw).
  - injection Hw as <-. unfold wordBody in Hb.
    repeat (match type of Hb with
            | context [match ?o with Some _ => _ | None => _ end] =>
                destruct o; try discriminate
            | context [if ?b then _ else _] => destruct b; try discriminate
            end);
      injection Hb as <-; reflexivity.
Qed.

Lemma scanWord_scan (input : list ascii) (i i1 w : nat) :
  wordBody input i = Some (inl i1) -> scanWord input i = Some w ->
  forall n bar,
    topLevelScan Unquoted n bar (drop i input)
    = topLevelScan Unquoted n false (drop w input).
Proof.
  intros Hb Hw n bar. unfold scanWord in Hw. cbn [while] in Hw. rewrite Hb in Hw.
  rewrite (wordBody_scan input i i1 Hb n bar).
  apply (wordLoop_scan input _ i1 w Hw).
Qed.

Lemma lexFd_ordinary (input : list ascii) (tokens : list Token) (i i' : nat)
    (tokens' : list Token) :
  lexFd input tokens i = Some (i', tokens') ->
  i < i' /\ ordinaryBetween input i i' /\
  exists m, tokens' = pushToken input tokens TokenKind.FD_GT i i' m.
Proof.
  unfold lexFd.
  pose proof (ordinaryBetween_digits input i) as Hd.
  set (i1 := i + scanWhile isDigit (drop i input)) in *.
  destruct (charIs ">" (input !! i1)) eqn:H1; [|discriminate].
  apply charIs_true in H1.
  pose proof (ordinaryBetween_trans _ _ _ _ Hd
                (ordinaryBetween_one input i1 ">" H1 eq_refl)) as Hd1.
  destruct (charIs ">" (input !! (i1 + 1))) eqn:H2.
  { apply charIs_true in H2. intros H. injection H as <- <-.
    split; [lia|]. split; [|eauto].
    eapply ordinaryBetween_trans; [exact Hd1|].
    eapply ordinaryBetween_one; [exact H2|reflexivity]. }
  destruct (charIs "&" (input !! (i1 + 1))) eqn:H3.
  { apply charIs_true in H3. intros H. injection H as <- <-.
    split; [lia|]. split; [|eauto].
    eapply ordinaryBetween_trans; [exact Hd1|].
    eapply ordinaryBetween_trans;
      [eapply ordinaryBetween_one; [exact H3|reflexivity]|].
    apply ordinaryBetween_digits. }
  intros H. injection H as <- <-. split; [lia|]. split; [exact Hd1|eauto].
Qed.

Lemma lastIsPipe_push (input : list ascii) (tokens : list Token) (k : TokenKind.t)
    (a b : nat) (m : option Meta) :
  lastIsPipe (pushToken input tokens k a b m) = TokenKind.eqb k TokenKind.Pipe.
Proof. unfold lastIsPipe, pushToken. rewrite last_snoc. reflexivity. Qed.

Lemma lexBody_scan (input : list ascii) (st : nat * list Token) :
  scanInv input st ->
  match lexBody input st with
  | None => True
  | Some (inl st') => scanInv input st'
  | Some (inr tokens) =>
      (pipes tokens, lastIsPipe tokens) = topLevelScan Unquoted 0 false input
  end.
Proof.
  destruct st as [i tokens]. unfold scanInv. cbn [fst snd]. intros Hinv.
  unfold lexBody. destruct (input !! i) as [ch|] eqn:Hch.
  2:{ rewrite drop_ge in Hinv by (apply lookup_ge_None, Hch). exact Hinv. }
  assert (forall k i' m,
            TokenKind.eqb k TokenKind.Pipe = false ->
            (forall n bar, topLevelScan Unquoted n bar (drop i input)
                           = topLevelScan Unquoted n false (drop i' input)) ->
            topLevelScan Unquoted (pipes (pushToken input tokens k i i' m))
              (lastIsPipe (pushToken input tokens k i i' m)) (drop i' input)
            = topLevelScan Unquoted 0 false input) as Hpush.
  { intros k i' m Hk Hskip. rewrite pipes_push, lastIsPipe_push, Hk, Nat.add_0_r.
    rewrite <- Hinv. symmetry. apply Hskip. }
  assert (forall i', i < i' -> ordinaryBetween input i i' ->
            forall n bar, topLevelScan Unquoted n bar (drop i input)
                          = topLevelScan Unquoted n false (drop i' input)) as Hord.
  { intros i' Hlt Ho. apply topLevelScan_ordinaryBetween; assumption. }
  destruct (isSpace ch) eqn:Hspace.
  { cbn [fst snd]. rewrite <- Hinv, (drop_S _ _ _ Hch).
    rewrite (topLevelScan_space ch _ _ _ Hspace).
    replace (i + 1) with (S i) by lia. reflexivity. }
  destruct (Ascii.eqb ch "|") eqn:Hpipe.
  { apply Ascii.eqb_eq in Hpipe. subst ch. cbn [fst snd].
    rewrite pipes_push, lastIsPipe_push. cbn [TokenKind.eqb].
    rewrite <- Hinv, (drop_S _ _ _ Hch). cbn [topLevelScan].
    change (Ascii.eqb "|" "|") with true. cbv iota.
    replace (i + 1) with (S i) by lia. replace (pipes tokens + 1) with (S (pipes tokens)) by lia.
    reflexivity. }
  destruct (Ascii.eqb ch "&" && charIs ">" (input !! (i + 1))) eqn:Hamp.
  { apply andb_prop in Hamp as [Ha Hgt]. apply Ascii.eqb_eq in Ha. subst ch.
    apply charIs_true in Hgt. cbn [fst snd].
    apply Hpush; [reflexivity|]. apply Hord; [lia|].
    replace (i + 2) with (i + 1 + 1) by lia.
    eapply ordinaryBetween_trans;
      eapply ordinaryBetween_one; try eassumption; reflexivity. }
  destruct (if isDigit ch then lexFd input tokens i else None)
    as [[i' tokens']|] eqn:Hfd.
  { destruct (isDigit ch); [|discriminate].
    apply lexFd_ordinary in Hfd as (Hlt & Ho & m & ->). cbn [fst snd].
    apply Hpush; [reflexivity|]. apply Hord; assumption. }
  destruct (Ascii.eqb ch ">") eqn:Hgt.
  { apply Ascii.eqb_eq in Hgt. subst ch.
    destruct (charIs ">" (input !! (i + 1))) eqn:Hgt2; cbn [fst snd];
      (apply Hpush; [reflexivity|]); (apply Hord; [lia|]).
    - apply charIs_true in Hgt2. replace (i + 2) with (i + 1 + 1) by lia.
      eapply ordinaryBetween_trans;
        eapply ordinaryBetween_one; try eassumption; reflexivity.
    - eapply ordinaryBetween_one; [eassumption|reflexivity]. }
  destruct (Ascii.eqb ch "<") eqn:Hlt.
  { apply Ascii.eqb_eq in Hlt. subst ch. cbn [fst snd].
    apply Hpush; [reflexivity|]. apply Hord; [lia|].
    eapply ordinaryBetween_one; [eassumption|reflexivity]. }
  assert (exists i1, wordBody input i = Some (inl i1)) as [i1 Hi1].
  { unfold wordBody. rewrite Hch, Hspace, Hpipe, Hlt, Hgt, Hamp. simpl.
    repeat (match goal with |- context [if ?b then _ else _] => destruct b end);
      eexists; reflexivity. }
  destruct (scanWord input i) as [w|] eqn:Hw; [|exact I].
  cbn [fst snd]. apply Hpush; [reflexivity|].
  apply (scanWord_scan input i i1 w Hi1 Hw).
Qed.

(** The Pipe tokens of the lexer are the top-level [|] characters of the
    input, and the last token is a Pipe exactly when the input ends,
    whitespace apart, with a top-level [|]. *)
Lemma lex_scan (input : list ascii) :
  exists toks,
    lex input = Some (toks ++ [eofToken input]) /\
    pipes toks = topLevelBars input /\
    lastIsPipe toks = endsWithTopLevelBar input.
Proof.
  destruct (while_total (lexBody input)
              (fun st => lexInv input st /\ scanInv input st)
              (fun r => (pipes r, lastIsPipe r)
                        = topLevelScan Unquoted 0 false input)
              (fun st => length input - st.1))
    with (fuel := S (length input)) (s := (0, @nil Token)) as (r & Hw & Hscan).
  - intros st [Hinv Hs].
    pose proof (lexBody_ok input st Hinv) as H1.
    pose proof (lexBody_scan input st Hs) as H2.
    destruct (lexBody input st) as [[st'|r]|]; [|exact H2|contradiction].
    destruct H1. auto.
  - split; [split; [constructor|reflexivity]|]. unfold scanInv. cbn [fst snd].
    rewrite drop_0. reflexivity.
  - simpl. lia.
  - exists r. split.
    + unfold lex. rewrite Hw. unfold pushToken, eofToken, slice.
      rewrite Nat.sub_diag, take_0. reflexivity.
    + unfold topLevelBars, endsWithTopLevelBar. rewrite <- Hscan. split; reflexivity.
Qed.

Lemma pipeTokens_chars (input : list ascii) :
  pipeTokens input = topLevelBars input /\
  lastTokenIsPipe input = endsWithTopLevelBar input.
Proof.
  destruct (lex_scan input) as (toks & Hlex & Hp & Hl).
  unfold pipeTokens, lastTokenIsPipe. rewrite Hlex, removelast_last, pipes_app.
  change (pipes [eofToken input]) with 0. rewrite Nat.add_0_r.
  split; [exact Hp|exact Hl].
Qed.

(** C1, as stated, fails on an input that ends with a pipe: ["a |"] has one
    top-level [|] and parses to one command, not two. *)
Lemma parse_trailing_pipe_one_command :
  hasVisibleChar (js "a |") = true /\
  topLevelBars (js "a |") = 1 /\
  ~ (exists p, parse (js "a |") = Some p /\
               length (commands p) = topLevelBars (js "a |") + 1).
Proof.
  split; [reflexivity|]. split; [reflexivity|].
  intros (p & Hp & Hlen). vm_compute in Hp. injection Hp as <-.
  vm_compute in Hlen. discriminate.
Qed.

(** C1 (amended): for every input that has a non-whitespace character and
    does not end, whitespace apart, with a top-level [|], [parse] returns a
    Pipeline whose number of commands is one more than the number of
    top-level [|] characters of the input, those outside quotes and not
    escaped. *)
Theorem parse_commands_count (input : list ascii) :
  hasVisibleChar input = true ->
  endsWithTopLevelBar input = false ->
  exists p,
    parse input = Some p /\
    length (commands p) = topLevelBars input + 1.
Proof.
  intros Hv He. destruct (parse_count input) as (p & Hp & _ & _ & _ & Hc).
  exists p. split; [assumption|].
  destruct (pipeTokens_chars input) as [Hp1 Hp2].
  destruct (Hc Hv) as [_ Hlen]. rewrite Hp1, Hp2, He in Hlen. exact Hlen.
Qed.

Lemma parse_commands_count_witness :
  hasVisibleChar (js "a | b 'c | d' \| | e") = true /\
  endsWithTopLevelBar (js "a | b 'c | d' \| | e") = false /\
  exists p,
    parse (js "a | b 'c | d' \| | e") = Some p /\
    length (commands p) = topLevelBars (js "a | b 'c | d' \| | e") + 1.
Proof.
  split; [reflexivity|]. split; [reflexivity|].
  apply (parse_commands_count (js "a | b 'c | d' \| | e")); reflexivity.
Defined.

(** ** Missing redirection targets in a whole parse *)

Section MissingTarget.
Variables (body : list Token) (e : Token).
Hypothesis He : kind e = TokenKind.EOF.
Hypothesis Hbody : Forall tokenOk body.
Let tokens := body ++ [e].

Lemma parseRedirection_cases (idx : nat) (ws : list Word) (rs : list Redirection)
    (t : Token) (o : list ascii) (f : OptNum) (dup : bool) (dt : option JsNumber) :
  body !! idx = Some t ->
  exists r idx',
    parseRedirection tokens (idx + 1) ws rs t o f dup dt = Some (idx', ws, rs ++ [r]) /\
    op r = o /\ fd r = f /\
    dupTargetFd r = (if dup then ofDupTarget dt else undefined) /\
    ((idx' = idx + 1 /\ target r = mkWord [] (makeSpan (tend t) (tend t)) /\
      rspan r = makeSpan (tstart t) (tend t)) \/
     (idx' = idx + 2 /\ exists next, body !! (idx + 1) = Some next /\
                                     kind next = TokenKind.Word)).
Proof.
  intros Ht. unfold parseRedirection.
  destruct (peekTok_cases body e Hbody (idx + 1))
    as [(next & Hnext & Hnlt & Hpeek & Hnok)|(Hge & Hpeek)];
    fold tokens in Hpeek; rewrite Hpeek.
  - destruct (TokenKind.eqb (kind next) TokenKind.Word) eqn:Hw; cbn [negb].
    + destruct (makeWord_total (text next) (tstart next)) as (ps & _ & ->).
      do 2 eexists. split; [reflexivity|]. cbn [op fd dupTargetFd].
      repeat split. right. split; [lia|]. exists next. split; [exact Hnext|].
      destruct (kind next); try discriminate. reflexivity.
    + rewrite makeWord_empty. do 2 eexists. split; [reflexivity|].
      cbn [op fd dupTargetFd target rspan]. repeat split. left. auto.
  - rewrite He. cbn [TokenKind.eqb negb]. rewrite makeWord_empty.
    do 2 eexists. split; [reflexivity|].
    cbn [op fd dupTargetFd target rspan]. repeat split. left. auto.
Qed.

Lemma placeholdersIn_grow (lo hi : nat) (rs : list Redirection) (hi' : nat)
    (rs' : list Redirection) :
  placeholdersIn body lo hi rs ->
  (forall r, In r rs -> In r rs') ->
  (forall k t, hi <= k < hi' -> body !! k = Some t ->
     isRedirectionKind (kind t) = true -> missingTarget body k ->
     exists r, In r rs' /\ placeholderFor t r) ->
  placeholdersIn body lo hi' rs'.
Proof.
  intros H Hsub Hnew k t Hk Ht Hr Hm.
  destruct (decide (k < hi)) as [Hlt|Hge].
  - assert (lo <= k < hi) as Hk' by lia.
    destruct (H k t Hk' Ht Hr Hm) as (r & Hin & Hp). eauto.
  - apply (Hnew k t); [lia|assumption..].
Qed.

Lemma parseCommandBody_placeholders (idx0 : nat)
    (st : nat * list Word * list Redirection) :
  idx0 <= st.1.1 -> placeholdersIn body idx0 st.1.1 st.2 ->
  match parseCommandBody tokens st with
  | Some (inl st') => idx0 <= st'.1.1 /\ placeholdersIn body idx0 st'.1.1 st'.2
  | Some (inr r) => placeholdersIn body idx0 r.1.1 r.2
  | None => True
  end.
Proof.
  destruct st as [[idx ws] rs]. cbn [fst snd]. intros Hle Hinv.
  unfold parseCommandBody.
  destruct (peekTok_cases body e Hbody idx)
    as [(tk & Htk & Hlt & Hpeek & Hnok)|(Hge & Hpeek)];
    fold tokens in Hpeek; rewrite Hpeek; [|rewrite He; exact Hinv].
  assert (forall (o : list ascii) (f : OptNum) (dup : bool) (dt : option JsNumber),
            recordedOperator tk
              = Some (o, f, if dup then ofDupTarget dt else undefined) ->
            match inl <$> parseRedirection tokens (idx + 1) ws rs tk o f dup dt
                  : option (nat * list Word * list Redirection
                            + nat * list Word * list Redirection) with
            | Some (inl st') =>
                idx0 <= st'.1.1 /\ placeholdersIn body idx0 st'.1.1 st'.2
            | Some (inr r) => placeholdersIn body idx0 r.1.1 r.2
            | None => True
            end) as Hredir.
  { intros o f dup dt Hrec.
    destruct (parseRedirection_cases idx ws rs tk o f dup dt Htk)
      as (r & idx' & -> & Hop & Hfd & Hdup & Hcase).
    cbn [fmap option_fmap option_map fst snd].
    destruct Hcase as [(-> & Htarget & Hspan)|(-> & next & Hnext & Hword)].
    - split; [lia|]. apply (placeholdersIn_grow idx0 idx rs); [exact Hinv| |].
      + intros r' Hr'. apply in_or_app. left. exact Hr'.
      + intros k t Hk Ht _ _. assert (k = idx) as -> by lia.
        rewrite Htk in Ht. injection Ht as <-.
        exists r. split; [apply in_or_app; right; left; reflexivity|].
        split; [|split; assumption]. rewrite Hrec, Hop, Hfd, Hdup. reflexivity.
    - split; [lia|]. apply (placeholdersIn_grow idx0 idx rs); [exact Hinv| |].
      + intros r' Hr'. apply in_or_app. left. exact Hr'.
      + intros k t Hk Ht Hr Hm. exfalso.
        destruct (decide (k = idx)) as [->|Hne].
        * apply (Hm next Hnext Hword).
        * assert (k = idx + 1) as -> by lia. rewrite Hnext in Ht.
          injection Ht as <-. rewrite Hword in Hr. discriminate. }
  unfold recordedOperator in Hredir.
  destruct (kind tk) eqn:Hkind; try exact Hinv;
    try (apply (Hredir _ _ false None); reflexivity).
  - destruct (makeWord_total (text tk) (tstart tk)) as (ps & _ & ->).
    cbn [fst snd]. split; [lia|].
    apply (placeholdersIn_grow idx0 idx rs); [exact Hinv|auto|].
    intros k t Hk Ht Hr _. exfalso. assert (k = idx) as -> by lia.
    rewrite Htk in Ht. injection Ht as <-. rewrite Hkind in Hr. discriminate.
  - destruct (meta tk) as [[f a|f d]|]; [| |exact I].
    + apply (Hredir _ _ false None). reflexivity.
    + apply (Hredir _ _ true d). reflexivity.
Qed.

Lemma parseCommand_placeholders (idx : nat) (cmd : Command) (idx' : nat) :
  idx <= length body ->
  parseCommand tokens idx = Some (cmd, idx') ->
  placeholdersIn body idx idx' (redirections cmd).
Proof.
  intros Hidx. unfold parseCommand.
  destruct (peekTok tokens idx 0) as [tk0|]; [|discriminate].
  assert (length tokens = S (length body)) as Hlen.
  { unfold tokens. rewrite length_app. simpl. lia. }
  destruct (while_total (parseCommandBody tokens)
              (fun st => commandInv body idx st /\ idx <= st.1.1 /\
                         placeholdersIn body idx st.1.1 st.2)
              (fun r => placeholdersIn body idx r.1.1 r.2)
              (fun st => length tokens - st.1.1))
    with (fuel := S (length tokens)) (s := (idx, @nil Word, @nil Redirection))
    as ([[j ws] rs] & -> & Hrec).
  - intros st (Hinv & Hle & Hp).
    pose proof (parseCommandBody_ok body e He Hbody idx st Hinv) as Hok.
    pose proof (parseCommandBody_placeholders idx st Hle Hp) as Hc.
    fold tokens in Hok.
    destruct (parseCommandBody tokens st) as [[st'|r]|]; [|exact Hc|contradiction].
    destruct Hok as [Hinv' Hm]. destruct Hc. auto.
  - split; [|split; [reflexivity|]].
    + repeat split; simpl; try lia; try constructor. intros k t Hk. lia.
    + intros k t Hk. cbn [fst snd] in Hk. lia.
  - simpl. lia.
  - destruct (peekTok tokens j 0); [|discriminate].
    intros H. injection H as <- <-. exact Hrec.
Qed.

Lemma parseBody_placeholders (st : nat * list Command) :
  pipelineInv body st -> placeholdersInCommands body st.1 st.2 ->
  match parseBody tokens st with
  | Some (inl st') => placeholdersInCommands body st'.1 st'.2
  | Some (inr r) => placeholdersInCommands body r.1 r.2
  | None => True
  end.
Proof.
  destruct st as [idx cmds]. intros (Hidx & _) Hinv.
  cbn [fst snd] in *. unfold parseBody.
  destruct (peekTok tokens idx 0) as [tk|]; [|exact I].
  destruct (TokenKind.eqb (kind tk) TokenKind.EOF); [exact Hinv|].
  destruct (parseCommand_ok body e He Hbody idx Hidx)
    as (cmd & idx' & Hcmd & Hb & _).
  fold tokens in Hcmd. rewrite Hcmd.
  pose proof (parseCommand_placeholders idx cmd idx' Hidx Hcmd) as Hrec.
  assert (placeholdersInCommands body idx' (cmds ++ [cmd])) as Hnew.
  { intros k t Hk Ht Hr Hm. destruct (decide (k < idx)) as [Hlt|Hge].
    - destruct (Hinv k t Hlt Ht Hr Hm) as (c & r & Hc & Hin & Hp).
      exists c, r. split; [apply in_or_app; left; exact Hc|auto].
    - assert (idx <= k < idx') as Hk' by lia.
      destruct (Hrec k t Hk' Ht Hr Hm) as (r & Hin & Hp).
      exists cmd, r. split; [apply in_or_app; right; left; reflexivity|auto]. }
  destruct (peekTok_cases body e Hbody idx')
    as [(t' & Ht' & Hlt' & Hpeek & _)|(Hge' & Hpeek)];
    fold tokens in Hpeek; rewrite Hpeek.
  - destruct (TokenKind.eqb (kind t') TokenKind.Pipe) eqn:Hp; cbn [fst snd];
      [|exact Hnew].
    intros k t Hk Ht Hr Hm. destruct (decide (k = idx')) as [->|Hne].
    + exfalso. rewrite Ht' in Ht. injection Ht as <-.
      destruct (kind t'); discriminate.
    + apply (Hnew k t); [lia|assumption..].
  - rewrite He. cbn [TokenKind.eqb fst snd]. exact Hnew.
Qed.

Lemma parseTokens_placeholders :
  exists cmds sp,
    parseTokens tokens = Some (mkPipeline cmds sp) /\
    placeholdersInCommands body (length body) cmds.
Proof.
  assert (length tokens = S (length body)) as Hlen.
  { unfold tokens. rewrite length_app. simpl. lia. }
  unfold parseTokens.
  destruct (while_total (parseBody tokens)
              (fun st => pipelineInv body st /\
                         placeholdersInCommands body st.1 st.2)
              (fun r => pipelinePost body r /\ placeholdersInCommands body r.1 r.2)
              (fun st => length tokens - st.1))
    with (fuel := S (length tokens)) (s := (0, @nil Command))
    as ([idx cmds] & -> & (Hge & _) & Hrec).
  - intros st [Hinv Hp].
    pose proof (parseBody_ok body e He Hbody st Hinv) as H1.
    pose proof (parseBody_placeholders st Hinv Hp) as H2.
    fold tokens in H1.
    destruct (parseBody tokens st) as [[st'|r]|]; [| |contradiction].
    + destruct H1 as [Hinv' Hm]. auto.
    + auto.
  - split.
    + repeat split; simpl; try lia; auto.
    + intros k t Hk. cbn [fst] in Hk. lia.
  - simpl. lia.
  - cbn [fst snd] in *.
    pose proof (peekTok_end body e idx Hge) as Hpeek. fold tokens in Hpeek.
    rewrite Hpeek. do 2 eexists. split; [reflexivity|].
    intros k t Hk Ht. apply Hrec; [lia|exact Ht].
Qed.
End MissingTarget.

(** C8: a redirection operator that no Word token follows.  For every input
    and every redirection operator token of it whose next token is not a
    Word (a [|], another operator or the end of the input), [parse] returns
    a Pipeline, and one of its commands holds the redirection of that
    operator: its [op], [fd] and [dupTargetFd] are the operator's, as for a
    redirection with a target, its target is a Word with no part and of
    zero length at the end of the operator, and its span is the operator's.
    The rest of the input is parsed as without it: the Pipeline has the
    commands its [|] tokens call for, and every token is used by a word, a
    redirection or a pipe. *)
Theorem missing_redirection_target (input : list ascii) (toks : list Token)
    (k : nat) (t : Token) :
  lex input = Some toks ->
  toks !! k = Some t ->
  isRedirectionKind (kind t) = true ->
  missingTarget toks k ->
  exists p c r,
    parse input = Some p /\
    In c (commands p) /\ In r (redirections c) /\ placeholderFor t r /\
    length (commands p) = expectedCommands (removelast toks) /\
    commandsTokens (commands p) + pipes (removelast toks)
      = length (removelast toks).
Proof.
  intros Hlex Ht Hk Hm.
  destruct (lex_spans input) as (body & Hlex' & Hspan & _).
  destruct (parse_ok input) as (body' & cmds & Hb & Hok & _ & Hp & Hlen & _).
  red in Hb. rewrite Hlex' in Hb. injection Hb as Hb.
  apply app_inj_tail in Hb as [<- _].
  rewrite Hlex in Hlex'. injection Hlex' as ->. rewrite removelast_last.
  destruct (parseTokens_placeholders body (eofToken input) eq_refl Hok)
    as (cmds' & sp & Hp' & Hrec).
  destruct (parseTokens_cost body (eofToken input) eq_refl Hok
              (lex_text_nonempty input body Hspan))
    as (cmds'' & sp'' & Hp'' & Hcost).
  unfold parse in Hp. rewrite Hlex in Hp.
  rewrite Hp in Hp', Hp''. injection Hp' as <- _. injection Hp'' as <- _.
  assert (body !! k = Some t /\ k < length body) as [Htb Hkl].
  { apply lookup_app_Some in Ht as [Ht|[Hge Ht]].
    - split; [exact Ht|]. eapply lookup_lt_Some, Ht.
    - destruct (k - length body); [|discriminate].
      injection Ht as <-. discriminate. }
  destruct (Hrec k t Hkl Htb Hk) as (c & r & Hc & Hr & Hph).
  { intros next Hnext. apply Hm. rewrite lookup_app_l; [exact Hnext|].
    eapply lookup_lt_Some, Hnext. }
  exists (mkPipeline cmds (makeSpan 0 (length input))), c, r.
  unfold parse. rewrite Hlex. cbn [commands].
  split; [exact Hp|]. do 4 (split; [assumption|]). exact Hcost.
Qed.

Lemma missing_redirection_target_witness :
  let input := js "a 2>> | b" in
  let t := mkToken TokenKind.FD_GT (js "2>>") 2 5 (Some (MetaAppend 2 true)) in
  let toks := [mkToken TokenKind.Word (js "a") 0 1 None; t;
               mkToken TokenKind.Pipe (js "|") 6 7 None;
               mkToken TokenKind.Word (js "b") 8 9 None; eofToken input] in
  lex input = Some toks /\
  toks !! 1 = Some t /\
  isRedirectionKind (kind t) = true /\
  missingTarget toks 1 /\
  exists p c r,
    parse input = Some p /\
    In c (commands p) /\ In r (redirections c) /\ placeholderFor t r /\
    length (commands p) = expectedCommands (removelast toks) /\
    commandsTokens (commands p) + pipes (removelast toks)
      = length (removelast toks).
Proof.
  intros input t toks.
  assert (lex input = Some toks) as Hlex by (vm_compute; reflexivity).
  assert (toks !! 1 = Some t) as Ht by reflexivity.
  assert (isRedirectionKind (kind t) = true) as Hk by reflexivity.
  assert (missingTarget toks 1) as Hm
    by (intros next Hnext; injection Hnext as <-; discriminate).
  repeat (split; [assumption|]).
  apply (missing_redirection_target input toks 1 t Hlex Ht Hk Hm).
Defined.
